(** * SABER block-chain covariance engine: a shallow embedding

    The development follows the sources of the repository:

    - [SpectralCorrelation]    : saber/spectralb/SpectralCorrelation.cc
    - [SaberCentralBlockFactory], [SaberCentralBlockBase]
                               : saber/blocks/SaberCentralBlockBase.cc
    - [ErrorCovariance]        : saber/oops/ErrorCovariance.h
    - [ErrorCovarianceTraining]: saber/oops/ErrorCovarianceTraining.h
    - [gsi_covariance_mod]     : the Fortran module of the GSI covariance

    A C++ [double] is a value of a type [T] carrying the operations the code
    uses on it (class [Scalar]).  Two instances are given: IEEE binary64
    (the kernel's primitive floats), on which the definitions run, and the
    real numbers, the exact arithmetic in which the algebraic statements of
    the specification are read. *)

From Stdlib Require Import PrimFloat.
From Stdlib Require Uint63 Floats.
From Stdlib Require Import Reals Lra.
From Stdlib Require Import Ascii String.
From stdpp Require Import gmap strings list fin_maps.

Set Default Proof Using "Type".

(* ===================================================================== *)
(** * Scalars: the arithmetic of [double] *)
(* ===================================================================== *)

Class Scalar (T : Type) := {
  s_zero : T;                      (* 0.0 *)
  s_one : T;                       (* 1.0 *)
  s_half : T;                      (* 0.5 *)
  s_add : T -> T -> T;
  s_sub : T -> T -> T;
  s_mul : T -> T -> T;
  s_div : T -> T -> T;
  s_abs : T -> T;                  (* std::abs *)
  s_sqrt : T -> T;                 (* std::sqrt *)
  s_of_nat : nat -> T;             (* static_cast<double> of an unsigned count *)
  s_ltb : T -> T -> bool;          (* operator< *)
  s_eqb : T -> T -> bool;          (* operator== *)
  s_eqb_one : s_eqb s_one s_one = true
}.

(** IEEE binary64, round to nearest even. *)
#[export] Instance float_scalar : Scalar float := {|
  s_zero := 0%float;
  s_one := 1%float;
  s_half := 0.5%float;
  s_add := PrimFloat.add;
  s_sub := PrimFloat.sub;
  s_mul := PrimFloat.mul;
  s_div := PrimFloat.div;
  s_abs := PrimFloat.abs;
  s_sqrt := PrimFloat.sqrt;
  s_of_nat := fun n => PrimFloat.of_uint63 (Uint63.of_Z (Z.of_nat n));
  s_ltb := PrimFloat.ltb;
  s_eqb := PrimFloat.eqb;
  s_eqb_one := eq_refl
|}.

Definition Rltb (a b : R) : bool := if Rlt_dec a b then true else false.
Definition Reqb (a b : R) : bool := if Req_dec_T a b then true else false.

Lemma Reqb_refl (a : R) : Reqb a a = true.
Proof. unfold Reqb. destruct (Req_dec_T a a); [reflexivity | contradiction]. Qed.

(** Exact arithmetic. *)
#[export] Instance R_scalar : Scalar R := {|
  s_zero := 0%R;
  s_one := 1%R;
  s_half := (/ 2)%R;
  s_add := Rplus;
  s_sub := Rminus;
  s_mul := Rmult;
  s_div := Rdiv;
  s_abs := Rabs;
  s_sqrt := R_sqrt.sqrt;
  s_of_nat := INR;
  s_ltb := Rltb;
  s_eqb := Reqb;
  s_eqb_one := Reqb_refl 1%R
|}.

(* ===================================================================== *)
(** * eckit: exceptions and log channels *)
(* ===================================================================== *)

Module eckit.

(** The exception classes the sources throw; each carries its [what()]. *)
Inductive Exception : Type :=
| Exception_ (what : string)                   (* eckit::Exception *)
| UserError (what : string)                    (* eckit::UserError *)
| FunctionalityNotSupported (what : string)    (* eckit::FunctionalityNotSupported *)
| runtime_error (what : string).               (* std::runtime_error *)

(** A call either returns or leaves by an exception. *)
Inductive Result (A : Type) : Type :=
| Ok (a : A)
| Throw (e : Exception).
Arguments Ok {A} a.
Arguments Throw {A} e.

(** Lines written to [oops::Log]. *)
Inductive LogLine : Type :=
| LogError (msg : string)     (* oops::Log::error() *)
| LogTest (msg : string).     (* oops::Log::test()  *)

End eckit.
Import eckit.

(* ===================================================================== *)
(** * atlas: fields and field sets *)
(* ===================================================================== *)

Module atlas.
Section Fields.
Context {T : Type} {ST : Scalar T}.

(** A rank-2 field: [values] holds one row per horizontal (or spectral)
    index, each row one entry per level.  The field's name is its key in
    the field set. *)
Record Field : Type := mkField {
  levels : nat;
  values : list (list T)
}.

(** [make_view<double, 2>(f)(i, jl)]; reading outside the array is
    undefined in the source and yields [0.0] here. *)
Definition view2 (a : list (list T)) (i jl : nat) : T :=
  match a !! i with
  | Some row => default s_zero (row !! jl)
  | None => s_zero
  end.

(** [view(i, jl) = v], a no-op outside the array. *)
Definition view2_set (a : list (list T)) (i jl : nat) (v : T) : list (list T) :=
  alter (<[jl := v]>) i a.

(** [make_view<const double, 3>(f)(n, r, c)]. *)
Definition view3 (a : list (list (list T))) (n r c : nat) : T :=
  match a !! n with
  | Some m => view2 m r c
  | None => s_zero
  end.

(** [view.shape(0)] *)
Definition shape0 (a : list (list (list T))) : nat := length a.

End Fields.
Arguments Field T : clear implicits.
End atlas.
Import atlas.

(** A rank-3 array [(total wavenumber, level, level)]. *)
Abbreviation Array3 T := (list (list (list T))).

(** [atlas::FieldSet] as a map from field names to rank-2 fields. *)
Abbreviation FieldSet T := (gmap string (Field T)).

(* ===================================================================== *)
(** * saber::spectralb::SpectralCorrelation *)
(* ===================================================================== *)

Module SpectralCorrelation.
Section Block.
Context {T : Type} {ST : Scalar T}.

Record t : Type := mk {
  activeVars_ : list string;
  (** one rank-3 correlation array per active variable *)
  spectralVerticalCorrelations_ : gmap string (Array3 T);
  (** [specFunctionSpace_.truncation()] *)
  truncation : nat;
  (** [specFunctionSpace_.zonal_wavenumbers()] *)
  zonal_wavenumbers : list nat
}.

(** ** randomize *)

Definition randomize_guidance : string :=
  "randomization with spectral correlation saber block" ++
  " is not supported. Instead please use 'ID' central block" ++
  " and 'square root of spectral correlation' outer block.".

(** The field set is passed by reference: the first component is its
    content when the call is left. *)
Definition randomize (self : t) (fieldSet : FieldSet T)
  : FieldSet T * list LogLine * Result unit :=
  (fieldSet,
   [LogError randomize_guidance],
   Throw (FunctionalityNotSupported
            "use ID and square root of spectral correlation instead.")).

(** ** multiply *)

(** [norm = static_cast<double>((2 * n1 + 1) * vertCovView.shape(0))].
    With 32-bit [idx_t] operands the unsigned 64-bit product cannot wrap. *)
Definition norm (vertCov : Array3 T) (n1 : nat) : T :=
  s_of_nat ((2 * n1 + 1) * shape0 vertCov).

(** The loop over [c] for one [r]:
    [col2[r] = 0; col2[r] += vertCovView(n1, r, c) * col[c] / norm]. *)
Definition col2_entry (vertCov : Array3 T) (n1 levels : nat) (col : list T) (r : nat) : T :=
  fold_left
    (fun acc c =>
       s_add acc (s_div (s_mul (view3 vertCov n1 r c) (default s_zero (col !! c)))
                        (norm vertCov n1)))
    (seq 0 levels) s_zero.

(** The body of the loop over [img]: one spectral coefficient [i]. *)
Definition coefficient (vertCov : Array3 T) (levels n1 : nat)
    (st : nat * list (list T)) : nat * list (list T) :=
  let '(i, spf) := st in
  (* pre-fill the vertical column to be convolved *)
  let col := map (fun jl => view2 spf i jl) (seq 0 levels) in
  let col2 := map (col2_entry vertCov n1 levels col) (seq 0 levels) in
  (* write the column back *)
  let spf' :=
    fold_left (fun a jl => view2_set a i jl (default s_zero (col2 !! jl)))
              (seq 0 levels) spf in
  (S i, spf').

(** [for (img = 0; img < 2; ++img)] *)
Definition img_loop (vertCov : Array3 T) (levels n1 : nat)
    (st : nat * list (list T)) : nat * list (list T) :=
  fold_left (fun st (_ : nat) => coefficient vertCov levels n1 st) (seq 0 2) st.

(** [for (n1 = m1; n1 <= N; ++n1)] *)
Definition n1_loop (vertCov : Array3 T) (levels N m1 : nat)
    (st : nat * list (list T)) : nat * list (list T) :=
  fold_left (fun st n1 => img_loop vertCov levels n1 st) (seq m1 (S N - m1)) st.

(** [for (jm = 0; jm < nb_zonal_wavenumbers; ++jm)], [m1 = zonal_wavenumbers(jm)] *)
Definition jm_loop (vertCov : Array3 T) (levels N : nat) (zw : list nat)
    (st : nat * list (list T)) : nat * list (list T) :=
  fold_left (fun st m1 => n1_loop vertCov levels N m1 st) zw st.

(** The body of the loop over the active variables, on one field. *)
Definition multiply_field (self : t) (vertCov : Array3 T) (f : Field T) : Field T :=
  mkField (levels f)
          (snd (jm_loop vertCov (levels f) (truncation self) (zonal_wavenumbers self)
                        (0, values f))).

(** The loop over [activeVars_.variables()].  [fieldSet[var]] and
    [spectralVerticalCorrelations_[var]] are atlas lookups, which throw when
    there is no such field; the field set keeps what was written before. *)
Fixpoint multiply_vars (self : t) (vars : list string) (fieldSet : FieldSet T)
  : FieldSet T * Result unit :=
  match vars with
  | [] => (fieldSet, Ok tt)
  | var :: rest =>
      match fieldSet !! var, spectralVerticalCorrelations_ self !! var with
      | Some f, Some vertCov =>
          multiply_vars self rest (<[var := multiply_field self vertCov f]> fieldSet)
      | _, _ => (fieldSet, Throw (Exception_ ("field not found: " ++ var)))
      end
  end.

Definition multiply (self : t) (fieldSet : FieldSet T) : FieldSet T * Result unit :=
  multiply_vars self (activeVars_ self) fieldSet.

End Block.
Arguments t T : clear implicits.
End SpectralCorrelation.

(* ===================================================================== *)
(** * saber::SaberCentralBlockBase and its factory *)
(* ===================================================================== *)

Module SaberCentralBlockBase.
Section Base.
Context {T : Type} {ST : Scalar T}.

(** What the base class sees of a central block. *)
Record t : Type := mk {
  multiply : FieldSet T -> FieldSet T;
  blockName : string
}.

(** [util::createRandomFieldSet] and [util::dotProductFieldSets] belong to
    oops.  The first draws from a generator whose state [Rng] is threaded
    through the calls; the second returns the dot product already reduced
    over the communicator. *)
Context {Vars Rng : Type}.
Variable createRandomFieldSet : Rng -> Vars -> FieldSet T * Rng.
Variable dotProductFieldSets : FieldSet T -> FieldSet T -> Vars -> T.

(** [std::abs(dp1-dp2)/std::abs(0.5*(dp1+dp2))] *)
Definition relative_difference (dp1 dp2 : T) : T :=
  s_div (s_abs (s_sub dp1 dp2)) (s_abs (s_mul s_half (s_add dp1 dp2))).

Definition adjointTest (self : t) (vars : Vars) (adjointTolerance : T) (rng : Rng)
  : Rng * list LogLine * Result unit :=
  (* create random FieldSets *)
  let '(fset1, rng) := createRandomFieldSet rng vars in
  let '(fset2, rng) := createRandomFieldSet rng vars in
  (* copy FieldSets *)
  let fset1Save := fset1 in
  let fset2Save := fset2 in
  (* apply forward multiplication only (self-adjointness test) *)
  let fset1 := multiply self fset1 in
  let fset2 := multiply self fset2 in
  (* compute adjoint test *)
  let dp1 := dotProductFieldSets fset1 fset2Save vars in
  let dp2 := dotProductFieldSets fset2 fset1Save vars in
  if s_ltb (relative_difference dp1 dp2) adjointTolerance
  then (rng, [LogTest ("Adjoint test for block " ++ blockName self ++ " passed")], Ok tt)
  else (rng, [LogTest ("Adjoint test for block " ++ blockName self ++ " failed")],
        Throw (Exception_ ("Adjoint test failure for block " ++ blockName self))).

End Base.
Arguments t T : clear implicits.
End SaberCentralBlockBase.

Module SaberCentralBlockFactory.
Section Factory.
(** [Block] is what a maker builds, [Args] what [make] receives
    (geometry data, variables, configurations, background, first guess). *)
Context {Block Args : Type}.

(** A factory object; [make] is its virtual maker. *)
Record t : Type := mk { make : Args -> Block }.

(** [getMakers()]: the process-wide [std::map<std::string, SaberCentralBlockFactory*>]. *)
Definition Makers : Type := gmap string t.

(** The constructor [SaberCentralBlockFactory(name)], run on [this]. *)
Definition new (name : string) (this : t) (makers : gmap string t)
  : gmap string t * list LogLine * Result unit :=
  match makers !! name with
  | Some _ =>
      (makers,
       [LogError (name ++ " already registered in saber::SaberCentralBlockFactory.")],
       Throw (Exception_ "Element already registered in saber::SaberCentralBlockFactory."))
  | None => (<[name := this]> makers, [], Ok tt)
  end.

(** [create]; the second component lists the makers whose [make] ran. *)
Definition create (makers : gmap string t) (saberBlockName : string) (args : Args)
  : list LogLine * list string * Result Block :=
  let id := saberBlockName in
  match makers !! id with
  | None =>
      ([LogError (id ++ " does not exist in saber::SaberCentralBlockFactory.")],
       [],
       Throw (UserError "Element does not exist in saber::SaberCentralBlockFactory."))
  | Some jsb => ([], [id], Ok (make jsb args))
  end.

(** [createParameters]; [makeParameters] is the factory's other virtual
    function and [Params] what it returns. *)
Context {Params : Type}.
Variable makeParameters : t -> Params.

Definition createParameters (makers : gmap string t) (name : string) : Result Params :=
  match makers !! name with
  | None => Throw (runtime_error (name ++ " does not exist in saber::SaberCentralBlockFactory"))
  | Some it => Ok (makeParameters it)
  end.

End Factory.
Arguments t : clear implicits.
End SaberCentralBlockFactory.

(* ===================================================================== *)
(** * saber::ErrorCovariance *)
(* ===================================================================== *)

(** The operations of [oops::FieldSet4D] that [ErrorCovariance] uses.  [F]
    is the 4D field set, [W] an [atlas::FieldSet] of weights. *)
Class FieldSet4DOps (T F W : Type) := {
  fs_zero : F -> F;                (* dxo.zero() *)
  fs_add : F -> F -> F;            (* dxo += fset *)
  fs_scale : F -> T -> F;          (* fset *= double *)
  fs_mul : F -> W -> F;            (* fset *= atlas::FieldSet *)
  w_new : W;                       (* a default-constructed atlas::FieldSet *)
  w_empty : W -> bool;             (* atlas::FieldSet::empty() *)
  sqrtFieldSet : W -> W;           (* util::sqrtFieldSet *)
  w_empty_new : w_empty w_new = true
}.

(** A field set flattened to the vector of its values, for running the
    definitions: [zero] assigns 0.0 to every entry, [+=] and the two [*=]
    work entry by entry, as the oops operators do on the fields. *)
#[export] Instance vector_ops (T : Type) {ST : Scalar T} : FieldSet4DOps T (list T) (list T) := {|
  fs_zero := map (fun _ => s_zero);
  fs_add := zip_with s_add;
  fs_scale := fun x a => map (fun v => s_mul v a) x;
  fs_mul := zip_with s_mul;
  w_new := [];
  w_empty := fun w => match w with [] => true | _ => false end;
  sqrtFieldSet := map s_sqrt;
  w_empty_new := eq_refl
|}.

Module ErrorCovariance.
Section Covariance.
Context {T F W : Type} {ST : Scalar T} {OPS : FieldSet4DOps T F W}.

(** [SaberBlockChainBase]: a hybrid component. *)
Record SaberBlockChainBase : Type := mkChain {
  chain_multiply : F -> F;
  chain_randomize : F -> F
}.

(** [SaberOuterBlockChain]: the outer blocks shared by all components. *)
Record SaberOuterBlockChain : Type := mkOuter {
  applyOuterBlocks : F -> F;
  applyOuterBlocksAD : F -> F
}.

Record t : Type := mk {
  outerBlockChain_ : option SaberOuterBlockChain;      (* null when not set *)
  hybridBlockChain_ : list SaberBlockChainBase;
  hybridScalarWeightSqrt_ : list T;
  hybridFieldWeightSqrt_ : list W
}.

(** ** Construction *)

(** One entry of the [components] list of a hybrid configuration. *)
Record Component : Type := mkComponent {
  weight_value : option T;        (* weight: value *)
  weight_file : option W;         (* weight: file, as read by readHybridWeight *)
  covariance : SaberBlockChainBase   (* the chain built from [covariance] *)
}.

Record Parameters : Type := mkParameters {
  saberBlockName : string;                          (* saber central block: saber block name *)
  saberOuterBlocksParams : option SaberOuterBlockChain;  (* saber outer blocks, built *)
  components : list Component;
  centralChain : SaberBlockChainBase               (* the single chain of a non-hybrid covariance *)
}.

(** The body of the loop over the components: three [push_back]s. *)
Definition add_component (self : t) (cmp : Component) : t :=
  mk (outerBlockChain_ self)
     (hybridBlockChain_ self ++ [covariance cmp])
     (hybridScalarWeightSqrt_ self ++ [s_sqrt (default s_one (weight_value cmp))])
     (hybridFieldWeightSqrt_ self ++
        [match weight_file cmp with
         | Some weightFset => sqrtFieldSet weightFset
         | None => w_new
         end]).

Definition new (params : Parameters) : t :=
  if String.eqb (saberBlockName params) "Hybrid" then
    fold_left add_component (components params)
              (mk (saberOuterBlocksParams params) [] [] [])
  else
    (* non-hybrid covariance: single block chain *)
    mk None [centralChain params] [s_one] [w_new].

(** ** Calls made on the collaborators, in order *)

Inductive Call : Type :=
| ApplyOuterBlocksAD            (* outerBlockChain_->applyOuterBlocksAD *)
| ApplyOuterBlocks              (* outerBlockChain_->applyOuterBlocks *)
| ScalarWeight (jj : nat)       (* fset *= hybridScalarWeightSqrt_[jj] *)
| FieldWeight (jj : nat)        (* fset *= hybridFieldWeightSqrt_[jj] *)
| ChainMultiply (jj : nat)      (* hybridBlockChain_[jj]->multiply *)
| ChainRandomize (jj : nat)     (* hybridBlockChain_[jj]->randomize *)
| AddComponent (jj : nat).      (* dxo += fset *)

#[global] Instance Call_eq_dec : EqDecision Call.
Proof. solve_decision. Defined.

(** A computation together with the calls it made. *)
Definition Traced (A : Type) : Type := (A * list Call)%type.
Definition ret {A : Type} (a : A) : Traced A := (a, []).
Definition call {A : Type} (c : Call) (a : A) : Traced A := (a, [c]).
Definition bind {A B : Type} (m : Traced A) (k : A -> Traced B) : Traced B :=
  let '(b, calls) := k (fst m) in (b, snd m ++ calls).

(** [v[jj]] on the three vectors, which the constructor fills with one
    entry per component; reading past the end is undefined in the source and
    yields the value of a non-hybrid covariance here. *)
Definition weightSqrt (self : t) (jj : nat) : T :=
  default s_one (hybridScalarWeightSqrt_ self !! jj).
Definition fieldWeightSqrt (self : t) (jj : nat) : W :=
  default w_new (hybridFieldWeightSqrt_ self !! jj).
Definition blockChain (self : t) (jj : nat) : SaberBlockChainBase :=
  default (mkChain (fun x => x) (fun x => x)) (hybridBlockChain_ self !! jj).

(** "Apply weight": the two guarded multiplications. *)
Definition apply_weight (self : t) (jj : nat) (fset : F) : Traced F :=
  bind (if negb (s_eqb (weightSqrt self jj) s_one)
        then call (ScalarWeight jj) (fs_scale fset (weightSqrt self jj))
        else ret fset)
       (fun fset =>
          if negb (w_empty (fieldWeightSqrt self jj))
          then call (FieldWeight jj) (fs_mul fset (fieldWeightSqrt self jj))
          else ret fset).

(** The body of the loop over the B components of [doMultiply]. *)
Definition multiply_component (self : t) (dxi : F) (dxo : F) (jj : nat) : Traced F :=
  let fset := dxi in                                      (* copyFieldSet4D(dxi) *)
  bind (apply_weight self jj fset) (fun fset =>
  bind (call (ChainMultiply jj) (chain_multiply (blockChain self jj) fset)) (fun fset =>
  bind (apply_weight self jj fset) (fun fset =>
  call (AddComponent jj) (fs_add dxo fset)))).

(** [for (size_t jj = 0; jj < n; ++jj)] over an accumulator. *)
Definition for_each (body : F -> nat -> Traced F) (n : nat) (dxo : F) : Traced F :=
  fold_left (fun acc jj => bind acc (fun dxo => body dxo jj)) (seq 0 n) (ret dxo).

(** [Increment4D] and [FieldSet4D] hold the same values; the conversions
    between them are not modelled. *)
Definition doMultiply (self : t) (dxi_inc : F) : Traced F :=
  (* copy input *)
  let dxo := dxi_inc in
  (* apply outer blocks adjoint *)
  bind (match outerBlockChain_ self with
        | Some outer => call ApplyOuterBlocksAD (applyOuterBlocksAD outer dxo)
        | None => ret dxo
        end) (fun dxo =>
  let dxi := dxo in
  (* initialize sum to zero *)
  let dxo := fs_zero dxo in
  (* loop over B components *)
  bind (for_each (multiply_component self dxi) (length (hybridBlockChain_ self)) dxo)
       (fun dxo =>
  (* apply outer blocks forward *)
  match outerBlockChain_ self with
  | Some outer => call ApplyOuterBlocks (applyOuterBlocks outer dxo)
  | None => ret dxo
  end)).

(** The body of the loop of [doRandomize]: the sample is drawn from a
    zero field set, weighted once and added. *)
Definition randomize_component (self : t) (zeroFset : F) (dx : F) (jj : nat) : Traced F :=
  let fset := zeroFset in
  bind (call (ChainRandomize jj) (chain_randomize (blockChain self jj) fset)) (fun fset =>
  bind (apply_weight self jj fset) (fun fset =>
  call (AddComponent jj) (fs_add dx fset))).

Definition doRandomize (self : t) (dx_inc : F) : Traced F :=
  let dx := fs_zero dx_inc in
  let zeroFset := dx in
  bind (for_each (randomize_component self zeroFset) (length (hybridBlockChain_ self)) dx)
       (fun dx =>
  match outerBlockChain_ self with
  | Some outer => call ApplyOuterBlocks (applyOuterBlocks outer dx)
  | None => ret dx
  end).

End Covariance.
Arguments t T F W : clear implicits.
Arguments SaberBlockChainBase F : clear implicits.
Arguments SaberOuterBlockChain F : clear implicits.
Arguments Component T F W : clear implicits.
Arguments Parameters T F W : clear implicits.
End ErrorCovariance.

(* ===================================================================== *)
(** * gsi_covariance_mod (Fortran) *)
(* ===================================================================== *)

(** Fortran [character] values. *)
Module fortran.

Definition blank : ascii := " "%char.

Fixpoint blanks (n : nat) : string :=
  match n with
  | O => EmptyString
  | S n => String blank (blanks n)
  end.

(** Assignment to a [character(len=n)] variable: blank-padded or cut. *)
Definition assign (n : nat) (s : string) : string :=
  substring 0 n (s ++ blanks n).

(** [trim]: the value without its trailing blanks. *)
Fixpoint trim (s : string) : string :=
  match s with
  | EmptyString => EmptyString
  | String c r =>
      match trim r with
      | EmptyString => if Ascii.eqb c blank then EmptyString else String c EmptyString
      | r' => String c r'
      end
  end.

(** [a == b]: the shorter operand is extended with blanks. *)
Definition eq (a b : string) : bool := String.eqb (trim a) (trim b).

End fortran.

Module gsi_covariance_mod.

Definition myname : string := "gsi_covariance_mod".

(** How a run of a subroutine ends.  In the last case the run reads a
    variable of the module that holds no value: the pointer [rank2] after a
    call of [get_rank2_] that returned without associating it (it is null,
    or what an earlier call left), or the integer [npz] before it is
    assigned.  The module does not define how the run goes on from there. *)
Inductive Run : Type :=
| Returns
| abor1_ftn (msg : string)       (* the program is aborted *)
| undefined.

(** Each [print *, a, b, c] is kept as the list of its items. *)
Definition Printed : Type := list (list string).

(** ** get_rank2_ *)

(** The [if] blocks of [get_rank2_], in source order: a block is entered
    for the listed GSI names and looks for one user field; the block of
    [phis] accepts either of two fields. *)
Inductive Block : Type :=
| OneField (vnames : list string) (field : string)
| PhisBlock.

Definition blocks : list Block :=
  [ OneField ["ps"] "air_pressure_at_surface";
    OneField ["ts"; "sst"] "skin_temperature_at_surface";
    OneField ["u"; "ua"] "eastward_wind";
    OneField ["v"; "va"] "northward_wind";
    OneField ["sf"] "stream_function";
    OneField ["vp"] "velocity_potential";
    OneField ["t"; "tsen"] "air_temperature";
    OneField ["tv"] "virtual_temperature";
    OneField ["q"; "sphum"] "specific_humidity";
    OneField ["qi"] "cloud_liquid_ice";
    OneField ["ql"] "cloud_liquid_water";
    OneField ["qr"] "rain_water";
    OneField ["qs"] "snow_water";
    OneField ["qg"] "graupel";
    OneField ["qh"] "hail";
    OneField ["oz"; "o3ppmv"] "mole_fraction_of_ozone_in_air";
    OneField ["o3mr"] "ozone_mass_mixing_ratio";
    PhisBlock;
    OneField ["frocean"] "fraction_of_ocean";
    OneField ["frlake"] "fraction_of_lake";
    OneField ["frseaice"] "fraction_of_ice" ].

(** Runs the blocks with the current [ier]; a missing field returns at
    once.  Only the status is kept, not the data pointer [rank2]. *)
Fixpoint get_rank2_blocks (has : string -> bool) (vname : string)
    (bs : list Block) (ier : Z) : Z :=
  match bs with
  | [] => ier
  | OneField vnames field :: rest =>
      if existsb (fortran.eq (fortran.trim vname)) vnames then
        if negb (has field) then ier
        else get_rank2_blocks has vname rest 0
      else get_rank2_blocks has vname rest ier
  | PhisBlock :: rest =>
      if fortran.eq (fortran.trim vname) "phis" then
        if negb (has "geopotential_height_times_gravity_at_surface") then
          if has "geopotential_height_at_surface"
          then get_rank2_blocks has vname rest 0
          else ier
        else get_rank2_blocks has vname rest 0
      else get_rank2_blocks has vname rest ier
  end.

(** [fields] is the set of names for which [fields%has] holds. *)
Definition get_rank2_ (fields : gset string) (vname : string) : Z :=
  get_rank2_blocks (fun name => bool_decide (name ∈ fields)) vname blocks (-1).

(** ** The list of variables still to be done *)

(** [tbdvars] and [needvrs] are [character(len=30)] arrays. *)
Definition tbdlen : nat := 30.

(** [any(needvrs(:)(1:6)/='filled')], for one element. *)
Definition not_filled (e : string) : bool :=
  negb (String.eqb (substring 0 6 e) "filled").

(** [where(need==name) need='filled-'//need] *)
Definition fill_where (name : string) (need : list string) : list string :=
  map (fun e => if fortran.eq e name
                then fortran.assign tbdlen ("filled-" ++ e) else e) need.

Definition any_eq (name : string) (need : list string) : bool :=
  existsb (fun e => fortran.eq e name) need.

(** [call get_rank2_(rank2,jedicv(ii),vname,ier)] of the fix-ups, whose
    [ier] is not looked at: the call associates [rank2] when the field is
    found in time slot [ii]. *)
Definition rank2_associated (jedicv : list (gset string)) (ii : nat) (vname : string) : bool :=
  match jedicv !! (ii - 1) with
  | Some fields => (get_rank2_ fields vname =? 0)%Z
  | None => false
  end.

(** The fix-ups are kept as far as the list [need] and the variables of
    the module go.  What [gsi_bundlegetpointer] returns from the GSI bundles
    ([q], [tv], [sst]) belongs to GSI and is taken as associated, [q] with
    at least one level; [gsi_tv_to_t_tl] and [gsi_tv_to_t_ad] are GSI's.
    A fix-up gives the list it leaves, and [None] when it reads [rank2] or
    [npz] without a value. *)

(** The loop [do ii=1,ntimes] of the fix-up of ["tv"], in [cvfix_] and in
    [svfix_]: [rank2(k,:)] is handed to [addhalo_] for every level of [q]
    before [which] is looked at; the entries are marked in the branch of
    ['tlm'] and in that of ['adm']. *)
Definition tv_loop (jedicv : list (gset string)) (need : list string) (ntimes : nat)
    (which : string) : option (list string) :=
  fold_left
    (fun need ii =>
       match need with
       | None => None
       | Some need =>
           if negb (rank2_associated jedicv ii "t") then None else
           let need := if fortran.eq which "tlm" then fill_where "tv" need else need in
           let need := if fortran.eq which "adm" then fill_where "tv" need else need in
           Some need
       end)
    (seq 1 ntimes) (Some need).

(** The loop of the fix-up of the skin temperature in [cvfix_].  The
    branch of ['tlm'] reads [size(rank2,2)] and writes [rank2(1,:)] with
    [vflip], [rank2(npz,:)] without; the branch of ['adm'] hands the same
    row to [addhalo_].  [npz] is assigned in the loop of ["tv"] only
    ([npz_set]).  The entries ["sst"] are marked after the two branches. *)
Definition sst_loop (jedicv : list (gset string)) (vflip npz_set : bool)
    (need : list string) (ntimes : nat) (which : string) : option (list string) :=
  fold_left
    (fun need ii =>
       match need with
       | None => None
       | Some need =>
           if (fortran.eq which "tlm" || fortran.eq which "adm")
              && (negb (rank2_associated jedicv ii "ts") || negb (vflip || npz_set))
           then None
           else Some (fill_where "sst" need)
       end)
    (seq 1 ntimes) (Some need).

Definition cvfix_ (jedicv : list (gset string)) (vflip : bool) (need : list string)
    (ntimes : nat) (which : string) : option (list string) :=
  if (length need <? 1)%nat then Some need else
  let npz_set := any_eq "tv" need && (1 <=? ntimes)%nat in
  match (if any_eq "tv" need then tv_loop jedicv need ntimes which else Some need) with
  | None => None
  | Some need =>
      (* SST GSI-way *)
      if any_eq "ts" need then sst_loop jedicv vflip npz_set need ntimes which
      else Some need
  end.

Definition svfix_ (jedicv : list (gset string)) (vflip : bool) (need : list string)
    (ntimes : nat) (which : string) : option (list string) :=
  if (length need <? 1)%nat then Some need else
  (* gsi will take care of this *)
  let need := if any_eq "prse" need then fill_where "prse" need else need in
  if any_eq "tv" need then tv_loop jedicv need ntimes which else Some need.

(** ** multiply *)

Record gsi_covariance : Type := mk {
  noGSI : bool;               (* self%grid%noGSI *)
  cv : bool;                  (* control vector (true) or state vector *)
  vflip : bool                (* self%grid%vflip *)
}.

(** One time slot: the names [gsi_bundlegetpointer] finds in the GSI
    bundle, and the names of the Atlas fields. *)
Record Slot : Type := mkSlot {
  bundle : gset string;
  fields : gset string
}.

(** The body of the loops over [gvars2d] and [gvars3d] for one variable:
    [entry] is [tbdvars(itbd)]. *)
Definition to_bundle (slot : Slot) (entry gvar : string) : string :=
  if negb (bool_decide (fortran.trim gvar ∈ bundle slot)) then entry       (* cycle *)
  else if (get_rank2_ (fields slot) (fortran.trim gvar) =? 0)%Z
       then fortran.assign tbdlen ("filled-" ++ fortran.trim gvar)
       else fortran.assign tbdlen (fortran.trim gvar).

(** "Convert Atlas fieldsets to GSI bundle fields", as far as [tbdvars]
    goes; [gvars] is [gvars2d] followed by [gvars3d]. *)
Definition tbdvars_of (gvars : list string) (slots : list Slot) : list string :=
  fold_left (fun tbdvars slot => zip_with (to_bundle slot) tbdvars gvars)
            slots
            (map (fun gvar => fortran.assign tbdlen ("unfilled-" ++ fortran.trim gvar)) gvars).

(** The fix-up that [multiply] calls, for the fields [jedicv] of the time
    slots; [which] is ['adm'] before the B-error operator and ['tlm'] after
    the conversion back. *)
Definition fix_ (self : gsi_covariance) (jedicv : list (gset string)) (need : list string)
    (ntimes : nat) (which : string) : option (list string) :=
  if cv self then cvfix_ jedicv (vflip self) need ntimes which
  else svfix_ jedicv (vflip self) need ntimes which.

(** "check that all variables are consistently available" *)
Definition check_available (tag : string) (what : string) (needvrs : list string)
  : Printed * Run :=
  if existsb not_filled needvrs
  then (map (fun e => [(myname ++ "*multiply")%string; tag; fortran.trim e]) needvrs,
        abor1_ftn (myname ++ "*multiply" ++ what)%string)
  else ([], Returns).

Definition multiply (self : gsi_covariance) (gvars2d gvars3d : list string)
    (slots : list Slot) : Printed * Run :=
  if noGSI self then ([], Returns) else
  let ntimes := length slots in
  let tbdvars := tbdvars_of (gvars2d ++ gvars3d) slots in
  let jedicv := map fields slots in
  (* fill in missing fields; check *)
  match fix_ self jedicv tbdvars ntimes "adm" with
  | None => ([], undefined)
  | Some needvrs =>
      match check_available "*adm:: " ": missing fields in cv(adm) " needvrs with
      | (_, Returns) =>
          (* the B-error operator is applied and the fields converted back *)
          match fix_ self jedicv tbdvars ntimes "tlm" with
          | None => ([], undefined)
          | Some needvrs =>
              check_available "*tlm:: " ": missing fields in cv(tlm) " needvrs
          end
      | aborted => aborted
      end
  end.

(** ** create: the guess variables *)

(** The loops over the rank-2 and rank-3 met-guess variables for one time:
    [vars] pairs each GSI name with its user name. *)
Definition guess_entry (firstguess : gset string) (gsivar usrvar : string) : string :=
  if (get_rank2_ firstguess (fortran.trim usrvar) =? 0)%Z
  then fortran.assign tbdlen ("filled-" ++ fortran.trim gsivar)
  else fortran.assign tbdlen (fortran.trim gsivar).

(** [allocated] is the content of [tbdvars] after [allocate], which is
    kept when [ntimes] is 0; every time slot writes all entries. *)
Definition guess_tbdvars (allocated : list string) (vars : list (string * string))
    (firstguess : list (gset string)) : list string :=
  fold_left (fun _ fg => map (fun v => guess_entry fg (fst v) (snd v)) vars)
            firstguess allocated.

(** The branch of [create] for a grid with GSI and a background that is
    not mocked.  [gsiguess_bkgcov_init] belongs to the GSI library and may
    mark entries of [tbdvars]. *)
Definition create_guess (gsiguess_bkgcov_init : list string -> list string)
    (allocated : list string) (vars : list (string * string))
    (firstguess : list (gset string)) : Printed * Run :=
  let tbdvars := gsiguess_bkgcov_init (guess_tbdvars allocated vars firstguess) in
  if (0 <? length tbdvars)%nat then
    if existsb not_filled tbdvars
    then (map (fun e => [(myname ++ "*create")%string; " "; fortran.trim e]) tbdvars,
          abor1_ftn (myname ++ "*create" ++ ": missing fields in fg ")%string)
    else ([], Returns)
  else ([], Returns).

(** ** Halo: addhalo_, remhalo_ and the conversion of a rank-3 variable *)

Section Halo.
Context {T : Type} {ST : Scalar T}.

(** A rank-2 array [var(jj,ii)] is the list of its rows [var(jj,:)]; the
    element [var(jj,ii)] is entry [ii-1] of row [jj-1].  A rank-1 array
    [rank(jnode)] is a list, [rank(jnode)] its entry [jnode-1]. *)

(** [size(var,2)], read off the first row (an array with no row has no
    element to fill or to read). *)
Definition size2 (var : list (list T)) : nat := length (default [] (head var)).

(** An [integer] converted to [real]. *)
Definition real_of (n : Z) : T :=
  if (n <? 0)%Z then s_sub s_zero (s_of_nat (Z.to_nat (- n)))
  else s_of_nat (Z.to_nat n).

(** The two nested loops [do jj=2,mylat2-1; do ii=2,mylon2-1] with the
    counter [jnode]; positions are counted from 0. *)
Definition interior_loop {S : Type} (mylat2 mylon2 : nat)
    (body : nat -> nat -> nat -> S -> S) (s : S) : nat * S :=
  fold_left
    (fun st jj =>
       fold_left (fun st ii => (Datatypes.S (fst st), body (fst st) jj ii (snd st)))
                 (seq 1 (mylon2 - 2)) st)
    (seq 1 (mylat2 - 2)) (0, s).

Definition addhalo_ (rank : list T) (var : list (list T)) : list (list T) :=
  let mylat2 := length var in
  let mylon2 := size2 var in
  let ndim := ((Z.of_nat mylat2 - 2) * (Z.of_nat mylon2 - 2))%Z in
  (* var = sum(rank(jnode:ndim))/ndim, with jnode = 1: fills the halo *)
  let fill := s_div (fold_left s_add (take (Z.to_nat ndim) rank) s_zero) (real_of ndim) in
  let var := map (map (fun _ => fill)) var in
  snd (interior_loop mylat2 mylon2
         (fun jnode jj ii var => view2_set var jj ii (default s_zero (rank !! jnode)))
         var).

(** [rank] is [intent(out)]: the entries that are not assigned keep what
    the array held. *)
Definition remhalo_ (var : list (list T)) (rank : list T) : list T :=
  let mylat2 := length var in
  let mylon2 := size2 var in
  snd (interior_loop mylat2 mylon2
         (fun jnode jj ii rank => <[jnode := view2 var jj ii]> rank)
         rank).

(** The level of the GSI variable that level [k] of the Atlas field goes
    to, and comes from: [npz-k+1] with [vflip], [k] without. *)
Definition gsi_level (vflip : bool) (npz k : nat) : nat :=
  if vflip then npz - k + 1 else k.

(** [multiply], "Convert Atlas fieldsets to GSI bundle fields", for one
    rank-3 variable: [rank2(k,:)] is entry [k-1] of [rank2],
    [gsivar3d(:,:,k)] entry [k-1] of [gsivar3d]; [aux] is allocated once
    and reused. *)
Definition to_gsivar3d (vflip : bool) (npz : nat) (rank2 : list (list T))
    (gsivar3d : list (list (list T))) (aux : list (list T)) : list (list (list T)) :=
  snd (fold_left
         (fun st k =>
            let aux := addhalo_ (default [] (rank2 !! (k - 1))) (fst st) in
            (aux, <[gsi_level vflip npz k - 1 := aux]> (snd st)))
         (seq 1 npz) (aux, gsivar3d)).

(** [multiply], "Convert back to Atlas Fields", for one rank-3 variable;
    [aux1] is allocated once and reused. *)
Definition from_gsivar3d (vflip : bool) (npz : nat) (gsivar3d : list (list (list T)))
    (rank2 : list (list T)) (aux1 : list T) : list (list T) :=
  snd (fold_left
         (fun st k =>
            let aux1 := remhalo_ (default [] (gsivar3d !! (k - 1))) (fst st) in
            (aux1, <[gsi_level vflip npz k - 1 := aux1]> (snd st)))
         (seq 1 npz) (aux1, rank2)).

End Halo.

End gsi_covariance_mod.

(* ===================================================================== *)
(** * saber::ErrorCovarianceTraining *)
(* ===================================================================== *)

Module ErrorCovarianceTraining.
Section Randomization.
Context {T : Type} {ST : Scalar T}.

(** "Randomize ensemble and remove mean" of [execute].  An increment is the
    vector of its values; [incrs] are the increments that
    [Bmat->randomize(incr)] returns, one per member, and [zero] the
    increment [mean] after [mean.zero()]. *)
Definition randomized_ensemble (zero : list T) (incrs : list (list T)) : list (list T) :=
  let ens2_ne := length incrs in
  let st :=
    fold_left
      (fun st incr => (fst st ++ [incr],          (* ens2[ie] = incr *)
                       zip_with s_add (snd st) incr))   (* mean += incr *)
      incrs ([], zero) in
  let rr := s_div s_one (s_of_nat ens2_ne) in
  let mean := map (fun v => s_mul v rr) (snd st) in       (* mean *= rr *)
  map (fun member => zip_with s_sub member mean) (fst st).  (* ens2[ie] -= mean *)

End Randomization.
End ErrorCovarianceTraining.

(* ===================================================================== *)
(** * Functions used to state the properties *)
(* ===================================================================== *)

(** An ID central block used in the examples: [multiply] does nothing. *)
Definition ID_block : SaberCentralBlockBase.t float :=
  SaberCentralBlockBase.mk (fun fset => fset) "ID".

(** [needle] occurs in [s]. *)
Definition mentions (needle s : string) : bool :=
  match String.index 0 needle s with
  | Some _ => true
  | None => false
  end.

Section SpectralSpec.
Context {T : Type} {ST : Scalar T}.

(** The column [col] convolved with the level x level matrix [M]: entry
    [r] sums, over the levels [c], the products [M(r,c) * col(c)], each
    divided by [nrm]. *)
Definition normalized_convolution (M : list (list T)) (nrm : T) (col : list T) : list T :=
  map (fun r =>
         fold_left
           (fun acc c =>
              s_add acc (s_div (s_mul (view2 M r c) (default s_zero (col !! c))) nrm))
           (seq 0 (length col)) s_zero)
      (seq 0 (length col)).

(** The number of coefficients stored for the zonal wavenumber [m]: a real
    and an imaginary one for each total wavenumber from [m] to [N]. *)
Definition coefficients_of (N m : nat) : nat := 2 * (S N - m).

(** The first index of the coefficient of zonal wavenumber
    [zonal_wavenumbers(jm)], total wavenumber [n] and component [img]
    (0 real, 1 imaginary). *)
Definition coefficient_index (N : nat) (zw : list nat) (jm n img : nat) : nat :=
  sum_list (coefficients_of N <$> take jm zw) + 2 * (n - default 0 (zw !! jm)) + img.

(** The total wavenumber of every coefficient, in index order. *)
Definition wavenumbers (N : nat) (zw : list nat) : list nat :=
  concat (map (fun m1 => concat (map (fun n1 => [n1; n1]) (seq m1 (S N - m1)))) zw).

(** The column convolved with the matrix stored for the total wavenumber
    [n1] (no matrix, out of range, reads as zeros) and normalised. *)
Definition convolved (vertCov : Array3 T) (n1 : nat) (col : list T) : list T :=
  normalized_convolution (default [] (vertCov !! n1))
                         (SpectralCorrelation.norm vertCov n1) col.

(** Every row of the field has one entry per level. *)
Definition well_shaped (f : Field T) : Prop :=
  Forall (fun row => length row = levels f) (values f).

End SpectralSpec.

(** A two-level field set compared entry by entry with the [==] of doubles. *)
Definition numerically_equal (a b : list (list float)) : bool :=
  forallb (fun rows => forallb (fun vs => PrimFloat.eqb (fst vs) (snd vs))
                               (zip (fst rows) (snd rows)))
          (zip a b)
  && (length a =? length b)%nat.

(** ** A two-level, single-variable configuration *)

Section TwoLevels.
Context {T : Type} {ST : Scalar T}.

(** The correlation matrix [[1,0],[0,1]]. *)
Definition identity2 : list (list T) := [[s_one; s_zero]; [s_zero; s_one]].

(** Truncation 1, zonal wavenumbers 0 and 1, the identity stored for the
    total wavenumbers 0 and 1; "psi" is the only active variable. *)
Definition identity_correlation : SpectralCorrelation.t T :=
  SpectralCorrelation.mk ["psi"] {[ "psi" := [identity2; identity2] ]} 1 [0; 1].

(** The six spectral coefficients of "psi", each (1, 2) on the two levels. *)
Definition two_level_psi : FieldSet T :=
  {[ "psi" := mkField 2 (replicate 6 [s_one; s_add s_one s_one]) ]}.

(** The same with a second field, "chi", that is not active. *)
Definition two_level_fields : FieldSet T :=
  <[ "chi" := mkField 1 [[s_one]] ]> two_level_psi.

End TwoLevels.

(** The values of a field of a field set, none when it has no such field. *)
Definition values_of {T : Type} (fieldSet : FieldSet T) (name : string) : list (list T) :=
  match fieldSet !! name with
  | Some f => values f
  | None => []
  end.

(** ** ErrorCovariance *)

Section ErrorCovarianceSpec.
Context {T F W : Type} {ST : Scalar T} {OPS : FieldSet4DOps T F W}.
Implicit Types (self : ErrorCovariance.t T F W) (x : F).

(** [x] scaled by the weights of component [jj]: by the stored scalar
    square root (a weight equal to 1.0 leaves [x] as it is), then by the
    per-field square root when that field set is not empty. *)
Definition weighted self (jj : nat) x : F :=
  let x := if s_eqb (ErrorCovariance.weightSqrt self jj) s_one then x
           else fs_scale x (ErrorCovariance.weightSqrt self jj) in
  if w_empty (ErrorCovariance.fieldWeightSqrt self jj) then x
  else fs_mul x (ErrorCovariance.fieldWeightSqrt self jj).

(** The multiplications made for it. *)
Definition weight_calls self (jj : nat) : list ErrorCovariance.Call :=
  (if s_eqb (ErrorCovariance.weightSqrt self jj) s_one then []
   else [ErrorCovariance.ScalarWeight jj])
  ++ (if w_empty (ErrorCovariance.fieldWeightSqrt self jj) then []
      else [ErrorCovariance.FieldWeight jj]).

(** What component [jj] contributes for the input [x]: weights, the
    chain's multiply, the same weights again. *)
Definition contribution self (jj : nat) x : F :=
  weighted self jj
    (ErrorCovariance.chain_multiply (ErrorCovariance.blockChain self jj)
       (weighted self jj x)).

Definition component_calls self (jj : nat) : list ErrorCovariance.Call :=
  weight_calls self jj
  ++ [ErrorCovariance.ChainMultiply jj]
  ++ weight_calls self jj
  ++ [ErrorCovariance.AddComponent jj].

(** The contributions of the components [0 .. n-1] for [x], summed into
    an accumulator that starts at zero. *)
Definition sum_of_contributions self (n : nat) x : F :=
  fold_left (fun acc jj => fs_add acc (contribution self jj x)) (seq 0 n) (fs_zero x).

(** The number of times [c] was called. *)
Definition times_called (c : ErrorCovariance.Call) (calls : list ErrorCovariance.Call) : nat :=
  length (filter (fun c' => c' = c) calls).

(** What the constructor stores for a component: the square root of its
    scalar weight (1.0 when none is given), and the square root of the
    weight field read from file (an empty field set when none is given). *)
Definition stored_weight (cmp : ErrorCovariance.Component T F W) : T :=
  s_sqrt (default s_one (ErrorCovariance.weight_value cmp)).
Definition stored_field_weight (cmp : ErrorCovariance.Component T F W) : W :=
  match ErrorCovariance.weight_file cmp with
  | Some weightFset => sqrtFieldSet weightFset
  | None => w_new
  end.

(** [params] with the scalar weight of component [i] multiplied by [k]
    (an absent weight is 1.0). *)
Definition scale_weight (k : T) (cmp : ErrorCovariance.Component T F W)
  : ErrorCovariance.Component T F W :=
  ErrorCovariance.mkComponent
    (Some (s_mul k (default s_one (ErrorCovariance.weight_value cmp))))
    (ErrorCovariance.weight_file cmp)
    (ErrorCovariance.covariance cmp).

Definition scale_component_weight (i : nat) (k : T) (params : ErrorCovariance.Parameters T F W)
  : ErrorCovariance.Parameters T F W :=
  ErrorCovariance.mkParameters
    (ErrorCovariance.saberBlockName params)
    (ErrorCovariance.saberOuterBlocksParams params)
    (alter (scale_weight k) i (ErrorCovariance.components params))
    (ErrorCovariance.centralChain params).

End ErrorCovarianceSpec.

(** The chain of a covariance whose central block is ID: [multiply] and
    [randomize] leave the field set as it is. *)
Definition ID_chain {F : Type} : ErrorCovariance.SaberBlockChainBase F :=
  ErrorCovariance.mkChain (fun fset => fset) (fun fset => fset).

(** Two vectors of doubles are the same bit for bit (all NaNs alike). *)
Definition bitwise_equal (a b : list float) : bool :=
  forallb (fun vs => PrimFloat.Leibniz.eqb (fst vs) (snd vs)) (zip a b)
  && (length a =? length b)%nat.

(** A hybrid covariance on vectors of doubles: a shared outer chain that
    doubles (forward) and doubles (adjoint), an ID component of weight 2 and
    an ID component with a per-field weight. *)
Definition hybrid_example : ErrorCovariance.Parameters float (list float) (list float) :=
  ErrorCovariance.mkParameters "Hybrid"
    (Some (ErrorCovariance.mkOuter (fun x => fs_scale x 2%float)
                                   (fun x => fs_scale x 2%float)))
    [ ErrorCovariance.mkComponent (Some 2%float) None ID_chain;
      ErrorCovariance.mkComponent None (Some [4%float]) ID_chain ]
    ID_chain.

(** A chain on vectors that triples every entry. *)
Definition tripling_chain {T : Type} {ST : Scalar T} : ErrorCovariance.SaberBlockChainBase (list T) :=
  ErrorCovariance.mkChain
    (fun x => fs_scale x (s_add s_one (s_add s_one s_one)))
    (fun x => x).

(** A hybrid covariance on vectors of reals with one component, of weight
    1.0 (none configured), whose chain triples. *)
Definition tripling_component : ErrorCovariance.Component R (list R) (list R) :=
  ErrorCovariance.mkComponent None None tripling_chain.

Definition tripling_hybrid : ErrorCovariance.Parameters R (list R) (list R) :=
  ErrorCovariance.mkParameters "Hybrid" None [tripling_component] tripling_chain.

(** ** gsi_covariance_mod *)

(** The entries of the list that are not marked as filled. *)
Definition missing (need : list string) : list string :=
  filter (fun e => gsi_covariance_mod.not_filled e = true) need.

(** The lines printed for a list by the check of [multiply] (before the
    B-error operator) and by that of [create]. *)
Definition adm_lines (need : list string) : gsi_covariance_mod.Printed :=
  map (fun e => ["gsi_covariance_mod*multiply"; "*adm:: "; fortran.trim e]) need.
Definition create_lines (need : list string) : gsi_covariance_mod.Printed :=
  map (fun e => ["gsi_covariance_mod*create"; " "; fortran.trim e]) need.

(** One time slot in which the state has the surface pressure and the
    eastward wind only. *)
Definition two_fields_slot : gsi_covariance_mod.Slot :=
  gsi_covariance_mod.mkSlot
    {[ "ps"; "u"; "v"; "t"; "q" ]}
    {[ "air_pressure_at_surface"; "eastward_wind" ]}.

(* ===================================================================== *)
(** * Functions used to state further properties *)
(* ===================================================================== *)

Section ErrorCovarianceCalls.
Context {T F W : Type} {ST : Scalar T} {OPS : FieldSet4DOps T F W}.
Implicit Types (self : ErrorCovariance.t T F W) (x : F).

(** Calls of a component chain's multiply, resp. randomize. *)
Definition is_chain_multiply (c : ErrorCovariance.Call) : bool :=
  match c with ErrorCovariance.ChainMultiply _ => true | _ => false end.
Definition is_chain_randomize (c : ErrorCovariance.Call) : bool :=
  match c with ErrorCovariance.ChainRandomize _ => true | _ => false end.

(** The sample of component [jj] drawn from the zero field set [zero],
    weighted once. *)
Definition sample self (jj : nat) (zero : F) : F :=
  weighted self jj (ErrorCovariance.chain_randomize (ErrorCovariance.blockChain self jj) zero).

Definition sample_calls self (jj : nat) : list ErrorCovariance.Call :=
  [ErrorCovariance.ChainRandomize jj] ++ weight_calls self jj ++ [ErrorCovariance.AddComponent jj].

(** The samples of the components [0 .. n-1], summed from [zero]. *)
Definition sum_of_samples self (n : nat) (zero : F) : F :=
  fold_left (fun acc jj => fs_add acc (sample self jj zero)) (seq 0 n) zero.

(** A hybrid configuration with the single component [cmp] and no shared
    outer blocks, and a non-hybrid one on the chain [chain]. *)
Definition hybrid_of_one (cmp : ErrorCovariance.Component T F W)
  : ErrorCovariance.Parameters T F W :=
  ErrorCovariance.mkParameters "Hybrid" None [cmp] (ErrorCovariance.covariance cmp).

End ErrorCovarianceCalls.

(** The shape of a rank-2 field: its number of levels and the length of
    every row. *)
Definition shape_of {T : Type} (f : Field T) : nat * list nat :=
  (levels f, length <$> values f).

(** Seven rows of "psi" on two levels: one more than the configuration
    [identity_correlation] has coefficients. *)
Definition seven_rows {T : Type} {ST : Scalar T} : FieldSet T :=
  {[ "psi" := mkField 2 (replicate 7 [s_one; s_add s_one s_one]) ]}.

(** The same operator on a task that holds no zonal wavenumber up to the
    truncation. *)
Definition no_coefficient {T : Type} {ST : Scalar T} : SpectralCorrelation.t T :=
  SpectralCorrelation.mk ["psi"] {[ "psi" := [identity2; identity2] ]} 1 [2; 3].

(** A registry that holds the "ID" central block, and the factory of that
    block. *)
Definition ID_factory : SaberCentralBlockFactory.t (SaberCentralBlockBase.t float) unit :=
  SaberCentralBlockFactory.mk (fun _ => ID_block).

Definition ID_registry : gmap string (SaberCentralBlockFactory.t (SaberCentralBlockBase.t float) unit) :=
  {[ "ID" := ID_factory ]}.

(** The points [(jj, ii)] inside the halo of a [mylat2] x [mylon2] array,
    in the order the two loops visit them; positions are counted from 0. *)
Definition interior (mylat2 mylon2 : nat) : list (nat * nat) :=
  jj ← seq 1 (mylat2 - 2); pair jj <$> seq 1 (mylon2 - 2).

(** The row lengths of a rank-2 array. *)
Definition row_lengths {T : Type} (var : list (list T)) : list nat := length <$> var.

(** One pass of the body of the loops of [addhalo_] at the point [p], on
    the counter and the array. *)
Definition addhalo_step {T : Type} {ST : Scalar T} (rank : list T)
    (st : nat * list (list T)) (p : nat * nat) : nat * list (list T) :=
  (S (fst st), view2_set (snd st) (fst p) (snd p) (default s_zero (rank !! fst st))).

(** A 4 x 5 array, the six values of its interior, and three levels of
    them. *)
Definition halo_array : list (list float) := replicate 4 (replicate 5 7%float).
Definition halo_rank : list float := [1; 2; 3; 4; 5; 6]%float.
Definition halo_levels : list (list float) :=
  [[1; 2; 3; 4; 5; 6]; [7; 8; 9; 10; 11; 12]; [13; 14; 15; 16; 17; 18]]%float.

(** Two time slots whose bundle has the surface pressure and the wind; the
    first one lacks the wind fields, the second one has every field. *)
Definition wind_slot_incomplete : gsi_covariance_mod.Slot :=
  gsi_covariance_mod.mkSlot {[ "ps"; "u"; "v" ]} {[ "air_pressure_at_surface" ]}.
Definition wind_slot_complete : gsi_covariance_mod.Slot :=
  gsi_covariance_mod.mkSlot {[ "ps"; "u"; "v" ]}
    {[ "air_pressure_at_surface"; "eastward_wind"; "northward_wind" ]}.

(** The sum of increments, added to [zero] one after the other as
    [mean += incr] does. *)
Definition sum_of_increments {T : Type} {ST : Scalar T} (zero : list T)
    (members : list (list T)) : list T :=
  fold_left (zip_with s_add) members zero.

(** Component [i] of each member. *)
Definition components_at {T : Type} {ST : Scalar T} (i : nat) (members : list (list T))
  : list T :=
  map (fun member => default s_zero (member !! i)) members.

(** A double that is not below +0.0: NaN, a zero, a finite number or an
    infinity without the sign bit. *)
Definition no_sign_bit (x : SpecFloat.spec_float) : bool :=
  match x with
  | SpecFloat.S754_zero s | SpecFloat.S754_infinity s | SpecFloat.S754_finite s _ _ => negb s
  | SpecFloat.S754_nan => true
  end.

(** A random draw that returns the two-level fields and counts the draws,
    and two dot products: a constant one, and the sum of the products of
    the "chi" values of the two field sets. *)
Definition counting_draw {T : Type} {ST : Scalar T} (rng : nat) (vars : unit)
  : FieldSet T * nat :=
  (two_level_fields, S rng).
Definition constant_product (fset1 fset2 : FieldSet float) (vars : unit) : float :=
  0.25%float.
Definition chi_product {T : Type} {ST : Scalar T} (fset1 fset2 : FieldSet T) (vars : unit) : T :=
  s_mul (view2 (values_of fset1 "chi") 0 0) (view2 (values_of fset2 "chi") 0 0).

(** A central block whose [multiply] sets every value of every field to
    zero. *)
Definition zeroing_block : SaberCentralBlockBase.t float :=
  SaberCentralBlockBase.mk
    (fun fset => (fun f => mkField (levels f) (map (map (fun _ => 0%float)) (values f))) <$> fset)
    "zero".

(** The block of [get_rank2_] is entered for [vname]; the field it looks
    for is there. *)
Definition block_entered (vname : string) (b : gsi_covariance_mod.Block) : bool :=
  match b with
  | gsi_covariance_mod.OneField vnames _ => existsb (fortran.eq (fortran.trim vname)) vnames
  | gsi_covariance_mod.PhisBlock => fortran.eq (fortran.trim vname) "phis"
  end.
Definition block_finds (fields : gset string) (b : gsi_covariance_mod.Block) : bool :=
  match b with
  | gsi_covariance_mod.OneField _ field => bool_decide (field ∈ fields)
  | gsi_covariance_mod.PhisBlock =>
      bool_decide ("geopotential_height_times_gravity_at_surface" ∈ fields)
      || bool_decide ("geopotential_height_at_surface" ∈ fields)
  end.

(** The sum of two fields, and of two field sets field by field (a field
    that only one of them has is kept). *)
Definition add_fields (f g : Field R) : Field R :=
  mkField (levels f) (zip_with (zip_with Rplus) (values f) (values g)).
Definition add_field_sets (a b : FieldSet R) : FieldSet R :=
  union_with (fun f g => Some (add_fields f g)) a b.

(** A second two-level "psi". *)
Definition two_level_psi_bis : FieldSet R :=
  {[ "psi" := mkField 2 (replicate 6 [3; 5]%R) ]}.

(** A field multiplied by a number, and a field set multiplied field by
    field. *)
Definition scale_field (a : R) (f : Field R) : Field R :=
  mkField (levels f) (map (map (Rmult a)) (values f)).
Definition scale_field_set (a : R) (fieldSet : FieldSet R) : FieldSet R :=
  scale_field a <$> fieldSet.

(** ** The summand of one component in [doMultiply] *)

Section ScaledContribution.
Context {T F W : Type} {ST : Scalar T} {OPS : FieldSet4DOps T F W}.
Implicit Types (self : ErrorCovariance.t T F W) (x : F).

(** The sum of [sum_of_contributions] with the summand of component [i]
    multiplied by [k]. *)
Definition sum_with_scaled_contribution self (n i : nat) (k : T) x : F :=
  fold_left
    (fun acc jj =>
       fs_add acc (if decide (jj = i) then fs_scale (contribution self jj x) k
                   else contribution self jj x))
    (seq 0 n) (fs_zero x).

(** [inner] between the two directions of the shared outer chain, when
    there is one. *)
Definition through_outer_chain self (inner : F -> F) x : F :=
  match ErrorCovariance.outerBlockChain_ self with
  | Some outer =>
      ErrorCovariance.applyOuterBlocks outer
        (inner (ErrorCovariance.applyOuterBlocksAD outer x))
  | None => inner x
  end.

End ScaledContribution.

(** A hybrid covariance on vectors of doubles with one ID component of
    scalar weight [w]. *)
Definition weighted_ID (w : float) : ErrorCovariance.Parameters float (list float) (list float) :=
  hybrid_of_one (ErrorCovariance.mkComponent (Some w) None ID_chain).

(** A time slot for the control variables ps, tv, q and sf whose fields are
    the surface pressure and the specific humidity only. *)
Definition no_temperature_slot : gsi_covariance_mod.Slot :=
  gsi_covariance_mod.mkSlot
    {[ "ps"; "tv"; "q"; "sf" ]}
    {[ "air_pressure_at_surface"; "specific_humidity" ]}.

(* ===================================================================== *)
(** * Properties *)
(* ===================================================================== *)

(** ** SpectralCorrelation::randomize *)

(** C7. Whatever the field set, [randomize] leaves by
    [eckit::FunctionalityNotSupported]; the error line written before names
    the 'ID' central block and the 'square root of spectral correlation'
    outer block as the replacement; the field set is as it was. *)
Theorem C7_randomize_not_supported {T : Type} {ST : Scalar T}
    (self : SpectralCorrelation.t T) (fieldSet : FieldSet T) :
  exists what guidance,
    SpectralCorrelation.randomize self fieldSet
      = (fieldSet, [LogError guidance], Throw (FunctionalityNotSupported what))
    /\ what = "use ID and square root of spectral correlation instead."
    /\ mentions "is not supported" guidance = true
    /\ mentions "use 'ID' central block" guidance = true
    /\ mentions "'square root of spectral correlation' outer block" guidance = true.
Proof.
  eexists _, _. split; [reflexivity |].
  split; [reflexivity |].
  repeat split; vm_compute; reflexivity.
Qed.

(** ** SaberCentralBlockFactory *)

(** C8. Registering a name that is already in the registry logs an error,
    throws [eckit::Exception] and the registry, with the first registration,
    is as before; [create] with a name that is not registered, in any
    registry, the empty one too, throws [eckit::UserError] and no maker has
    run. *)
Theorem C8_factory_registry_errors {Block Args : Type}
    (makers : gmap string (SaberCentralBlockFactory.t Block Args))
    (name id : string) (first second : SaberCentralBlockFactory.t Block Args)
    (args : Args) :
  (makers !! name = Some first ->
   let '(makers', log, result) := SaberCentralBlockFactory.new name second makers in
   result = Throw (Exception_ "Element already registered in saber::SaberCentralBlockFactory.")
   /\ log = [LogError (name ++ " already registered in saber::SaberCentralBlockFactory.")%string]
   /\ makers' = makers
   /\ makers' !! name = Some first)
  /\ (makers !! id = None ->
   let '(log, made, result) := SaberCentralBlockFactory.create makers id args in
   result = Throw (UserError "Element does not exist in saber::SaberCentralBlockFactory.")
   /\ log = [LogError (id ++ " does not exist in saber::SaberCentralBlockFactory.")%string]
   /\ made = []).
Proof.
  unfold SaberCentralBlockFactory.new, SaberCentralBlockFactory.create. split.
  - intros Hregistered. rewrite Hregistered. repeat split; done.
  - intros Hunknown. rewrite Hunknown. repeat split; done.
Qed.

Lemma C8_factory_registry_errors_witness :
  fst (fst (SaberCentralBlockFactory.new "ID"
              (SaberCentralBlockFactory.mk (fun _ : unit => ID_block))
              {[ "ID" := SaberCentralBlockFactory.mk (fun _ : unit => ID_block) ]}))
  = {[ "ID" := SaberCentralBlockFactory.mk (fun _ : unit => ID_block) ]}
  /\ SaberCentralBlockFactory.create
       (∅ : gmap string (SaberCentralBlockFactory.t (SaberCentralBlockBase.t float) unit))
       "spectral correlation" tt
     = ([LogError "spectral correlation does not exist in saber::SaberCentralBlockFactory."],
        [],
        Throw (UserError "Element does not exist in saber::SaberCentralBlockFactory.")).
Proof.
  split.
  - pose proof (proj1 (C8_factory_registry_errors
                  ({[ "ID" := SaberCentralBlockFactory.mk (fun _ : unit => ID_block) ]})
                  "ID" "ID"
                  (SaberCentralBlockFactory.mk (fun _ : unit => ID_block))
                  (SaberCentralBlockFactory.mk (fun _ : unit => ID_block)) tt)
                  eq_refl) as H.
    destruct (SaberCentralBlockFactory.new _ _ _) as [[makers' log] result].
    apply H.
  - pose proof (proj2 (C8_factory_registry_errors
                  (∅ : gmap string (SaberCentralBlockFactory.t (SaberCentralBlockBase.t float)
                                      unit))
                  "ID" "spectral correlation"
                  (SaberCentralBlockFactory.mk (fun _ : unit => ID_block))
                  (SaberCentralBlockFactory.mk (fun _ : unit => ID_block)) tt)
                  eq_refl) as H.
    destruct (SaberCentralBlockFactory.create _ _ _) as [[log made] result].
    destruct H as (-> & -> & ->). reflexivity.
Defined.

(** Registering under a fresh name succeeds and a later [create] runs that
    maker. *)
Lemma factory_register_then_create {Block Args : Type}
    (makers : gmap string (SaberCentralBlockFactory.t Block Args))
    (name : string) (this : SaberCentralBlockFactory.t Block Args) (args : Args) :
  makers !! name = None ->
  SaberCentralBlockFactory.new name this makers = (<[name := this]> makers, [], Ok tt)
  /\ SaberCentralBlockFactory.create (<[name := this]> makers) name args
     = ([], [name], Ok (SaberCentralBlockFactory.make this args)).
Proof.
  intros Hnone. unfold SaberCentralBlockFactory.new, SaberCentralBlockFactory.create.
  rewrite Hnone, lookup_insert_eq. done.
Qed.

(** ** SaberCentralBlockBase::adjointTest *)

Section AdjointTest.
Context {T : Type} {ST : Scalar T} {Vars Rng : Type}.
Variable createRandomFieldSet : Rng -> Vars -> FieldSet T * Rng.
Variable dotProductFieldSets : FieldSet T -> FieldSet T -> Vars -> T.

Let adjointTest := SaberCentralBlockBase.adjointTest createRandomFieldSet dotProductFieldSets.

(** C2. With [x] and [y] the two field sets drawn one after the other,
    [dp1] is the dot product of [multiply x] with the saved [y] and [dp2]
    that of [multiply y] with the saved [x]; the test returns exactly when
    [|dp1 - dp2| / |0.5 (dp1 + dp2)|] is below the tolerance and throws
    [eckit::Exception] otherwise. *)
Theorem C2_adjointTest_self_adjointness
    (self : SaberCentralBlockBase.t T) (vars : Vars) (adjointTolerance : T) (rng : Rng) :
  let x := fst (createRandomFieldSet rng vars) in
  let y := fst (createRandomFieldSet (snd (createRandomFieldSet rng vars)) vars) in
  let A := SaberCentralBlockBase.multiply self in
  let dp1 := dotProductFieldSets (A x) y vars in
  let dp2 := dotProductFieldSets (A y) x vars in
  let ratio := s_div (s_abs (s_sub dp1 dp2)) (s_abs (s_mul s_half (s_add dp1 dp2))) in
  let result := snd (adjointTest self vars adjointTolerance rng) in
  (result = Ok tt <-> s_ltb ratio adjointTolerance = true)
  /\ (result = Throw (Exception_ ("Adjoint test failure for block "
                                   ++ SaberCentralBlockBase.blockName self))
      <-> s_ltb ratio adjointTolerance = false).
Proof.
  intros x y A dp1 dp2 ratio result.
  subst result adjointTest. unfold SaberCentralBlockBase.adjointTest.
  destruct (createRandomFieldSet rng vars) as [fset1 rng1] eqn:E1.
  destruct (createRandomFieldSet rng1 vars) as [fset2 rng2] eqn:E2.
  assert (Hx : x = fset1) by (subst x; reflexivity).
  assert (Hy : y = fset2) by (subst y; simpl; rewrite E2; reflexivity).
  unfold SaberCentralBlockBase.relative_difference.
  fold A. rewrite <- Hx, <- Hy. fold dp1 dp2 ratio.
  destruct (s_ltb ratio adjointTolerance); simpl; split; split; intros; congruence.
Qed.

End AdjointTest.

(** ** SpectralCorrelation::multiply *)

Lemma fold_left_concat {A B : Type} (f : A -> B -> A) (ls : list (list B)) (a : A) :
  fold_left f (concat ls) a = fold_left (fun a l => fold_left f l a) ls a.
Proof.
  revert a. induction ls as [|l ls IH]; intros a; simpl; [reflexivity |].
  rewrite fold_left_app. apply IH.
Qed.

Lemma fold_left_pointwise {A B : Type} (f g : A -> B -> A) (l : list B) (a : A) :
  (forall a b, f a b = g a b) -> fold_left f l a = fold_left g l a.
Proof.
  intros Hfg. revert a. induction l as [|b l IH]; intros a; simpl; [reflexivity |].
  rewrite Hfg. apply IH.
Qed.

Lemma map_fmap {A B : Type} (f : A -> B) (l : list A) : map f l = f <$> l.
Proof. reflexivity. Qed.

Lemma map_lookup_seq {A : Type} (d : A) (row : list A) :
  map (fun jl => default d (row !! jl)) (seq 0 (length row)) = row.
Proof.
  rewrite map_fmap. apply list_eq; intros i. rewrite list_lookup_fmap.
  destruct (decide (i < length row)) as [Hlt | Hge].
  - rewrite lookup_seq_lt by done. simpl.
    destruct (lookup_lt_is_Some_2 row i Hlt) as [x Hx]. by rewrite Hx.
  - rewrite lookup_seq_ge by lia. simpl. symmetry. apply lookup_ge_None_2. lia.
Qed.

(** The write-back loop on one row. *)
Lemma write_back_row {A : Type} (d : A) (c2 row : list A) (k : nat) :
  k <= length row -> length c2 = length row ->
  fold_left (fun r jl => <[jl := default d (c2 !! jl)]> r) (seq 0 k) row
  = take k c2 ++ drop k row.
Proof.
  intros Hk Hlen. induction k as [|k IH]; [by rewrite drop_0 |].
  rewrite seq_S, fold_left_app, IH by lia. simpl.
  destruct (lookup_lt_is_Some_2 c2 k) as [x Hx]; [lia |].
  destruct (lookup_lt_is_Some_2 row k) as [y Hy]; [lia |].
  rewrite Hx. simpl. rewrite (take_S_r _ _ _ Hx), (drop_S _ _ _ Hy).
  rewrite insert_app_r_alt by (rewrite length_take; lia).
  rewrite length_take, Nat.min_l by lia. rewrite Nat.sub_diag. simpl.
  by rewrite <- app_assoc.
Qed.

Section SpectralCorrelationProofs.
Context {T : Type} {ST : Scalar T}.
Implicit Types (spf : list (list T)) (row col : list T) (vertCov : Array3 T).

(** The write-back loop changes row [i] only. *)
Lemma fold_view2_set spf (i : nat) (v : nat -> T) (js : list nat) :
  fold_left (fun a jl => view2_set a i jl (v jl)) js spf
  = alter (fun row => fold_left (fun r jl => <[jl := v jl]> r) js row) i spf.
Proof.
  revert spf. induction js as [|j js IH]; intros spf; simpl.
  - symmetry. by apply list_alter_id.
  - rewrite IH. unfold view2_set. rewrite list_alter_alter_eq. reflexivity.
Qed.

Lemma view3_default vertCov (n r c : nat) :
  view3 vertCov n r c = view2 (default [] (vertCov !! n)) r c.
Proof. unfold view3. destruct (vertCov !! n); reflexivity. Qed.

Lemma length_normalized_convolution (M : list (list T)) (nrm : T) col :
  length (normalized_convolution M nrm col) = length col.
Proof. unfold normalized_convolution. by rewrite length_map, length_seq. Qed.

Lemma coefficient_lookup vertCov (levels n1 i j : nat) spf :
  Forall (fun row => length row = levels) spf ->
  snd (SpectralCorrelation.coefficient vertCov levels n1 (i, spf)) !! j
  = if decide (j = i) then convolved vertCov n1 <$> spf !! j else spf !! j.
Proof.
  intros Hwf. unfold SpectralCorrelation.coefficient. cbn [snd].
  rewrite fold_view2_set.
  destruct (decide (j = i)) as [-> | Hne];
    [| by rewrite list_lookup_alter_ne by done].
  rewrite list_lookup_alter_eq. destruct (spf !! i) as [row|] eqn:Hrow; [| reflexivity].
  simpl. f_equal.
  assert (Hlen : length row = levels)
    by (eapply (proj1 (Forall_lookup _ _) Hwf); eassumption).
  subst levels.
  assert (Hcol : map (fun jl => view2 spf i jl) (seq 0 (length row)) = row).
  { unfold view2. rewrite Hrow. apply map_lookup_seq. }
  rewrite Hcol.
  rewrite write_back_row by (rewrite ?length_map, ?length_seq; lia).
  rewrite drop_all, app_nil_r.
  rewrite firstn_all2 by (rewrite length_map, length_seq; lia).
  unfold convolved, normalized_convolution.
  apply map_ext; intros r. unfold SpectralCorrelation.col2_entry.
  apply fold_left_pointwise; intros acc c. by rewrite view3_default.
Qed.

Lemma coefficient_fst vertCov (levels n1 i : nat) spf :
  fst (SpectralCorrelation.coefficient vertCov levels n1 (i, spf)) = S i.
Proof. reflexivity. Qed.

Lemma coefficient_shape vertCov (levels n1 i : nat) spf :
  Forall (fun row => length row = levels) spf ->
  Forall (fun row => length row = levels)
         (snd (SpectralCorrelation.coefficient vertCov levels n1 (i, spf))).
Proof.
  intros Hwf. apply Forall_lookup; intros j row Hj.
  rewrite coefficient_lookup in Hj by done.
  destruct (decide (j = i)) as [-> | Hne].
  - destruct (spf !! i) as [row0|] eqn:Hrow; simplify_eq/=.
    unfold convolved. rewrite length_normalized_convolution.
    eapply (proj1 (Forall_lookup _ _) Hwf); eassumption.
  - eapply (proj1 (Forall_lookup _ _) Hwf); eassumption.
Qed.

(** A run of the loop body over the coefficients [i0], [i0 + 1], ... whose
    total wavenumbers are [ns]. *)
Lemma coefficients_lookup vertCov (levels : nat) (ns : list nat) :
  forall (i0 : nat) spf,
    Forall (fun row => length row = levels) spf ->
    let st := fold_left (fun st n1 => SpectralCorrelation.coefficient vertCov levels n1 st)
                        ns (i0, spf) in
    fst st = i0 + length ns
    /\ forall j, snd st !! j
         = if decide (i0 <= j) then
             match ns !! (j - i0) with
             | Some n1 => convolved vertCov n1 <$> spf !! j
             | None => spf !! j
             end
           else spf !! j.
Proof.
  induction ns as [|n1 ns IH]; intros i0 spf Hwf; cbv zeta; cbn [fold_left length fst snd].
  - split; [lia |]. intros j. by destruct (decide (i0 <= j)).
  - pose proof (coefficient_shape vertCov levels n1 i0 spf Hwf) as Hwf1.
    pose proof (fun j => coefficient_lookup vertCov levels n1 i0 j spf Hwf) as Hstep.
    destruct (SpectralCorrelation.coefficient vertCov levels n1 (i0, spf))
      as [i1 spf1] eqn:Hco.
    assert (i1 = S i0) as -> by (apply (f_equal fst) in Hco; exact (eq_sym Hco)).
    cbn [snd] in Hwf1, Hstep.
    destruct (IH (S i0) spf1 Hwf1) as [Hfst Hsnd]. split; [lia |].
    intros j. rewrite Hsnd, !Hstep.
    repeat case_decide; try lia; try reflexivity.
    + replace (j - i0) with (S (j - S i0)) by lia. reflexivity.
    + subst j. by rewrite Nat.sub_diag.
Qed.

(** The three nested loops visit the coefficients in index order. *)
Lemma n1_loop_flat vertCov (levels : nat) (l : list nat) (st : nat * list (list T)) :
  fold_left (fun st n1 => SpectralCorrelation.img_loop vertCov levels n1 st) l st
  = fold_left (fun st n1 => SpectralCorrelation.coefficient vertCov levels n1 st)
              (concat (map (fun n1 => [n1; n1]) l)) st.
Proof. revert st. induction l as [|n1 l IH]; intros st; simpl; [reflexivity | apply IH]. Qed.

Lemma jm_loop_flat vertCov (levels N : nat) (zw : list nat) (st : nat * list (list T)) :
  SpectralCorrelation.jm_loop vertCov levels N zw st
  = fold_left (fun st n1 => SpectralCorrelation.coefficient vertCov levels n1 st)
              (wavenumbers N zw) st.
Proof.
  unfold SpectralCorrelation.jm_loop, wavenumbers.
  revert st. induction zw as [|m1 zw IH]; intros st; simpl; [reflexivity |].
  rewrite fold_left_app, <- IH. f_equal.
  unfold SpectralCorrelation.n1_loop. apply n1_loop_flat.
Qed.

(** Every row of the field after the loops, in terms of the row before. *)
Lemma multiply_field_lookup (self : SpectralCorrelation.t T) vertCov (f : Field T) (j : nat) :
  well_shaped f ->
  values (SpectralCorrelation.multiply_field self vertCov f) !! j
  = match wavenumbers (SpectralCorrelation.truncation self)
                      (SpectralCorrelation.zonal_wavenumbers self) !! j with
    | Some n1 => convolved vertCov n1 <$> values f !! j
    | None => values f !! j
    end.
Proof.
  intros Hwf. unfold SpectralCorrelation.multiply_field. cbn [values].
  rewrite jm_loop_flat.
  destruct (coefficients_lookup vertCov (levels f)
              (wavenumbers (SpectralCorrelation.truncation self)
                           (SpectralCorrelation.zonal_wavenumbers self))
              0 (values f) Hwf) as [_ Hsnd].
  rewrite Hsnd, decide_True by lia. by rewrite Nat.sub_0_r.
Qed.

End SpectralCorrelationProofs.

(** The index of a coefficient holds its total wavenumber. *)
Lemma doubled_lookup (l : list nat) (k img : nat) :
  img < 2 -> concat (map (fun n1 => [n1; n1]) l) !! (2 * k + img) = l !! k.
Proof.
  intros Himg. revert k. induction l as [|x l IH]; intros k; cbn [map concat app].
  - by rewrite !lookup_nil.
  - destruct k as [|k].
    + destruct img as [|[|img]]; [reflexivity | reflexivity | lia].
    + replace (2 * S k + img) with (S (S (2 * k + img))) by lia. exact (IH k).
Qed.

Lemma length_doubled (l : list nat) :
  length (concat (map (fun n1 => [n1; n1]) l)) = 2 * length l.
Proof. induction l as [|x l IH]; simpl; [reflexivity | rewrite IH; lia]. Qed.

Lemma length_wavenumbers (N : nat) (zw : list nat) :
  length (wavenumbers N zw) = sum_list (coefficients_of N <$> zw).
Proof.
  unfold wavenumbers. induction zw as [|m zw IH]; simpl; [reflexivity |].
  rewrite length_app, IH, length_doubled, length_seq. reflexivity.
Qed.

Lemma wavenumbers_app (N : nat) (l1 l2 : list nat) :
  wavenumbers N (l1 ++ l2) = wavenumbers N l1 ++ wavenumbers N l2.
Proof. unfold wavenumbers. by rewrite map_app, concat_app. Qed.

Lemma wavenumbers_lookup (N : nat) (zw : list nat) (jm m n img : nat) :
  zw !! jm = Some m -> m <= n <= N -> img < 2 ->
  wavenumbers N zw !! coefficient_index N zw jm n img = Some n.
Proof.
  intros Hjm Hn Himg. unfold coefficient_index. rewrite Hjm.
  change (default 0 (Some m)) with m.
  assert (Hsplit : wavenumbers N zw
                   = wavenumbers N (take jm zw)
                     ++ (concat (map (fun n1 => [n1; n1]) (seq m (S N - m)))
                         ++ wavenumbers N (drop (S jm) zw))).
  { transitivity (wavenumbers N (take jm zw ++ m :: drop (S jm) zw));
      [by rewrite take_drop_middle | by rewrite wavenumbers_app]. }
  rewrite Hsplit, <- Nat.add_assoc, <- length_wavenumbers.
  rewrite lookup_app_r by lia.
  replace (length (wavenumbers N (take jm zw)) + (2 * (n - m) + img)
           - length (wavenumbers N (take jm zw))) with (2 * (n - m) + img) by lia.
  rewrite lookup_app_l by (rewrite length_doubled, length_seq; lia).
  rewrite doubled_lookup by done. rewrite lookup_seq_lt by lia. f_equal. lia.
Qed.

Section SpectralCorrelationMultiply.
Context {T : Type} {ST : Scalar T}.
Implicit Types (self : SpectralCorrelation.t T) (fieldSet : FieldSet T).

(** Fields that are not among the processed variables are not touched. *)
Lemma multiply_vars_frame self (vars : list string) fieldSet (name : string) :
  name ∉ vars ->
  fst (SpectralCorrelation.multiply_vars self vars fieldSet) !! name = fieldSet !! name.
Proof.
  revert fieldSet. induction vars as [|var vars IH]; intros fieldSet Hnot; simpl;
    [reflexivity |].
  apply not_elem_of_cons in Hnot as [Hne Hnot].
  destruct (fieldSet !! var) as [f|]; [| reflexivity].
  destruct (SpectralCorrelation.spectralVerticalCorrelations_ self !! var) as [vertCov|];
    [| reflexivity].
  rewrite IH by done. by rewrite lookup_insert_ne.
Qed.

(** No field is added or removed. *)
Lemma multiply_vars_dom self (vars : list string) fieldSet :
  dom (fst (SpectralCorrelation.multiply_vars self vars fieldSet)) = dom fieldSet.
Proof.
  revert fieldSet. induction vars as [|var vars IH]; intros fieldSet; simpl;
    [reflexivity |].
  destruct (fieldSet !! var) as [f|] eqn:Hf; [| reflexivity].
  destruct (SpectralCorrelation.spectralVerticalCorrelations_ self !! var) as [vertCov|];
    [| reflexivity].
  rewrite IH, dom_insert_L.
  apply subseteq_union_1_L, singleton_subseteq_l, elem_of_dom. eauto.
Qed.

(** When every processed variable has its field and its correlations,
    the loop returns, and a variable processed once holds the result of
    the loop body on its field. *)
Lemma multiply_vars_lookup self (vars : list string) fieldSet :
  NoDup vars ->
  (forall v, v ∈ vars ->
     is_Some (fieldSet !! v)
     /\ is_Some (SpectralCorrelation.spectralVerticalCorrelations_ self !! v)) ->
  snd (SpectralCorrelation.multiply_vars self vars fieldSet) = Ok tt
  /\ forall var f vertCov,
       var ∈ vars -> fieldSet !! var = Some f ->
       SpectralCorrelation.spectralVerticalCorrelations_ self !! var = Some vertCov ->
       fst (SpectralCorrelation.multiply_vars self vars fieldSet) !! var
       = Some (SpectralCorrelation.multiply_field self vertCov f).
Proof.
  revert fieldSet. induction vars as [|v vars IH]; intros fieldSet Hnodup Hpresent; simpl.
  - split; [reflexivity |]. intros var f vertCov Hin. by apply elem_of_nil in Hin.
  - apply NoDup_cons in Hnodup as [Hv Hnodup].
    destruct (Hpresent v) as [[fv Hfv] [cv Hcv]]; [by left |].
    rewrite Hfv, Hcv.
    set (fieldSet' := <[v := SpectralCorrelation.multiply_field self cv fv]> fieldSet).
    assert (Hpresent' : forall w, w ∈ vars ->
              is_Some (fieldSet' !! w)
              /\ is_Some (SpectralCorrelation.spectralVerticalCorrelations_ self !! w)).
    { intros w Hw. destruct (Hpresent w) as [Hfw Hcw]; [by right |]. split; [| done].
      unfold fieldSet'. rewrite lookup_insert_ne; [done |]. intros ->. done. }
    destruct (IH fieldSet' Hnodup Hpresent') as [Hok Hlook]. split; [done |].
    intros var f vertCov Hin Hf Hc. apply elem_of_cons in Hin as [-> | Hin].
    + rewrite multiply_vars_frame by done. unfold fieldSet'.
      rewrite lookup_insert_eq. congruence.
    + apply Hlook; [done | | done]. unfold fieldSet'.
      rewrite lookup_insert_ne; [done |]. intros ->. done.
Qed.

End SpectralCorrelationMultiply.

(** C10. A field whose name is not among the active variables is the same
    field (levels and values) after [multiply], and the field set holds the
    same names as before. *)
Theorem C10_multiply_leaves_inactive_fields {T : Type} {ST : Scalar T}
    (self : SpectralCorrelation.t T) (fieldSet : FieldSet T) (name : string) :
  name ∉ SpectralCorrelation.activeVars_ self ->
  fst (SpectralCorrelation.multiply self fieldSet) !! name = fieldSet !! name
  /\ dom (fst (SpectralCorrelation.multiply self fieldSet)) = dom fieldSet.
Proof.
  intros Hname. split; [by apply multiply_vars_frame | apply multiply_vars_dom].
Qed.

Lemma C10_multiply_leaves_inactive_fields_witness :
  fst (SpectralCorrelation.multiply (T := float) identity_correlation two_level_fields) !! "chi"
  = two_level_fields !! "chi"
  /\ dom (fst (SpectralCorrelation.multiply (T := float) identity_correlation two_level_fields))
     = dom (two_level_fields (T := float)).
Proof.
  apply (C10_multiply_leaves_inactive_fields (T := float)
           identity_correlation two_level_fields "chi").
  apply not_elem_of_cons. split; [discriminate | apply not_elem_of_nil].
Defined.

(** The field of an active variable after [multiply], coefficient by
    coefficient. *)
Lemma multiply_coefficient {T : Type} {ST : Scalar T}
    (self : SpectralCorrelation.t T) (fieldSet : FieldSet T) (var : string)
    (f : Field T) (vertCov : Array3 T) (jm m n img : nat) (col : list T) :
  NoDup (SpectralCorrelation.activeVars_ self) ->
  (forall v, v ∈ SpectralCorrelation.activeVars_ self ->
     is_Some (fieldSet !! v)
     /\ is_Some (SpectralCorrelation.spectralVerticalCorrelations_ self !! v)) ->
  var ∈ SpectralCorrelation.activeVars_ self ->
  fieldSet !! var = Some f ->
  SpectralCorrelation.spectralVerticalCorrelations_ self !! var = Some vertCov ->
  well_shaped f ->
  SpectralCorrelation.zonal_wavenumbers self !! jm = Some m ->
  m <= n <= SpectralCorrelation.truncation self ->
  img < 2 ->
  values f !! coefficient_index (SpectralCorrelation.truncation self)
                                (SpectralCorrelation.zonal_wavenumbers self) jm n img
  = Some col ->
  snd (SpectralCorrelation.multiply self fieldSet) = Ok tt
  /\ exists f',
       fst (SpectralCorrelation.multiply self fieldSet) !! var = Some f'
       /\ levels f' = levels f
       /\ values f' !! coefficient_index (SpectralCorrelation.truncation self)
                                          (SpectralCorrelation.zonal_wavenumbers self) jm n img
          = Some (convolved vertCov n col).
Proof.
  intros Hnodup Hpresent Hvar Hf Hc Hwf Hjm Hn Himg Hcol.
  destruct (multiply_vars_lookup self _ fieldSet Hnodup Hpresent) as [Hok Hlook].
  split; [exact Hok |].
  exists (SpectralCorrelation.multiply_field self vertCov f).
  split; [by apply Hlook |]. split; [reflexivity |].
  rewrite multiply_field_lookup by done.
  rewrite (wavenumbers_lookup _ _ jm m n img Hjm Hn Himg). by rewrite Hcol.
Qed.

(** C3. For an active variable, a zonal wavenumber [m], a total wavenumber
    [n] with [m <= n <= truncation] and a component [img] (real or
    imaginary), [multiply] replaces the column of levels of that coefficient
    by its convolution with the matrix [M] stored for [n], every product
    divided by [(2n+1)] times the number of matrices stored. *)
Theorem C3_multiply_convolves_each_coefficient {T : Type} {ST : Scalar T}
    (self : SpectralCorrelation.t T) (fieldSet : FieldSet T) (var : string)
    (f : Field T) (vertCov : Array3 T) (M : list (list T))
    (jm m n img : nat) (col : list T) :
  let N := SpectralCorrelation.truncation self in
  let zw := SpectralCorrelation.zonal_wavenumbers self in
  NoDup (SpectralCorrelation.activeVars_ self) ->
  (forall v, v ∈ SpectralCorrelation.activeVars_ self ->
     is_Some (fieldSet !! v)
     /\ is_Some (SpectralCorrelation.spectralVerticalCorrelations_ self !! v)) ->
  var ∈ SpectralCorrelation.activeVars_ self ->
  fieldSet !! var = Some f ->
  SpectralCorrelation.spectralVerticalCorrelations_ self !! var = Some vertCov ->
  well_shaped f ->
  zw !! jm = Some m ->
  m <= n <= N ->
  img < 2 ->
  vertCov !! n = Some M ->
  values f !! coefficient_index N zw jm n img = Some col ->
  snd (SpectralCorrelation.multiply self fieldSet) = Ok tt
  /\ exists f',
       fst (SpectralCorrelation.multiply self fieldSet) !! var = Some f'
       /\ levels f' = levels f
       /\ values f' !! coefficient_index N zw jm n img
          = Some (normalized_convolution M (s_of_nat ((2 * n + 1) * length vertCov)) col).
Proof.
  intros N zw Hnodup Hpresent Hvar Hf Hc Hwf Hjm Hn Himg HM Hcol.
  destruct (multiply_coefficient self fieldSet var f vertCov jm m n img col)
    as [Hok (f' & Hf' & Hlev & Hval)]; try done.
  split; [exact Hok |]. exists f'. split; [exact Hf' |]. split; [exact Hlev |].
  subst N zw. rewrite Hval. unfold convolved. by rewrite HM.
Qed.

Lemma identity_correlation_present {T : Type} {ST : Scalar T} (v : string) :
  v ∈ SpectralCorrelation.activeVars_ (T := T) identity_correlation ->
  is_Some (two_level_psi (T := T) !! v)
  /\ is_Some (SpectralCorrelation.spectralVerticalCorrelations_ (T := T)
                identity_correlation !! v).
Proof.
  intros Hv. apply list_elem_of_singleton in Hv as ->. split; eexists; reflexivity.
Qed.

Lemma identity_correlation_well_shaped {T : Type} {ST : Scalar T} :
  well_shaped (T := T) (mkField 2 (replicate 6 [s_one; s_add s_one s_one])).
Proof. apply Forall_replicate. reflexivity. Qed.

Lemma C3_multiply_convolves_each_coefficient_witness :
  snd (SpectralCorrelation.multiply (T := float) identity_correlation two_level_psi) = Ok tt
  /\ exists f',
       fst (SpectralCorrelation.multiply (T := float) identity_correlation two_level_psi)
         !! "psi" = Some f'
       /\ levels f' = 2
       /\ values f' !! 5
          = Some (normalized_convolution identity2 (s_of_nat ((2 * 1 + 1) * 2))
                                         [1; 2]%float).
Proof.
  apply (C3_multiply_convolves_each_coefficient (T := float)
           identity_correlation two_level_psi "psi"
           (mkField 2 (replicate 6 [s_one; s_add s_one s_one]))
           [identity2; identity2] identity2 1 1 1 1 [1; 2]%float).
  - apply NoDup_singleton.
  - apply identity_correlation_present.
  - apply list_elem_of_singleton. reflexivity.
  - reflexivity.
  - reflexivity.
  - apply identity_correlation_well_shaped.
  - reflexivity.
  - simpl. lia.
  - lia.
  - reflexivity.
  - reflexivity.
Defined.

(** C4, as stated, fails on doubles: with the identity stored for the total
    wavenumbers 0 and 1 (two matrices), the coefficients of total wavenumber
    0 are halved and those of total wavenumber 1 divided by 6
    ([0x1.5555555555555p-3] is the double nearest to 1/6). *)
Lemma C4_identity_correlation_changes_fields :
  values_of (fst (SpectralCorrelation.multiply (T := float)
                    identity_correlation two_level_psi)) "psi"
  = [ [0.5; 1]; [0.5; 1];
      [0x1.5555555555555p-3; 0x1.5555555555555p-2];
      [0x1.5555555555555p-3; 0x1.5555555555555p-2];
      [0x1.5555555555555p-3; 0x1.5555555555555p-2];
      [0x1.5555555555555p-3; 0x1.5555555555555p-2] ]%float
  /\ values_of (two_level_psi (T := float)) "psi"
     = [ [1; 2]; [1; 2]; [1; 2]; [1; 2]; [1; 2]; [1; 2] ]%float
  /\ numerically_equal
       (values_of (fst (SpectralCorrelation.multiply (T := float)
                          identity_correlation two_level_psi)) "psi")
       (values_of (two_level_psi (T := float)) "psi")
     = false.
Proof. vm_compute. repeat split; reflexivity. Qed.

(** C4, amended. In exact arithmetic, with one active variable on two levels
    and the identity stored for every total wavenumber up to the truncation,
    [multiply] divides the two entries of each coefficient of total
    wavenumber [n] by [(2n+1)] times the number of matrices stored; the
    coefficient is left as it was exactly when both entries are zero or that
    product is 1. *)
Theorem C4_identity_correlation_divides_by_norm
    (self : SpectralCorrelation.t R) (fieldSet : FieldSet R) (var : string)
    (f : Field R) (vertCov : Array3 R) (jm m n img : nat) (a b : R) :
  let N := SpectralCorrelation.truncation self in
  let zw := SpectralCorrelation.zonal_wavenumbers self in
  SpectralCorrelation.activeVars_ self = [var] ->
  fieldSet !! var = Some f ->
  SpectralCorrelation.spectralVerticalCorrelations_ self !! var = Some vertCov ->
  levels f = 2 ->
  well_shaped f ->
  (forall k, k <= N -> vertCov !! k = Some identity2) ->
  zw !! jm = Some m ->
  m <= n <= N ->
  img < 2 ->
  values f !! coefficient_index N zw jm n img = Some [a; b] ->
  snd (SpectralCorrelation.multiply self fieldSet) = Ok tt
  /\ exists f',
       fst (SpectralCorrelation.multiply self fieldSet) !! var = Some f'
       /\ levels f' = 2
       /\ values f' !! coefficient_index N zw jm n img
          = Some [ (a / INR ((2 * n + 1) * length vertCov))%R;
                   (b / INR ((2 * n + 1) * length vertCov))%R ]
       /\ (values f' !! coefficient_index N zw jm n img
           = values f !! coefficient_index N zw jm n img
           <-> (a = 0 /\ b = 0)%R \/ INR ((2 * n + 1) * length vertCov) = 1%R).
Proof.
  intros N zw Hactive Hf Hc Hlev Hwf Hid Hjm Hn Himg Hcol.
  destruct (multiply_coefficient self fieldSet var f vertCov jm m n img [a; b])
    as [Hok (f' & Hf' & Hlev' & Hval)]; try done.
  - rewrite Hactive. apply NoDup_singleton.
  - intros v. rewrite Hactive. intros Hv. apply list_elem_of_singleton in Hv as ->.
    rewrite Hf, Hc. split; eexists; reflexivity.
  - rewrite Hactive. by apply list_elem_of_singleton.
  - assert (Hdiv : values f' !! coefficient_index N zw jm n img
                   = Some [ (a / INR ((2 * n + 1) * length vertCov))%R;
                            (b / INR ((2 * n + 1) * length vertCov))%R ]).
    { subst N zw. rewrite Hval. unfold convolved. rewrite (Hid n) by lia.
      unfold normalized_convolution, SpectralCorrelation.norm, shape0. simpl.
      change (view2 (T := R) identity2 0 0) with 1%R.
      change (view2 (T := R) identity2 0 1) with 0%R.
      change (view2 (T := R) identity2 1 0) with 0%R.
      change (view2 (T := R) identity2 1 1) with 1%R.
      unfold Rdiv. do 2 f_equal; [ring | f_equal; ring]. }
    split; [exact Hok |]. exists f'. split; [exact Hf' |]. split; [congruence |].
    split; [exact Hdiv |]. rewrite Hdiv. subst N zw. rewrite Hcol.
    set (d := INR ((2 * n + 1) * length vertCov)).
    assert (Hd : (0 < d)%R).
    { subst d. apply lt_0_INR.
      assert (Hlen : n < length vertCov) by (apply (lookup_lt_Some _ _ _ (Hid n (proj2 Hn)))).
      nia. }
    assert (Hfix : forall v : R, (v / d)%R = v <-> v = 0%R \/ d = 1%R).
    { intros v. split.
      - intros Hv. destruct (Req_dec d 1) as [Hone | Hone]; [by right | left].
        assert (Hvd : (v * (d - 1))%R = 0%R).
        { assert (H1 : (v / d * d)%R = v) by (field; lra).
          rewrite Hv in H1. replace (v * (d - 1))%R with (v * d - v)%R by ring. lra. }
        apply Rmult_integral in Hvd as [Hv0 | Hd1]; [exact Hv0 | lra].
      - intros [-> | ->]; [unfold Rdiv; ring | field]. }
    split.
    + intros Heq. injection Heq as Ha Hb.
      apply Hfix in Ha, Hb. destruct Ha as [Ha | Ha]; [| by right].
      destruct Hb as [Hb | Hb]; [by left | by right].
    + intros [[-> ->] | Hone].
      * do 2 f_equal; [| f_equal]; unfold Rdiv; ring.
      * do 2 f_equal; [| f_equal]; by apply Hfix; right.
Qed.

Lemma C4_identity_correlation_divides_by_norm_witness :
  snd (SpectralCorrelation.multiply (T := R) identity_correlation two_level_psi) = Ok tt
  /\ exists f',
       fst (SpectralCorrelation.multiply (T := R) identity_correlation two_level_psi)
         !! "psi" = Some f'
       /\ levels f' = 2
       /\ values f' !! 4 = Some [ (1 / INR ((2 * 1 + 1) * 2))%R;
                                  ((1 + 1) / INR ((2 * 1 + 1) * 2))%R ]
       /\ (values f' !! 4 = values_of (two_level_psi (T := R)) "psi" !! 4
           <-> (1 = 0 /\ 1 + 1 = 0)%R \/ INR ((2 * 1 + 1) * 2) = 1%R).
Proof.
  apply (C4_identity_correlation_divides_by_norm
           identity_correlation two_level_psi "psi"
           (mkField 2 (replicate 6 [1%R; (1 + 1)%R]))
           [identity2; identity2] 1 1 1 0 1%R (1 + 1)%R).
  - reflexivity.
  - reflexivity.
  - reflexivity.
  - reflexivity.
  - exact (identity_correlation_well_shaped (T := R)).
  - intros [|[|k]] Hk; [reflexivity | reflexivity | simpl in Hk; lia].
  - reflexivity.
  - simpl. lia.
  - lia.
  - reflexivity.
Defined.

(** ** ErrorCovariance::doMultiply *)

Section ErrorCovarianceProofs.
Context {T F W : Type} {ST : Scalar T} {OPS : FieldSet4DOps T F W}.
Implicit Types (self : ErrorCovariance.t T F W) (x dxo : F).

Lemma apply_weight_spec self (jj : nat) x :
  ErrorCovariance.apply_weight self jj x = (weighted self jj x, weight_calls self jj).
Proof.
  unfold ErrorCovariance.apply_weight, weighted, weight_calls, ErrorCovariance.bind.
  destruct (s_eqb (ErrorCovariance.weightSqrt self jj) s_one);
    destruct (w_empty (ErrorCovariance.fieldWeightSqrt self jj)); reflexivity.
Qed.

Lemma multiply_component_spec self x dxo (jj : nat) :
  ErrorCovariance.multiply_component self x dxo jj
  = (fs_add dxo (contribution self jj x), component_calls self jj).
Proof.
  unfold ErrorCovariance.multiply_component, contribution, component_calls.
  unfold ErrorCovariance.bind at 1. rewrite apply_weight_spec. cbn [fst snd].
  unfold ErrorCovariance.bind at 1. cbn [ErrorCovariance.call fst snd].
  unfold ErrorCovariance.bind. rewrite apply_weight_spec. cbn [ErrorCovariance.call fst snd].
  reflexivity.
Qed.

(** The loop over the components, from any accumulator and trace. *)
Lemma multiply_loop_spec self x (js : list nat) :
  forall dxo (calls : list ErrorCovariance.Call),
    fold_left (fun acc jj =>
                 ErrorCovariance.bind acc
                   (fun dxo => ErrorCovariance.multiply_component self x dxo jj))
              js (dxo, calls)
    = (fold_left (fun acc jj => fs_add acc (contribution self jj x)) js dxo,
       calls ++ concat (map (component_calls self) js)).
Proof.
  induction js as [|jj js IH]; intros dxo calls; cbn [fold_left map concat].
  - by rewrite app_nil_r.
  - unfold ErrorCovariance.bind at 2. rewrite multiply_component_spec. cbn [fst snd].
    rewrite IH. by rewrite <- app_assoc.
Qed.

Lemma for_each_multiply_spec self x (n : nat) dxo :
  ErrorCovariance.for_each (ErrorCovariance.multiply_component self x) n dxo
  = (fold_left (fun acc jj => fs_add acc (contribution self jj x)) (seq 0 n) dxo,
     concat (map (component_calls self) (seq 0 n))).
Proof. unfold ErrorCovariance.for_each, ErrorCovariance.ret. apply multiply_loop_spec. Qed.

(** [doMultiply] in closed form. *)
Lemma doMultiply_spec self x :
  ErrorCovariance.doMultiply self x
  = match ErrorCovariance.outerBlockChain_ self with
    | Some outer =>
        (ErrorCovariance.applyOuterBlocks outer
           (sum_of_contributions self (length (ErrorCovariance.hybridBlockChain_ self))
              (ErrorCovariance.applyOuterBlocksAD outer x)),
         [ErrorCovariance.ApplyOuterBlocksAD]
         ++ concat (map (component_calls self)
                        (seq 0 (length (ErrorCovariance.hybridBlockChain_ self))))
         ++ [ErrorCovariance.ApplyOuterBlocks])
    | None =>
        (sum_of_contributions self (length (ErrorCovariance.hybridBlockChain_ self)) x,
         concat (map (component_calls self)
                     (seq 0 (length (ErrorCovariance.hybridBlockChain_ self)))))
    end.
Proof.
  unfold ErrorCovariance.doMultiply, sum_of_contributions.
  destruct (ErrorCovariance.outerBlockChain_ self) as [outer|].
  - unfold ErrorCovariance.bind at 1. cbn [ErrorCovariance.call fst snd].
    unfold ErrorCovariance.bind. rewrite for_each_multiply_spec.
    cbn [ErrorCovariance.call fst snd]. reflexivity.
  - unfold ErrorCovariance.bind at 1. cbn [ErrorCovariance.ret fst snd].
    unfold ErrorCovariance.bind. rewrite for_each_multiply_spec.
    cbn [ErrorCovariance.ret fst snd]. by rewrite app_nil_r.
Qed.

(** The calls of a component are none of the two calls on the outer chain. *)
Lemma component_calls_not_outer self (jj : nat) (c : ErrorCovariance.Call) :
  c = ErrorCovariance.ApplyOuterBlocksAD \/ c = ErrorCovariance.ApplyOuterBlocks ->
  times_called c (component_calls self jj) = 0.
Proof.
  intros Hc. unfold times_called, component_calls, weight_calls.
  destruct (s_eqb (ErrorCovariance.weightSqrt self jj) s_one);
    destruct (w_empty (ErrorCovariance.fieldWeightSqrt self jj));
    destruct Hc as [-> | ->]; reflexivity.
Qed.

Lemma times_called_app (c : ErrorCovariance.Call) (l1 l2 : list ErrorCovariance.Call) :
  times_called c (l1 ++ l2) = times_called c l1 + times_called c l2.
Proof. unfold times_called. by rewrite filter_app, length_app. Qed.

Lemma components_calls_not_outer self (js : list nat) (c : ErrorCovariance.Call) :
  c = ErrorCovariance.ApplyOuterBlocksAD \/ c = ErrorCovariance.ApplyOuterBlocks ->
  times_called c (concat (map (component_calls self) js)) = 0.
Proof.
  intros Hc. induction js as [|jj js IH]; cbn [map concat]; [reflexivity |].
  by rewrite times_called_app, component_calls_not_outer, IH.
Qed.

(** C1. With a shared outer chain, [doMultiply] returns the outer chain
    applied forward to the sum, accumulated from zero, of the components'
    contributions for the outer adjoint of the input, each contribution
    being the chain's multiply between two applications of that
    component's weights (the stored scalar square root, whose multiplication
    is skipped when it is exactly 1.0, and the per-field square root when it
    is not empty); the adjoint is the first call, the forward application
    the last, and each is made once. *)
Theorem C1_doMultiply_hybrid_with_outer_chain
    self (outer : ErrorCovariance.SaberOuterBlockChain F) (dxi : F) :
  ErrorCovariance.outerBlockChain_ self = Some outer ->
  let n := length (ErrorCovariance.hybridBlockChain_ self) in
  let calls := snd (ErrorCovariance.doMultiply self dxi) in
  fst (ErrorCovariance.doMultiply self dxi)
  = ErrorCovariance.applyOuterBlocks outer
      (fold_left
         (fun acc jj =>
            fs_add acc
              (weighted self jj
                 (ErrorCovariance.chain_multiply (ErrorCovariance.blockChain self jj)
                    (weighted self jj (ErrorCovariance.applyOuterBlocksAD outer dxi)))))
         (seq 0 n)
         (fs_zero (ErrorCovariance.applyOuterBlocksAD outer dxi)))
  /\ calls = [ErrorCovariance.ApplyOuterBlocksAD]
             ++ concat (map (component_calls self) (seq 0 n))
             ++ [ErrorCovariance.ApplyOuterBlocks]
  /\ times_called ErrorCovariance.ApplyOuterBlocksAD calls = 1
  /\ times_called ErrorCovariance.ApplyOuterBlocks calls = 1.
Proof.
  intros Houter n calls. subst calls. rewrite doMultiply_spec, Houter. cbn [fst snd].
  split; [reflexivity |]. split; [reflexivity |].
  rewrite !times_called_app, !components_calls_not_outer by auto.
  split; reflexivity.
Qed.

End ErrorCovarianceProofs.

Lemma C1_doMultiply_hybrid_with_outer_chain_witness :
  let calls := snd (ErrorCovariance.doMultiply (ErrorCovariance.new hybrid_example) [1%float]) in
  times_called ErrorCovariance.ApplyOuterBlocksAD calls = 1
  /\ times_called ErrorCovariance.ApplyOuterBlocks calls = 1.
Proof.
  pose proof (C1_doMultiply_hybrid_with_outer_chain
                (ErrorCovariance.new hybrid_example)
                (ErrorCovariance.mkOuter (fun x => fs_scale x 2%float)
                                         (fun x => fs_scale x 2%float))
                [1%float] eq_refl) as (_ & _ & Had & Hfw).
  split; [exact Had | exact Hfw].
Defined.

(** ** ErrorCovariance: construction *)

Section ErrorCovarianceConstruction.
Context {T F W : Type} {ST : Scalar T} {OPS : FieldSet4DOps T F W}.
Implicit Types (params : ErrorCovariance.Parameters T F W)
               (cmp : ErrorCovariance.Component T F W).

Lemma add_components_spec (cs : list (ErrorCovariance.Component T F W)) :
  forall self : ErrorCovariance.t T F W,
    fold_left ErrorCovariance.add_component cs self
    = ErrorCovariance.mk
        (ErrorCovariance.outerBlockChain_ self)
        (ErrorCovariance.hybridBlockChain_ self ++ (ErrorCovariance.covariance <$> cs))
        (ErrorCovariance.hybridScalarWeightSqrt_ self ++ (stored_weight <$> cs))
        (ErrorCovariance.hybridFieldWeightSqrt_ self ++ (stored_field_weight <$> cs)).
Proof.
  induction cs as [|cmp cs IH]; intros self; cbn [fold_left fmap list_fmap].
  - rewrite !app_nil_r. by destruct self.
  - rewrite IH. unfold ErrorCovariance.add_component. cbn.
    by rewrite <- !app_assoc.
Qed.

(** The hybrid branch of the constructor. *)
Lemma new_hybrid params :
  ErrorCovariance.saberBlockName params = "Hybrid" ->
  ErrorCovariance.new params
  = ErrorCovariance.mk
      (ErrorCovariance.saberOuterBlocksParams params)
      (ErrorCovariance.covariance <$> ErrorCovariance.components params)
      (stored_weight <$> ErrorCovariance.components params)
      (stored_field_weight <$> ErrorCovariance.components params).
Proof.
  intros Hname. unfold ErrorCovariance.new. rewrite Hname. cbn [String.eqb].
  change (String.eqb "Hybrid" "Hybrid") with true. cbv iota.
  by rewrite add_components_spec.
Qed.

(** The other branch. *)
Lemma new_non_hybrid params :
  ErrorCovariance.saberBlockName params <> "Hybrid" ->
  ErrorCovariance.new params
  = ErrorCovariance.mk None [ErrorCovariance.centralChain params] [s_one] [w_new].
Proof.
  intros Hname. unfold ErrorCovariance.new.
  by rewrite (proj2 (String.eqb_neq _ _) Hname).
Qed.

(** [doMultiply] on the covariance built by the non-hybrid branch. *)
Lemma new_non_hybrid_doMultiply params (x : F) :
  ErrorCovariance.saberBlockName params <> "Hybrid" ->
  ErrorCovariance.doMultiply (ErrorCovariance.new params) x
  = (fs_add (fs_zero x)
            (ErrorCovariance.chain_multiply (ErrorCovariance.centralChain params) x),
     [ErrorCovariance.ChainMultiply 0; ErrorCovariance.AddComponent 0]).
Proof.
  intros Hname. rewrite new_non_hybrid by done.
  set (self := ErrorCovariance.mk None [ErrorCovariance.centralChain params]
                                  [s_one] [w_new]).
  assert (Hw : ErrorCovariance.weightSqrt self 0 = s_one) by reflexivity.
  assert (Hfw : ErrorCovariance.fieldWeightSqrt self 0 = w_new) by reflexivity.
  assert (Hc : ErrorCovariance.blockChain self 0 = ErrorCovariance.centralChain params)
    by reflexivity.
  rewrite doMultiply_spec.
  change (ErrorCovariance.outerBlockChain_ self) with (@None (ErrorCovariance.SaberOuterBlockChain F)).
  change (length (ErrorCovariance.hybridBlockChain_ self)) with 1.
  unfold sum_of_contributions, component_calls, weight_calls, contribution, weighted.
  cbn [seq fold_left map concat].
  rewrite Hw, Hfw, Hc, s_eqb_one, w_empty_new. reflexivity.
Qed.

(** C5, amended. When the central block is not named "Hybrid" the
    covariance has no outer chain and one component, with scalar weight
    square root 1.0 and an empty per-field weight; [doMultiply] makes no
    weight multiplication and returns the chain's multiply of the input
    added to the zeroed accumulator. *)
Theorem C5_non_hybrid_is_one_unweighted_component params (x : F) :
  ErrorCovariance.saberBlockName params <> "Hybrid" ->
  let self := ErrorCovariance.new params in
  ErrorCovariance.outerBlockChain_ self = None
  /\ ErrorCovariance.hybridBlockChain_ self = [ErrorCovariance.centralChain params]
  /\ ErrorCovariance.hybridScalarWeightSqrt_ self = [s_one]
  /\ ErrorCovariance.hybridFieldWeightSqrt_ self = [w_new]
  /\ w_empty (W := W) w_new = true
  /\ ErrorCovariance.doMultiply self x
     = (fs_add (fs_zero x)
               (ErrorCovariance.chain_multiply (ErrorCovariance.centralChain params) x),
        [ErrorCovariance.ChainMultiply 0; ErrorCovariance.AddComponent 0]).
Proof.
  intros Hname self. subst self.
  rewrite new_non_hybrid_doMultiply by done. rewrite new_non_hybrid by done.
  repeat (split; [first [reflexivity | apply w_empty_new] |]). reflexivity.
Qed.

End ErrorCovarianceConstruction.

Lemma C5_non_hybrid_is_one_unweighted_component_witness :
  ErrorCovariance.doMultiply
    (ErrorCovariance.new (ErrorCovariance.mkParameters (T := float) "ID" None [] ID_chain))
    [1.5%float; (-0)%float]
  = (fs_add (fs_zero [1.5%float; (-0)%float]) [1.5%float; (-0)%float],
     [ErrorCovariance.ChainMultiply 0; ErrorCovariance.AddComponent 0]).
Proof.
  apply (C5_non_hybrid_is_one_unweighted_component
           (ErrorCovariance.mkParameters (T := float) "ID" None [] ID_chain)
           [1.5%float; (-0)%float]).
  discriminate.
Defined.

(** C5, as stated, fails on doubles: for a covariance whose central block
    is ID the chain's multiply returns its input, a negative zero included,
    while [doMultiply] returns a positive zero in its place. *)
Lemma C5_non_hybrid_is_not_bit_identical :
  let self := ErrorCovariance.new
                (ErrorCovariance.mkParameters (T := float) "ID" None [] ID_chain) in
  fst (ErrorCovariance.doMultiply self [1.5%float; (-0)%float]) = [1.5%float; 0%float]
  /\ ErrorCovariance.chain_multiply ID_chain [1.5%float; (-0)%float]
     = [1.5%float; (-0)%float]
  /\ bitwise_equal (fst (ErrorCovariance.doMultiply self [1.5%float; (-0)%float]))
                   (ErrorCovariance.chain_multiply ID_chain [1.5%float; (-0)%float])
     = false.
Proof. vm_compute. repeat split; reflexivity. Qed.

(** ** Vectors of reals: the laws of exact arithmetic *)

Lemma vector_add_zero_l (x y : list R) :
  length y = length x -> fs_add (fs_zero x) y = y.
Proof.
  revert y. induction x as [|a x IH]; intros [|b y] Hlen; simpl in *; try done.
  f_equal; [apply Rplus_0_l | apply IH; lia].
Qed.

Lemma vector_scale_scale (x : list R) (a b : R) :
  fs_scale (fs_scale x a) b = fs_scale x (a * b)%R.
Proof.
  induction x as [|v x IH]; simpl in *; [reflexivity |].
  f_equal; [apply Rmult_assoc | apply IH].
Qed.

Lemma vector_scale_one (x : list R) : fs_scale x 1%R = x.
Proof.
  induction x as [|v x IH]; simpl in *; [reflexivity |].
  f_equal; [apply Rmult_1_r | apply IH].
Qed.

Lemma vector_mul_scale (x : list R) (a : R) (w : list R) :
  fs_mul (fs_scale x a) w = fs_scale (fs_mul x w) a.
Proof.
  revert w. induction x as [|v x IH]; intros [|u w]; simpl in *; try reflexivity.
  f_equal; [ring | apply IH].
Qed.

Lemma tripling_chain_homogeneous (y : list R) (a : R) :
  ErrorCovariance.chain_multiply tripling_chain (fs_scale y a)
  = fs_scale (ErrorCovariance.chain_multiply tripling_chain y) a.
Proof.
  induction y as [|v y IH]; simpl in *; [reflexivity |].
  f_equal; [ring | apply IH].
Qed.

(** In exact arithmetic the non-hybrid [doMultiply] is the chain's multiply,
    as long as the chain keeps the shape of the field set. *)
Lemma doMultiply_non_hybrid_exact
    (params : ErrorCovariance.Parameters R (list R) (list R)) (x : list R) :
  ErrorCovariance.saberBlockName params <> "Hybrid" ->
  length (ErrorCovariance.chain_multiply (ErrorCovariance.centralChain params) x) = length x ->
  fst (ErrorCovariance.doMultiply (ErrorCovariance.new params) x)
  = ErrorCovariance.chain_multiply (ErrorCovariance.centralChain params) x.
Proof.
  intros Hname Hlen.
  rewrite (new_non_hybrid_doMultiply params x Hname). cbn [fst].
  by apply vector_add_zero_l.
Qed.

(** ** ErrorCovariance: the scalar weight of a component *)

Section WeightScaling.
Context {F W : Type} {OPS : FieldSet4DOps R F W}.
Implicit Types (params : ErrorCovariance.Parameters R F W)
               (cmp : ErrorCovariance.Component R F W) (x y : F).

(** Field sets form a module over the scalars of exact arithmetic. *)
Hypothesis scale_scale : forall x (a b : R), fs_scale (fs_scale x a) b = fs_scale x (a * b)%R.
Hypothesis scale_one : forall x, fs_scale x 1%R = x.
Hypothesis mul_scale :
  forall x (a : R) (w : W), fs_mul (fs_scale x a) w = fs_scale (fs_mul x w) a.

Lemma guarded_scale (s : R) x :
  (if s_eqb s s_one then x else fs_scale x s) = fs_scale x s.
Proof using scale_one.
  cbn [s_eqb s_one R_scalar]. unfold Reqb.
  destruct (Req_dec_T s 1) as [-> | Hne]; [by rewrite scale_one | reflexivity].
Qed.

Lemma guarded_mul_scale (w : W) x (a : R) :
  (if w_empty w then fs_scale x a else fs_mul (fs_scale x a) w)
  = fs_scale (if w_empty w then x else fs_mul x w) a.
Proof using mul_scale. destruct (w_empty w); [reflexivity | apply mul_scale]. Qed.

(** A contribution is the unweighted one scaled by the square of the
    stored scalar weight. *)
Lemma contribution_scalar_weight (self : ErrorCovariance.t R F W) (jj : nat) x :
  (forall y (a : R),
     ErrorCovariance.chain_multiply (ErrorCovariance.blockChain self jj) (fs_scale y a)
     = fs_scale (ErrorCovariance.chain_multiply (ErrorCovariance.blockChain self jj) y) a) ->
  let fw := ErrorCovariance.fieldWeightSqrt self jj in
  let s := ErrorCovariance.weightSqrt self jj in
  contribution self jj x
  = fs_scale
      (if w_empty fw
       then ErrorCovariance.chain_multiply (ErrorCovariance.blockChain self jj)
              (if w_empty fw then x else fs_mul x fw)
       else fs_mul (ErrorCovariance.chain_multiply (ErrorCovariance.blockChain self jj)
                      (if w_empty fw then x else fs_mul x fw)) fw)
      (s * s)%R.
Proof using scale_scale scale_one mul_scale.
  intros Hlin fw s. unfold contribution, weighted. fold fw s.
  rewrite !guarded_scale, !guarded_mul_scale, Hlin, guarded_mul_scale.
  apply scale_scale.
Qed.

(** The stored entries of a component other than the one whose weight is
    scaled are the same. *)
Lemma scale_component_weight_other params (i jj : nat) (k : R) x :
  ErrorCovariance.saberBlockName params = "Hybrid" ->
  jj <> i ->
  contribution (ErrorCovariance.new (scale_component_weight i k params)) jj x
  = contribution (ErrorCovariance.new params) jj x.
Proof using Type.
  intros Hname Hne.
  assert (Hname' : ErrorCovariance.saberBlockName (scale_component_weight i k params)
                   = "Hybrid") by exact Hname.
  rewrite (new_hybrid _ Hname), (new_hybrid _ Hname').
  unfold contribution, weighted, ErrorCovariance.weightSqrt, ErrorCovariance.fieldWeightSqrt,
    ErrorCovariance.blockChain.
  cbn [ErrorCovariance.hybridScalarWeightSqrt_ ErrorCovariance.hybridFieldWeightSqrt_
       ErrorCovariance.hybridBlockChain_ scale_component_weight ErrorCovariance.components].
  by rewrite !list_lookup_fmap, !list_lookup_alter_ne by done.
Qed.

(** The summand of the component whose weight is scaled by [k] is [k]
    times what it was. *)
Lemma scale_component_weight_same params (i : nat) cmp (k : R) x :
  ErrorCovariance.saberBlockName params = "Hybrid" ->
  ErrorCovariance.components params !! i = Some cmp ->
  (0 <= default 1 (ErrorCovariance.weight_value cmp))%R ->
  (0 <= k)%R ->
  (forall y (a : R),
     ErrorCovariance.chain_multiply (ErrorCovariance.covariance cmp) (fs_scale y a)
     = fs_scale (ErrorCovariance.chain_multiply (ErrorCovariance.covariance cmp) y) a) ->
  contribution (ErrorCovariance.new (scale_component_weight i k params)) i x
  = fs_scale (contribution (ErrorCovariance.new params) i x) k.
Proof using scale_scale scale_one mul_scale.
  intros Hname Hcmp Hw Hk Hlin.
  set (w := default 1%R (ErrorCovariance.weight_value cmp)) in *.
  assert (Hname' : ErrorCovariance.saberBlockName (scale_component_weight i k params)
                   = "Hybrid") by exact Hname.
  assert (Hcmp' : ErrorCovariance.components (scale_component_weight i k params) !! i
                  = Some (scale_weight k cmp)).
  { cbn [scale_component_weight ErrorCovariance.components].
    by rewrite list_lookup_alter_eq, Hcmp. }
  rewrite (new_hybrid _ Hname), (new_hybrid _ Hname').
  set (self' := ErrorCovariance.mk _ _ _ _).
  set (self := ErrorCovariance.mk _ _ _ _).
  assert (Hs : ErrorCovariance.hybridScalarWeightSqrt_ self !! i = Some (sqrt w)).
  { subst self. cbn [ErrorCovariance.hybridScalarWeightSqrt_].
    by rewrite list_lookup_fmap, Hcmp. }
  assert (Hs' : ErrorCovariance.hybridScalarWeightSqrt_ self' !! i = Some (sqrt (k * w))).
  { subst self'. cbn [ErrorCovariance.hybridScalarWeightSqrt_].
    by rewrite list_lookup_fmap, Hcmp'. }
  assert (Hc : ErrorCovariance.blockChain self i = ErrorCovariance.covariance cmp).
  { unfold ErrorCovariance.blockChain. subst self.
    cbn [ErrorCovariance.hybridBlockChain_]. by rewrite list_lookup_fmap, Hcmp. }
  assert (Hc' : ErrorCovariance.blockChain self' i = ErrorCovariance.covariance cmp).
  { unfold ErrorCovariance.blockChain. subst self'.
    cbn [ErrorCovariance.hybridBlockChain_]. by rewrite list_lookup_fmap, Hcmp'. }
  assert (Hf : ErrorCovariance.fieldWeightSqrt self' i = ErrorCovariance.fieldWeightSqrt self i).
  { unfold ErrorCovariance.fieldWeightSqrt. subst self self'.
    cbn [ErrorCovariance.hybridFieldWeightSqrt_].
    by rewrite !list_lookup_fmap, Hcmp, Hcmp'. }
  rewrite !contribution_scalar_weight by (rewrite ?Hc, ?Hc'; exact Hlin).
  rewrite Hf, Hc, Hc'. unfold ErrorCovariance.weightSqrt. rewrite Hs, Hs'.
  cbn [default from_option]. unfold Datatypes.id.
  rewrite scale_scale. f_equal.
  rewrite !sqrt_sqrt by (try apply Rmult_le_pos; assumption). ring.
Qed.

(** C6, amended. In exact arithmetic, for a hybrid covariance, a component
    [i] with a non-negative scalar weight [w] and a chain whose multiply
    commutes with scaling, and a factor [k >= 0]: the constructor stores
    [sqrt w], resp. [sqrt (k w)]; [doMultiply] returns, between the two
    directions of the shared outer chain, the sum of the components'
    summands, and with the weight [k w] the summand of component [i] is [k]
    times what it is with the weight [w], the other summands being the
    same. *)
Theorem C6_scalar_weight_scales_contribution
    params (i : nat) cmp (k : R) x :
  ErrorCovariance.saberBlockName params = "Hybrid" ->
  ErrorCovariance.components params !! i = Some cmp ->
  let w := default 1%R (ErrorCovariance.weight_value cmp) in
  (0 <= w)%R ->
  (0 <= k)%R ->
  (forall y (a : R),
     ErrorCovariance.chain_multiply (ErrorCovariance.covariance cmp) (fs_scale y a)
     = fs_scale (ErrorCovariance.chain_multiply (ErrorCovariance.covariance cmp) y) a) ->
  let self := ErrorCovariance.new params in
  let self' := ErrorCovariance.new (scale_component_weight i k params) in
  let n := length (ErrorCovariance.components params) in
  ErrorCovariance.hybridScalarWeightSqrt_ self !! i = Some (sqrt w)
  /\ ErrorCovariance.hybridScalarWeightSqrt_ self' !! i = Some (sqrt (k * w))
  /\ fst (ErrorCovariance.doMultiply self x)
     = through_outer_chain self (sum_of_contributions self n) x
  /\ fst (ErrorCovariance.doMultiply self' x)
     = through_outer_chain self (sum_with_scaled_contribution self n i k) x.
Proof using scale_scale scale_one mul_scale.
  intros Hname Hcmp w Hw Hk Hlin self self' n.
  assert (Hname' : ErrorCovariance.saberBlockName (scale_component_weight i k params)
                   = "Hybrid") by exact Hname.
  assert (Hcmp' : ErrorCovariance.components (scale_component_weight i k params) !! i
                  = Some (scale_weight k cmp)).
  { cbn [scale_component_weight ErrorCovariance.components].
    by rewrite list_lookup_alter_eq, Hcmp. }
  assert (Hn : length (ErrorCovariance.hybridBlockChain_ self) = n).
  { subst self n. rewrite (new_hybrid _ Hname).
    cbn [ErrorCovariance.hybridBlockChain_]. apply length_fmap. }
  assert (Hn' : length (ErrorCovariance.hybridBlockChain_ self') = n).
  { subst self' n. rewrite (new_hybrid _ Hname').
    cbn [ErrorCovariance.hybridBlockChain_ scale_component_weight ErrorCovariance.components].
    by rewrite length_fmap, length_alter. }
  assert (Houter : ErrorCovariance.outerBlockChain_ self'
                   = ErrorCovariance.outerBlockChain_ self).
  { subst self self'. by rewrite (new_hybrid _ Hname), (new_hybrid _ Hname'). }
  split; [| split; [| split]].
  - subst self. rewrite (new_hybrid _ Hname). cbn [ErrorCovariance.hybridScalarWeightSqrt_].
    by rewrite list_lookup_fmap, Hcmp.
  - subst self'. rewrite (new_hybrid _ Hname'). cbn [ErrorCovariance.hybridScalarWeightSqrt_].
    by rewrite list_lookup_fmap, Hcmp'.
  - rewrite doMultiply_spec, Hn. unfold through_outer_chain.
    by destruct (ErrorCovariance.outerBlockChain_ self).
  - rewrite doMultiply_spec, Hn', Houter. unfold through_outer_chain.
    assert (Hsum : forall y, sum_of_contributions self' n y
                             = sum_with_scaled_contribution self n i k y).
    { intros y. unfold sum_of_contributions, sum_with_scaled_contribution.
      apply fold_left_pointwise. intros acc jj. f_equal.
      destruct (decide (jj = i)) as [-> | Hne].
      - by apply (scale_component_weight_same params i cmp).
      - by apply scale_component_weight_other. }
    destruct (ErrorCovariance.outerBlockChain_ self); cbn [fst]; by rewrite Hsum.
Qed.

End WeightScaling.

Lemma C6_scalar_weight_scales_contribution_witness :
  fst (ErrorCovariance.doMultiply
         (ErrorCovariance.new (scale_component_weight 0 4%R tripling_hybrid)) [1%R])
  = through_outer_chain (ErrorCovariance.new tripling_hybrid)
      (sum_with_scaled_contribution (ErrorCovariance.new tripling_hybrid) 1 0 4%R) [1%R].
Proof.
  pose proof (C6_scalar_weight_scales_contribution
                vector_scale_scale vector_scale_one vector_mul_scale
                tripling_hybrid 0 tripling_component 4%R [1%R]
                eq_refl eq_refl) as H.
  cbv zeta in H.
  assert (Hw : (0 <= default 1 (ErrorCovariance.weight_value tripling_component))%R)
    by (cbn; lra).
  assert (Hk : (0 <= 4)%R) by lra.
  destruct (H Hw Hk tripling_chain_homogeneous) as (_ & _ & _ & Hscaled).
  exact Hscaled.
Defined.

(** C6, as stated, fails on doubles: with one ID component, [doMultiply]
    of [1; 3] is [1; 3] with the weight 1 and, with the weight scaled by 2,
    the doubles next above 2 and 6, since the square root of 2 is rounded
    and applied twice. *)
Lemma C6_scaling_by_two_is_not_exact :
  fst (ErrorCovariance.doMultiply (ErrorCovariance.new (weighted_ID 1)) [1; 3]%float)
  = [1; 3]%float
  /\ fst (ErrorCovariance.doMultiply
            (ErrorCovariance.new (scale_component_weight 0 2%float (weighted_ID 1)))
            [1; 3]%float)
     = [0x1.0000000000001p+1; 0x1.8000000000001p+2]%float
  /\ fs_scale [1; 3]%float 2%float = [2; 6]%float
  /\ numerically_equal
       [fst (ErrorCovariance.doMultiply
               (ErrorCovariance.new (scale_component_weight 0 2%float (weighted_ID 1)))
               [1; 3]%float)]
       [fs_scale [1; 3]%float 2%float]
     = false.
Proof. vm_compute. repeat split; reflexivity. Qed.

(** ** gsi_covariance_mod: missing fields *)

Lemma existsb_missing (need : list string) :
  1 <= length (missing need) -> existsb gsi_covariance_mod.not_filled need = true.
Proof.
  unfold missing. induction need as [|e need IH]; [simpl; lia |].
  rewrite filter_cons. cbn [existsb]. case_decide as He.
  - intros _. by rewrite He.
  - intros Hlen. rewrite (IH Hlen). apply orb_true_r.
Qed.

Lemma missing_printed_adm (need : list string) (e : string) :
  e ∈ missing need ->
  ["gsi_covariance_mod*multiply"; "*adm:: "; fortran.trim e] ∈ adm_lines need.
Proof.
  unfold missing, adm_lines. intros He. apply list_elem_of_filter in He as [_ He].
  rewrite map_fmap. apply list_elem_of_fmap. by exists e.
Qed.

Lemma missing_printed_create (need : list string) (e : string) :
  e ∈ missing need ->
  ["gsi_covariance_mod*create"; " "; fortran.trim e] ∈ create_lines need.
Proof.
  unfold missing, create_lines. intros He. apply list_elem_of_filter in He as [_ He].
  rewrite map_fmap. apply list_elem_of_fmap. by exists e.
Qed.

(** C9. A state that lacks two of the four fields of the control
    variables ps, tv, q and sf (the virtual temperature and the stream
    function) and has no air temperature: the list holds the two names, but
    the fix-up of "tv" uses [rank2] after [get_rank2_] returned without
    associating it, before anything is printed, and neither name is
    reported. *)
Theorem C9_missing_fields_are_not_reported_without_air_temperature :
  missing (gsi_covariance_mod.tbdvars_of (["ps"] ++ ["tv"; "q"; "sf"]) [no_temperature_slot])
  = [fortran.assign gsi_covariance_mod.tbdlen "tv";
     fortran.assign gsi_covariance_mod.tbdlen "sf"]
  /\ gsi_covariance_mod.rank2_associated
       (map gsi_covariance_mod.fields [no_temperature_slot]) 1 "t" = false
  /\ gsi_covariance_mod.multiply (gsi_covariance_mod.mk false true false)
       ["ps"] ["tv"; "q"; "sf"] [no_temperature_slot]
     = ([], gsi_covariance_mod.undefined)
  /\ gsi_covariance_mod.multiply (gsi_covariance_mod.mk false false false)
       ["ps"] ["tv"; "q"; "sf"] [no_temperature_slot]
     = ([], gsi_covariance_mod.undefined).
Proof. vm_compute. repeat split; reflexivity. Qed.

(* ===================================================================== *)
(** * Further properties *)
(* ===================================================================== *)

(** ** ErrorCovariance: construction and calls *)

Section ErrorCovarianceMore.
Context {T F W : Type} {ST : Scalar T} {OPS : FieldSet4DOps T F W}.
Implicit Types (self : ErrorCovariance.t T F W) (x dxo : F)
               (params : ErrorCovariance.Parameters T F W).

(** X1. The constructor leaves the three vectors with one entry per
    component: as many as the configuration lists when the central block is
    "Hybrid", one otherwise; the shared outer chain is the configured one
    for "Hybrid" and absent otherwise. *)
Theorem new_keeps_one_entry_per_component params :
  let self := ErrorCovariance.new params in
  let hybrid := String.eqb (ErrorCovariance.saberBlockName params) "Hybrid" in
  length (ErrorCovariance.hybridBlockChain_ self)
  = (if hybrid then length (ErrorCovariance.components params) else 1)
  /\ length (ErrorCovariance.hybridScalarWeightSqrt_ self)
     = length (ErrorCovariance.hybridBlockChain_ self)
  /\ length (ErrorCovariance.hybridFieldWeightSqrt_ self)
     = length (ErrorCovariance.hybridBlockChain_ self)
  /\ ErrorCovariance.outerBlockChain_ self
     = (if hybrid then ErrorCovariance.saberOuterBlocksParams params else None).
Proof.
  intros self hybrid. subst self hybrid.
  destruct (String.eqb (ErrorCovariance.saberBlockName params) "Hybrid") eqn:Hname.
  - apply String.eqb_eq in Hname. rewrite (new_hybrid _ Hname).
    cbn [ErrorCovariance.hybridBlockChain_ ErrorCovariance.hybridScalarWeightSqrt_
         ErrorCovariance.hybridFieldWeightSqrt_ ErrorCovariance.outerBlockChain_].
    by rewrite !length_fmap.
  - apply String.eqb_neq in Hname. rewrite (new_non_hybrid _ Hname). done.
Qed.

(** X2. When the square root of 1.0 is 1.0, a "Hybrid" with no shared outer
    blocks and a single component without weight file, whose scalar weight
    is absent or 1.0, is the covariance of the non-hybrid configuration on
    the same chain: same object, so same [doMultiply] and [doRandomize],
    calls included. *)
Theorem hybrid_of_one_is_the_non_hybrid_covariance
    (cmp : ErrorCovariance.Component T F W) params x :
  s_sqrt s_one = s_one ->
  default s_one (ErrorCovariance.weight_value cmp) = s_one ->
  ErrorCovariance.weight_file cmp = None ->
  ErrorCovariance.saberBlockName params <> "Hybrid" ->
  ErrorCovariance.centralChain params = ErrorCovariance.covariance cmp ->
  ErrorCovariance.new (hybrid_of_one cmp) = ErrorCovariance.new params
  /\ ErrorCovariance.doMultiply (ErrorCovariance.new (hybrid_of_one cmp)) x
     = ErrorCovariance.doMultiply (ErrorCovariance.new params) x
  /\ ErrorCovariance.doRandomize (ErrorCovariance.new (hybrid_of_one cmp)) x
     = ErrorCovariance.doRandomize (ErrorCovariance.new params) x.
Proof.
  intros Hsqrt Hw Hfile Hname Hchain.
  assert (Hnew : ErrorCovariance.new (hybrid_of_one cmp) = ErrorCovariance.new params).
  { rewrite (new_hybrid (hybrid_of_one cmp) eq_refl), (new_non_hybrid _ Hname).
    cbn [hybrid_of_one ErrorCovariance.components ErrorCovariance.saberOuterBlocksParams
         fmap list_fmap].
    unfold stored_weight, stored_field_weight. by rewrite Hw, Hsqrt, Hfile, Hchain. }
  by rewrite Hnew.
Qed.

End ErrorCovarianceMore.

Lemma hybrid_of_one_is_the_non_hybrid_covariance_witness :
  ErrorCovariance.doMultiply
    (ErrorCovariance.new
       (hybrid_of_one (ErrorCovariance.mkComponent (T := float) (Some 1%float) None ID_chain)))
    [1.5%float; (-0)%float]
  = ErrorCovariance.doMultiply
      (ErrorCovariance.new (ErrorCovariance.mkParameters (T := float) "ID" None [] ID_chain))
      [1.5%float; (-0)%float].
Proof.
  refine (proj1 (proj2 (hybrid_of_one_is_the_non_hybrid_covariance
           (ErrorCovariance.mkComponent (T := float) (Some 1%float) None ID_chain)
           (ErrorCovariance.mkParameters (T := float) "ID" None [] ID_chain)
           [1.5%float; (-0)%float] eq_refl eq_refl eq_refl _ eq_refl))).
  discriminate.
Defined.

Section ErrorCovarianceTraces.
Context {T F W : Type} {ST : Scalar T} {OPS : FieldSet4DOps T F W}.
Implicit Types (self : ErrorCovariance.t T F W) (x dxo : F).

Lemma randomize_component_spec self (zero dx : F) (jj : nat) :
  ErrorCovariance.randomize_component self zero dx jj
  = (fs_add dx (sample self jj zero), sample_calls self jj).
Proof.
  unfold ErrorCovariance.randomize_component, sample, sample_calls.
  unfold ErrorCovariance.bind at 1. cbn [ErrorCovariance.call fst snd].
  unfold ErrorCovariance.bind. rewrite apply_weight_spec.
  cbn [ErrorCovariance.call fst snd]. reflexivity.
Qed.

Lemma randomize_loop_spec self (zero : F) (js : list nat) :
  forall dx (calls : list ErrorCovariance.Call),
    fold_left (fun acc jj =>
                 ErrorCovariance.bind acc
                   (fun dx => ErrorCovariance.randomize_component self zero dx jj))
              js (dx, calls)
    = (fold_left (fun acc jj => fs_add acc (sample self jj zero)) js dx,
       calls ++ concat (map (sample_calls self) js)).
Proof.
  induction js as [|jj js IH]; intros dx calls; cbn [fold_left map concat].
  - by rewrite app_nil_r.
  - unfold ErrorCovariance.bind at 2. rewrite randomize_component_spec. cbn [fst snd].
    rewrite IH. by rewrite <- app_assoc.
Qed.

Lemma times_called_concat_zero {A : Type} (c : ErrorCovariance.Call)
    (f : A -> list ErrorCovariance.Call) (js : list A) :
  (forall jj, times_called c (f jj) = 0) ->
  times_called c (concat (map f js)) = 0.
Proof.
  intros Hf. induction js as [|jj js IH]; cbn [map concat]; [reflexivity |].
  by rewrite times_called_app, Hf, IH.
Qed.

Lemma sample_calls_not_outer self (jj : nat) (c : ErrorCovariance.Call) :
  c = ErrorCovariance.ApplyOuterBlocksAD \/ c = ErrorCovariance.ApplyOuterBlocks ->
  times_called c (sample_calls self jj) = 0.
Proof.
  intros Hc. unfold times_called, sample_calls, weight_calls.
  destruct (s_eqb (ErrorCovariance.weightSqrt self jj) s_one);
    destruct (w_empty (ErrorCovariance.fieldWeightSqrt self jj));
    destruct Hc as [-> | ->]; reflexivity.
Qed.

Lemma filter_randomize_sample_calls self (js : list nat) :
  filter (fun c => is_chain_randomize c = true) (concat (map (sample_calls self) js))
  = ErrorCovariance.ChainRandomize <$> js.
Proof.
  induction js as [|jj js IH]; cbn [map concat fmap list_fmap]; [reflexivity |].
  rewrite filter_app, IH. f_equal.
  unfold sample_calls, weight_calls.
  destruct (s_eqb (ErrorCovariance.weightSqrt self jj) s_one);
    destruct (w_empty (ErrorCovariance.fieldWeightSqrt self jj)); reflexivity.
Qed.

Lemma filter_multiply_component_calls self (js : list nat) :
  filter (fun c => is_chain_multiply c = true) (concat (map (component_calls self) js))
  = ErrorCovariance.ChainMultiply <$> js.
Proof.
  induction js as [|jj js IH]; cbn [map concat fmap list_fmap]; [reflexivity |].
  rewrite filter_app, IH. f_equal.
  unfold component_calls, weight_calls.
  destruct (s_eqb (ErrorCovariance.weightSqrt self jj) s_one);
    destruct (w_empty (ErrorCovariance.fieldWeightSqrt self jj)); reflexivity.
Qed.

Lemma doRandomize_spec self (dx_inc : F) :
  ErrorCovariance.doRandomize self dx_inc
  = let sum := sum_of_samples self (length (ErrorCovariance.hybridBlockChain_ self))
                 (fs_zero dx_inc) in
    let calls := concat (map (sample_calls self)
                           (seq 0 (length (ErrorCovariance.hybridBlockChain_ self)))) in
    match ErrorCovariance.outerBlockChain_ self with
    | Some outer =>
        (ErrorCovariance.applyOuterBlocks outer sum, calls ++ [ErrorCovariance.ApplyOuterBlocks])
    | None => (sum, calls)
    end.
Proof.
  unfold ErrorCovariance.doRandomize, ErrorCovariance.for_each, ErrorCovariance.ret,
    sum_of_samples.
  unfold ErrorCovariance.bind at 1. rewrite randomize_loop_spec. cbn [fst snd app].
  destruct (ErrorCovariance.outerBlockChain_ self) as [outer|];
    cbn [ErrorCovariance.call ErrorCovariance.ret fst snd]; [reflexivity |].
  by rewrite app_nil_r.
Qed.

(** X3. [doRandomize] zeroes its argument, draws the sample of every
    component from that zero field set, applies the component's weights
    once, sums the samples from zero and applies the shared outer chain
    forward when there is one: every chain is randomized once, in index
    order, and the outer adjoint is never applied. *)
Theorem doRandomize_sums_weighted_samples self (dx_inc : F) :
  let n := length (ErrorCovariance.hybridBlockChain_ self) in
  let sum := sum_of_samples self n (fs_zero dx_inc) in
  let calls := snd (ErrorCovariance.doRandomize self dx_inc) in
  fst (ErrorCovariance.doRandomize self dx_inc)
  = match ErrorCovariance.outerBlockChain_ self with
    | Some outer => ErrorCovariance.applyOuterBlocks outer sum
    | None => sum
    end
  /\ filter (fun c => is_chain_randomize c = true) calls
     = ErrorCovariance.ChainRandomize <$> seq 0 n
  /\ times_called ErrorCovariance.ApplyOuterBlocksAD calls = 0
  /\ times_called ErrorCovariance.ApplyOuterBlocks calls
     = (if ErrorCovariance.outerBlockChain_ self is Some _ then 1 else 0).
Proof.
  intros n sum calls. subst n sum calls. rewrite doRandomize_spec.
  destruct (ErrorCovariance.outerBlockChain_ self) as [outer|]; cbn [fst snd].
  - split; [reflexivity |]. rewrite filter_app, filter_randomize_sample_calls.
    split; [by rewrite app_nil_r |].
    rewrite !times_called_app.
    rewrite !(times_called_concat_zero _ (sample_calls self))
      by (intros; apply sample_calls_not_outer; auto).
    split; reflexivity.
  - split; [reflexivity |].
    split; [apply filter_randomize_sample_calls |].
    rewrite !(times_called_concat_zero _ (sample_calls self))
      by (intros; apply sample_calls_not_outer; auto).
    split; reflexivity.
Qed.

(** X4. Whatever the weights, [doMultiply] runs the multiply of every
    component chain once, in index order; it calls the shared outer chain
    once in each direction when there is one and not at all otherwise. *)
Theorem doMultiply_calls_every_chain_once self (dxi : F) :
  let n := length (ErrorCovariance.hybridBlockChain_ self) in
  let calls := snd (ErrorCovariance.doMultiply self dxi) in
  filter (fun c => is_chain_multiply c = true) calls
  = ErrorCovariance.ChainMultiply <$> seq 0 n
  /\ times_called ErrorCovariance.ApplyOuterBlocksAD calls
     = (if ErrorCovariance.outerBlockChain_ self is Some _ then 1 else 0)
  /\ times_called ErrorCovariance.ApplyOuterBlocks calls
     = (if ErrorCovariance.outerBlockChain_ self is Some _ then 1 else 0).
Proof.
  intros n calls. subst n calls. rewrite doMultiply_spec.
  destruct (ErrorCovariance.outerBlockChain_ self) as [outer|]; cbn [snd].
  - rewrite !filter_app, filter_multiply_component_calls.
    split; [by rewrite app_nil_r |].
    rewrite !times_called_app, !components_calls_not_outer by auto.
    split; reflexivity.
  - split; [apply filter_multiply_component_calls |].
    rewrite !components_calls_not_outer by auto. split; reflexivity.
Qed.

End ErrorCovarianceTraces.

(** ** ErrorCovariance: doMultiply is additive when its parts are *)

Section Additivity.
Context {T F W : Type} {ST : Scalar T} {OPS : FieldSet4DOps T F W}.
Implicit Types (self : ErrorCovariance.t T F W) (x y : F).

(** The field-set operations are compatible with the addition. *)
Hypothesis zero_add : forall x y, fs_zero (fs_add x y) = fs_add (fs_zero x) (fs_zero y).
Hypothesis add_interchange :
  forall a b c d : F, fs_add (fs_add a b) (fs_add c d) = fs_add (fs_add a c) (fs_add b d).
Hypothesis scale_add :
  forall x y (a : T), fs_scale (fs_add x y) a = fs_add (fs_scale x a) (fs_scale y a).
Hypothesis mul_add :
  forall x y (w : W), fs_mul (fs_add x y) w = fs_add (fs_mul x w) (fs_mul y w).

Lemma weighted_add self (jj : nat) x y :
  weighted self jj (fs_add x y) = fs_add (weighted self jj x) (weighted self jj y).
Proof using scale_add mul_add.
  unfold weighted.
  destruct (s_eqb (ErrorCovariance.weightSqrt self jj) s_one);
    destruct (w_empty (ErrorCovariance.fieldWeightSqrt self jj));
    rewrite ?scale_add, ?mul_add; reflexivity.
Qed.

Lemma sum_of_contributions_add self (js : list nat) x y :
  (forall jj u v, jj ∈ js ->
     ErrorCovariance.chain_multiply (ErrorCovariance.blockChain self jj) (fs_add u v)
     = fs_add (ErrorCovariance.chain_multiply (ErrorCovariance.blockChain self jj) u)
              (ErrorCovariance.chain_multiply (ErrorCovariance.blockChain self jj) v)) ->
  forall a b : F,
    fold_left (fun acc jj => fs_add acc (contribution self jj (fs_add x y))) js (fs_add a b)
    = fs_add (fold_left (fun acc jj => fs_add acc (contribution self jj x)) js a)
             (fold_left (fun acc jj => fs_add acc (contribution self jj y)) js b).
Proof using add_interchange scale_add mul_add.
  induction js as [|jj js IH]; intros Hchains a b; cbn [fold_left]; [reflexivity |].
  assert (Hjj : contribution self jj (fs_add x y)
                = fs_add (contribution self jj x) (contribution self jj y)).
  { unfold contribution. rewrite weighted_add, Hchains by (by left). apply weighted_add. }
  rewrite Hjj, add_interchange. apply IH. intros j u v Hj. apply Hchains. by right.
Qed.

(** X5. When every component chain's multiply and the two directions of the
    shared outer chain are additive, and the field-set operations are
    compatible with the addition, [doMultiply] of a sum of two inputs is the
    sum of the two outputs. *)
Theorem doMultiply_additive self x y :
  (forall jj u v, jj < length (ErrorCovariance.hybridBlockChain_ self) ->
     ErrorCovariance.chain_multiply (ErrorCovariance.blockChain self jj) (fs_add u v)
     = fs_add (ErrorCovariance.chain_multiply (ErrorCovariance.blockChain self jj) u)
              (ErrorCovariance.chain_multiply (ErrorCovariance.blockChain self jj) v)) ->
  (forall outer u v, ErrorCovariance.outerBlockChain_ self = Some outer ->
     ErrorCovariance.applyOuterBlocksAD outer (fs_add u v)
     = fs_add (ErrorCovariance.applyOuterBlocksAD outer u)
              (ErrorCovariance.applyOuterBlocksAD outer v)
     /\ ErrorCovariance.applyOuterBlocks outer (fs_add u v)
        = fs_add (ErrorCovariance.applyOuterBlocks outer u)
                 (ErrorCovariance.applyOuterBlocks outer v)) ->
  fst (ErrorCovariance.doMultiply self (fs_add x y))
  = fs_add (fst (ErrorCovariance.doMultiply self x))
           (fst (ErrorCovariance.doMultiply self y)).
Proof using zero_add add_interchange scale_add mul_add.
  intros Hchains Houter. rewrite !doMultiply_spec.
  assert (Hjs : forall jj u v,
             jj ∈ seq 0 (length (ErrorCovariance.hybridBlockChain_ self)) ->
             ErrorCovariance.chain_multiply (ErrorCovariance.blockChain self jj) (fs_add u v)
             = fs_add (ErrorCovariance.chain_multiply (ErrorCovariance.blockChain self jj) u)
                      (ErrorCovariance.chain_multiply (ErrorCovariance.blockChain self jj) v)).
  { intros jj u v Hjj. apply Hchains. apply elem_of_seq in Hjj. lia. }
  destruct (ErrorCovariance.outerBlockChain_ self) as [outer|]; cbn [fst];
    unfold sum_of_contributions.
  - destruct (Houter outer x y eq_refl) as [Had _]. rewrite Had, zero_add.
    rewrite (sum_of_contributions_add self _ _ _ Hjs).
    apply (Houter outer _ _ eq_refl).
  - rewrite zero_add. apply (sum_of_contributions_add self _ _ _ Hjs).
Qed.

End Additivity.

(** The compatibility laws hold for vectors of reals. *)
Lemma vector_zero_add (x y : list R) :
  fs_zero (fs_add x y) = fs_add (fs_zero x) (fs_zero y).
Proof.
  revert y. induction x as [|a x IH]; intros [|b y]; simpl in *; try reflexivity.
  f_equal; [by rewrite Rplus_0_l | apply IH].
Qed.

Lemma vector_add_interchange (a b c d : list R) :
  fs_add (fs_add a b) (fs_add c d) = fs_add (fs_add a c) (fs_add b d).
Proof.
  revert b c d. induction a as [|u a IH]; intros [|v b] [|w c] [|z d];
    simpl in *; try reflexivity.
  f_equal; [ring | apply IH].
Qed.

Lemma vector_scale_add (x y : list R) (a : R) :
  fs_scale (fs_add x y) a = fs_add (fs_scale x a) (fs_scale y a).
Proof.
  revert y. induction x as [|u x IH]; intros [|v y]; simpl in *; try reflexivity.
  f_equal; [ring | apply IH].
Qed.

Lemma vector_mul_add (x y w : list R) :
  fs_mul (fs_add x y) w = fs_add (fs_mul x w) (fs_mul y w).
Proof.
  revert y w. induction x as [|u x IH]; intros [|v y] [|z w]; simpl in *; try reflexivity.
  f_equal; [ring | apply IH].
Qed.

Lemma tripling_chain_additive (u v : list R) :
  ErrorCovariance.chain_multiply tripling_chain (fs_add u v)
  = fs_add (ErrorCovariance.chain_multiply tripling_chain u)
           (ErrorCovariance.chain_multiply tripling_chain v).
Proof. apply vector_scale_add. Qed.

Lemma doMultiply_additive_witness :
  fst (ErrorCovariance.doMultiply (ErrorCovariance.new tripling_hybrid)
         (fs_add [1%R; 2%R] [5%R; 7%R]))
  = fs_add (fst (ErrorCovariance.doMultiply (ErrorCovariance.new tripling_hybrid) [1%R; 2%R]))
           (fst (ErrorCovariance.doMultiply (ErrorCovariance.new tripling_hybrid) [5%R; 7%R])).
Proof.
  apply (doMultiply_additive vector_zero_add vector_add_interchange
           vector_scale_add vector_mul_add).
  - intros [|jj] u v Hjj; [apply tripling_chain_additive | simpl in Hjj; lia].
  - intros outer u v Houter. discriminate Houter.
Defined.

(** ** SpectralCorrelation::multiply: shape and untouched rows *)

Lemma fold_left_invariant {A B : Type} (P : A -> Prop) (f : A -> B -> A)
    (l : list B) (a : A) :
  (forall a b, P a -> P (f a b)) -> P a -> P (fold_left f l a).
Proof.
  intros Hf. revert a. induction l as [|b l IH]; intros a Ha; simpl; [exact Ha |].
  apply IH, Hf, Ha.
Qed.

Section SpectralCorrelationShape.
Context {T : Type} {ST : Scalar T}.
Implicit Types (spf : list (list T)) (self : SpectralCorrelation.t T)
               (fieldSet : FieldSet T).

Lemma view2_set_lengths spf (i jl : nat) (v : T) :
  length <$> view2_set spf i jl v = length <$> spf.
Proof.
  unfold view2_set. revert i. induction spf as [|row spf IH]; intros [|i]; simpl;
    try reflexivity.
  - by rewrite length_insert.
  - f_equal. apply IH.
Qed.

Lemma coefficient_lengths vertCov (levels n1 : nat) (st : nat * list (list T)) :
  length <$> snd (SpectralCorrelation.coefficient vertCov levels n1 st) = length <$> snd st.
Proof.
  destruct st as [i spf]. unfold SpectralCorrelation.coefficient. cbn [snd].
  apply (fold_left_invariant (fun a => length <$> a = length <$> spf)); [| reflexivity].
  intros a jl Ha. by rewrite view2_set_lengths.
Qed.

Lemma jm_loop_lengths vertCov (levels N : nat) (zw : list nat) (st : nat * list (list T)) :
  length <$> snd (SpectralCorrelation.jm_loop vertCov levels N zw st) = length <$> snd st.
Proof.
  rewrite jm_loop_flat.
  apply (fold_left_invariant (fun s => length <$> snd s = length <$> snd st));
    [| reflexivity].
  intros s n1 Hs. by rewrite coefficient_lengths.
Qed.

Lemma multiply_field_shape self vertCov (f : Field T) :
  shape_of (SpectralCorrelation.multiply_field self vertCov f) = shape_of f.
Proof.
  unfold shape_of, SpectralCorrelation.multiply_field. cbn [levels values].
  by rewrite jm_loop_lengths.
Qed.

Lemma multiply_vars_shape self (vars : list string) :
  forall fieldSet (name : string) (f : Field T),
    fieldSet !! name = Some f ->
    exists f', fst (SpectralCorrelation.multiply_vars self vars fieldSet) !! name = Some f'
               /\ shape_of f' = shape_of f.
Proof.
  induction vars as [|var vars IH]; intros fieldSet name f Hf; simpl.
  - by exists f.
  - destruct (fieldSet !! var) as [fv|] eqn:Hfv; [| by exists f].
    destruct (SpectralCorrelation.spectralVerticalCorrelations_ self !! var) as [vertCov|];
      [| by exists f].
    destruct (decide (name = var)) as [-> | Hne].
    + destruct (IH (<[var := SpectralCorrelation.multiply_field self vertCov fv]> fieldSet)
                  var (SpectralCorrelation.multiply_field self vertCov fv))
        as (f' & Hf' & Hshape); [by rewrite lookup_insert_eq |].
      exists f'. split; [exact Hf' |]. rewrite Hshape, multiply_field_shape. congruence.
    + apply IH. by rewrite lookup_insert_ne.
Qed.

(** X6. [multiply] keeps the shape of every field of the field set, active
    or not: after the call the field of the same name has the same number
    of levels, the same number of rows and rows of the same lengths. *)
Theorem multiply_keeps_the_shape_of_every_field self fieldSet (name : string) (f : Field T) :
  fieldSet !! name = Some f ->
  exists f',
    fst (SpectralCorrelation.multiply self fieldSet) !! name = Some f'
    /\ levels f' = levels f
    /\ length (values f') = length (values f)
    /\ (length <$> values f') = (length <$> values f).
Proof.
  intros Hf.
  destruct (multiply_vars_shape self (SpectralCorrelation.activeVars_ self)
              fieldSet name f Hf) as (f' & Hf' & Hshape).
  exists f'. split; [exact Hf' |]. unfold shape_of in Hshape.
  injection Hshape as Hlev Hrows. split; [exact Hlev |]. split; [| exact Hrows].
  by rewrite <- (length_fmap length (values f')), Hrows, length_fmap.
Qed.

(** The loop body writes row [i] only. *)
Lemma coefficient_other_rows vertCov (levels n1 i j : nat) spf :
  j <> i ->
  snd (SpectralCorrelation.coefficient vertCov levels n1 (i, spf)) !! j = spf !! j.
Proof.
  intros Hne. unfold SpectralCorrelation.coefficient. cbn [snd].
  rewrite fold_view2_set. by apply list_lookup_alter_ne.
Qed.

Lemma coefficients_other_rows vertCov (levels : nat) (ns : list nat) :
  forall (i0 j : nat) spf,
    j < i0 \/ i0 + length ns <= j ->
    snd (fold_left (fun st n1 => SpectralCorrelation.coefficient vertCov levels n1 st)
                   ns (i0, spf)) !! j = spf !! j.
Proof.
  induction ns as [|n1 ns IH]; intros i0 j spf Hj; cbn [fold_left length snd];
    [reflexivity |].
  pose proof (coefficient_other_rows vertCov levels n1 i0 j spf) as Hstep.
  destruct (SpectralCorrelation.coefficient vertCov levels n1 (i0, spf))
    as [i1 spf1] eqn:Hco.
  assert (i1 = S i0) as -> by (apply (f_equal fst) in Hco; exact (eq_sym Hco)).
  cbn [snd] in Hstep. cbn [length] in Hj.
  rewrite IH by lia. apply Hstep. lia.
Qed.

Lemma multiply_field_other_rows self vertCov (f : Field T) (j : nat) :
  sum_list (coefficients_of (SpectralCorrelation.truncation self)
              <$> SpectralCorrelation.zonal_wavenumbers self) <= j ->
  values (SpectralCorrelation.multiply_field self vertCov f) !! j = values f !! j.
Proof.
  intros Hj. unfold SpectralCorrelation.multiply_field. cbn [values].
  rewrite jm_loop_flat. apply coefficients_other_rows. right.
  rewrite length_wavenumbers. lia.
Qed.

(** X7. For an active variable, the rows of the field past the spectral
    coefficients (two for each total wavenumber from [m] to the truncation,
    for each zonal wavenumber [m]) are not touched. *)
Theorem multiply_leaves_rows_past_the_coefficients self fieldSet (var : string)
    (f : Field T) (j : nat) :
  NoDup (SpectralCorrelation.activeVars_ self) ->
  (forall v, v ∈ SpectralCorrelation.activeVars_ self ->
     is_Some (fieldSet !! v)
     /\ is_Some (SpectralCorrelation.spectralVerticalCorrelations_ self !! v)) ->
  var ∈ SpectralCorrelation.activeVars_ self ->
  fieldSet !! var = Some f ->
  sum_list (coefficients_of (SpectralCorrelation.truncation self)
              <$> SpectralCorrelation.zonal_wavenumbers self) <= j ->
  exists f',
    fst (SpectralCorrelation.multiply self fieldSet) !! var = Some f'
    /\ values f' !! j = values f !! j.
Proof.
  intros Hnodup Hpresent Hvar Hf Hj.
  destruct (Hpresent var Hvar) as [_ [vertCov Hc]].
  destruct (multiply_vars_lookup self _ fieldSet Hnodup Hpresent) as [_ Hlook].
  exists (SpectralCorrelation.multiply_field self vertCov f).
  split; [by apply Hlook |]. by apply multiply_field_other_rows.
Qed.

Lemma multiply_field_no_coefficient self vertCov (f : Field T) :
  Forall (fun m => SpectralCorrelation.truncation self < m)
         (SpectralCorrelation.zonal_wavenumbers self) ->
  SpectralCorrelation.multiply_field self vertCov f = f.
Proof.
  intros Hzw. unfold SpectralCorrelation.multiply_field.
  assert (Hw : wavenumbers (SpectralCorrelation.truncation self)
                           (SpectralCorrelation.zonal_wavenumbers self) = []).
  { unfold wavenumbers. induction Hzw as [|m zw Hm _ IH]; [reflexivity |].
    cbn [map concat]. rewrite IH, app_nil_r.
    replace (S (SpectralCorrelation.truncation self) - m) with 0 by lia. reflexivity. }
  rewrite jm_loop_flat, Hw. by destruct f.
Qed.

(** X8. On a task whose zonal wavenumbers all exceed the truncation (none
    at all included), [multiply] leaves the whole field set as it is. *)
Theorem multiply_without_coefficients_is_the_identity self fieldSet :
  Forall (fun m => SpectralCorrelation.truncation self < m)
         (SpectralCorrelation.zonal_wavenumbers self) ->
  fst (SpectralCorrelation.multiply self fieldSet) = fieldSet.
Proof.
  intros Hzw. unfold SpectralCorrelation.multiply.
  induction (SpectralCorrelation.activeVars_ self) as [|var vars IH]; simpl;
    [reflexivity |].
  destruct (fieldSet !! var) as [f|] eqn:Hf; [| reflexivity].
  destruct (SpectralCorrelation.spectralVerticalCorrelations_ self !! var) as [vertCov|];
    [| reflexivity].
  rewrite multiply_field_no_coefficient by done. by rewrite insert_id.
Qed.

End SpectralCorrelationShape.

Lemma multiply_keeps_the_shape_of_every_field_witness :
  exists f',
    fst (SpectralCorrelation.multiply (T := float) identity_correlation two_level_fields)
      !! "psi" = Some f'
    /\ levels f' = 2
    /\ length (values f') = 6
    /\ (length <$> values f') = [2; 2; 2; 2; 2; 2].
Proof.
  apply (multiply_keeps_the_shape_of_every_field (T := float)
           identity_correlation two_level_fields "psi"
           (mkField 2 (replicate 6 [s_one; s_add s_one s_one]))).
  reflexivity.
Defined.

Lemma multiply_leaves_rows_past_the_coefficients_witness :
  exists f',
    fst (SpectralCorrelation.multiply (T := float) identity_correlation seven_rows)
      !! "psi" = Some f'
    /\ values f' !! 6 = Some [1; 2]%float.
Proof.
  refine (multiply_leaves_rows_past_the_coefficients (T := float)
            identity_correlation seven_rows "psi"
            (mkField 2 (replicate 7 [s_one; s_add s_one s_one])) 6 _ _ _ eq_refl _).
  - apply NoDup_singleton.
  - intros v Hv. apply list_elem_of_singleton in Hv as ->. split; eexists; reflexivity.
  - apply list_elem_of_singleton. reflexivity.
  - vm_compute. lia.
Defined.

Lemma multiply_without_coefficients_is_the_identity_witness :
  fst (SpectralCorrelation.multiply (T := float) no_coefficient two_level_fields)
  = two_level_fields.
Proof.
  apply (multiply_without_coefficients_is_the_identity (T := float)
           no_coefficient two_level_fields).
  repeat constructor.
Defined.

(** ** SaberCentralBlockFactory: the registry *)

Section FactoryRegistry.
Context {Block Args Params : Type}.
Variable makeParameters : SaberCentralBlockFactory.t Block Args -> Params.
Implicit Types (makers : gmap string (SaberCentralBlockFactory.t Block Args))
               (this : SaberCentralBlockFactory.t Block Args).

Let createParameters := SaberCentralBlockFactory.createParameters makeParameters.

(** The registry after the constructor has run. *)
Let registered (name : string) this makers :=
  fst (fst (SaberCentralBlockFactory.new name this makers)).

(** X9. A registration under a fresh name succeeds without a log line;
    after it [create] and [createParameters] with that name run the new
    factory's [make] and [makeParameters], and with every other name they
    do what they did before the registration. *)
Theorem fresh_registration_is_found_by_create makers (name : string) this (args : Args) :
  makers !! name = None ->
  snd (SaberCentralBlockFactory.new name this makers) = Ok tt
  /\ snd (fst (SaberCentralBlockFactory.new name this makers)) = []
  /\ SaberCentralBlockFactory.create (registered name this makers) name args
     = ([], [name], Ok (SaberCentralBlockFactory.make this args))
  /\ createParameters (registered name this makers) name = Ok (makeParameters this)
  /\ forall id : string, id <> name ->
       SaberCentralBlockFactory.create (registered name this makers) id args
       = SaberCentralBlockFactory.create makers id args
       /\ createParameters (registered name this makers) id = createParameters makers id.
Proof.
  intros Hnone. subst registered createParameters.
  unfold SaberCentralBlockFactory.new, SaberCentralBlockFactory.create,
    SaberCentralBlockFactory.createParameters.
  rewrite Hnone. cbn [fst snd]. rewrite lookup_insert_eq.
  repeat split; try done; by rewrite lookup_insert_ne.
Qed.

(** X10. No registration, successful or refused, removes or replaces a
    factory that is registered: whatever was found under a name before the
    constructor ran is found under it afterwards. *)
Theorem registration_keeps_registered_factories makers (name id : string) this
    (first : SaberCentralBlockFactory.t Block Args) :
  makers !! id = Some first ->
  registered name this makers !! id = Some first.
Proof.
  intros Hid. subst registered. unfold SaberCentralBlockFactory.new.
  destruct (makers !! name) eqn:Hname; cbn [fst]; [exact Hid |].
  rewrite lookup_insert_ne; [exact Hid | congruence].
Qed.

(** X11. The registry does not depend on the order in which two factories
    with different names are constructed (the order of static
    initialisation), whether or not either name was taken already. *)
Theorem registration_order_is_irrelevant makers (name1 name2 : string)
    (this1 this2 : SaberCentralBlockFactory.t Block Args) :
  name1 <> name2 ->
  registered name2 this2 (registered name1 this1 makers)
  = registered name1 this1 (registered name2 this2 makers).
Proof.
  intros Hne. subst registered. unfold SaberCentralBlockFactory.new.
  destruct (makers !! name1) eqn:H1, (makers !! name2) eqn:H2; cbn [fst];
    rewrite ?H1, ?H2, ?lookup_insert_ne, ?H1, ?H2 by congruence; cbn [fst];
    try reflexivity.
  by apply insert_insert_ne.
Qed.

End FactoryRegistry.

Lemma fresh_registration_is_found_by_create_witness :
  SaberCentralBlockFactory.create
    (fst (fst (SaberCentralBlockFactory.new "spectral correlation" ID_factory ID_registry)))
    "spectral correlation" tt
  = ([], ["spectral correlation"], Ok ID_block)
  /\ SaberCentralBlockFactory.create
       (fst (fst (SaberCentralBlockFactory.new "spectral correlation" ID_factory ID_registry)))
       "ID" tt
     = SaberCentralBlockFactory.create ID_registry "ID" tt.
Proof.
  destruct (fresh_registration_is_found_by_create (fun _ => tt) ID_registry
              "spectral correlation" ID_factory tt eq_refl)
    as (_ & _ & Hcreate & _ & Hframe).
  split; [exact Hcreate |]. apply (Hframe "ID"). discriminate.
Defined.

Lemma registration_keeps_registered_factories_witness :
  fst (fst (SaberCentralBlockFactory.new "ID" (SaberCentralBlockFactory.mk (fun _ => ID_block))
              ID_registry)) !! "ID" = Some ID_factory
  /\ fst (fst (SaberCentralBlockFactory.new "BUMP_NICAS" ID_factory ID_registry)) !! "ID"
     = Some ID_factory.
Proof.
  split.
  - apply (registration_keeps_registered_factories ID_registry "ID" "ID"). reflexivity.
  - apply (registration_keeps_registered_factories ID_registry "BUMP_NICAS" "ID"). reflexivity.
Defined.

Lemma registration_order_is_irrelevant_witness :
  fst (fst (SaberCentralBlockFactory.new "gsi covariance" ID_factory
       (fst (fst (SaberCentralBlockFactory.new "spectral correlation" ID_factory ID_registry)))))
  = fst (fst (SaberCentralBlockFactory.new "spectral correlation" ID_factory
       (fst (fst (SaberCentralBlockFactory.new "gsi covariance" ID_factory ID_registry))))).
Proof.
  apply (registration_order_is_irrelevant ID_registry "spectral correlation" "gsi covariance").
  discriminate.
Defined.

(** ** gsi_covariance_mod: addhalo_ and remhalo_ *)

Lemma fold_left_bind {A B C : Type} (F : A -> C -> A) (f : B -> list C) (l : list B) (a : A) :
  fold_left F (l ≫= f) a = fold_left (fun a x => fold_left F (f x) a) l a.
Proof.
  revert a. induction l as [|x l IH]; intros a; [reflexivity |].
  cbn [mbind list_bind fold_left]. rewrite fold_left_app. apply IH.
Qed.

Lemma fold_left_fmap {A B C : Type} (F : A -> C -> A) (g : B -> C) (l : list B) (a : A) :
  fold_left F (g <$> l) a = fold_left (fun a x => F a (g x)) l a.
Proof. revert a. induction l as [|x l IH]; intros a; [reflexivity | apply IH]. Qed.

Lemma elem_of_interior (mylat2 mylon2 jj ii : nat) :
  (jj, ii) ∈ interior mylat2 mylon2 <-> (1 <= jj <= mylat2 - 2) /\ (1 <= ii <= mylon2 - 2).
Proof.
  unfold interior. rewrite list_elem_of_bind. split.
  - intros (j & Hin & Hj). apply list_elem_of_fmap in Hin as (i & Heq & Hi).
    injection Heq as -> ->. apply elem_of_seq in Hj, Hi. lia.
  - intros [Hj Hi]. exists jj. split.
    + apply list_elem_of_fmap. exists ii. split; [reflexivity |]. apply elem_of_seq. lia.
    + apply elem_of_seq. lia.
Qed.

Lemma NoDup_interior (mylat2 mylon2 : nat) : NoDup (interior mylat2 mylon2).
Proof.
  unfold interior. apply NoDup_bind.
  - intros j1 j2 p _ _ H1 H2.
    apply list_elem_of_fmap in H1 as (i1 & -> & _).
    apply list_elem_of_fmap in H2 as (i2 & Heq & _). congruence.
  - intros j _. apply NoDup_fmap; [intros i1 i2; congruence | apply NoDup_seq].
  - apply NoDup_seq.
Qed.

Lemma length_interior (mylat2 mylon2 : nat) :
  length (interior mylat2 mylon2) = (mylat2 - 2) * (mylon2 - 2).
Proof.
  unfold interior.
  assert (Hgen : forall js ks : list nat,
             length (js ≫= (fun jj => pair jj <$> ks)) = length js * length ks).
  { intros js ks. induction js as [|j js IH]; [reflexivity |].
    cbn [mbind list_bind length]. rewrite length_app, length_fmap.
    change (length (js ≫= (fun jj => pair jj <$> ks)) = length js * length ks) in IH.
    rewrite IH. lia. }
  by rewrite Hgen, !length_seq.
Qed.

Section HaloLoops.
Context {T : Type} {ST : Scalar T}.
Implicit Types (var : list (list T)) (rank old : list T) (p q : nat * nat).

Lemma interior_loop_flat {S : Type} (mylat2 mylon2 : nat)
    (body : nat -> nat -> nat -> S -> S) (s : S) :
  gsi_covariance_mod.interior_loop mylat2 mylon2 body s
  = fold_left (fun st p => (Datatypes.S (fst st), body (fst st) (fst p) (snd p) (snd st)))
              (interior mylat2 mylon2) (0, s).
Proof.
  unfold gsi_covariance_mod.interior_loop, interior. rewrite fold_left_bind.
  apply fold_left_pointwise. intros st jj. by rewrite fold_left_fmap.
Qed.

Lemma size2_row_lengths var : gsi_covariance_mod.size2 var = default 0 (head (row_lengths var)).
Proof. by destruct var. Qed.

(** *** remhalo_ *)

Lemma remhalo_loop (f : nat * nat -> T) (ps : list (nat * nat)) :
  forall (k : nat) old,
    k + length ps <= length old ->
    snd (fold_left (fun st p => (S (fst st), <[fst st := f p]> (snd st))) ps (k, old))
    = take k old ++ (f <$> ps) ++ drop (k + length ps) old.
Proof.
  induction ps as [|p ps IH]; intros k old Hlen; cbn [fold_left fst snd length fmap list_fmap].
  - rewrite Nat.add_0_r. cbn [app]. by rewrite take_drop.
  - cbn [length] in Hlen. rewrite IH by (rewrite length_insert; lia).
    rewrite drop_insert_lt by lia.
    rewrite (take_S_r (<[k := f p]> old) k (f p)) by (apply list_lookup_insert_eq; lia).
    rewrite take_insert_ge by lia. rewrite <- app_assoc. cbn [app].
    by replace (S k + length ps) with (k + S (length ps)) by lia.
Qed.

Lemma remhalo_spec var old :
  length old = length (interior (length var) (gsi_covariance_mod.size2 var)) ->
  gsi_covariance_mod.remhalo_ var old
  = (fun p => view2 var (fst p) (snd p)) <$> interior (length var) (gsi_covariance_mod.size2 var).
Proof.
  intros Hlen. unfold gsi_covariance_mod.remhalo_. rewrite interior_loop_flat.
  rewrite (remhalo_loop (fun p => view2 var (fst p) (snd p))) by lia.
  cbn [take app plus]. rewrite drop_ge by lia. by rewrite app_nil_r.
Qed.

(** *** addhalo_ *)

Lemma view2_set_other var (jj ii jj' ii' : nat) (x : T) :
  (jj, ii) <> (jj', ii') ->
  view2 (view2_set var jj ii x) jj' ii' = view2 var jj' ii'.
Proof.
  intros Hne. unfold view2, view2_set.
  destruct (decide (jj = jj')) as [<- | Hjj].
  - rewrite list_lookup_alter_eq. destruct (var !! jj) as [row|]; [| reflexivity].
    cbn [fmap option_fmap option_map]. rewrite list_lookup_insert_ne; [reflexivity | congruence].
  - by rewrite list_lookup_alter_ne.
Qed.

Lemma view2_set_same var (jj ii : nat) (x : T) (n : nat) :
  row_lengths var !! jj = Some n -> ii < n ->
  view2 (view2_set var jj ii x) jj ii = x.
Proof.
  unfold row_lengths. rewrite list_lookup_fmap. intros Hrow Hii.
  unfold view2, view2_set. rewrite list_lookup_alter_eq.
  destruct (var !! jj) as [row|]; [| discriminate]. injection Hrow as <-.
  cbn [fmap option_fmap option_map]. by rewrite list_lookup_insert_eq.
Qed.

Lemma addhalo_loop_lengths rank (ps : list (nat * nat)) (k : nat) var :
  row_lengths (snd (fold_left (addhalo_step rank) ps (k, var))) = row_lengths var.
Proof.
  revert k var. induction ps as [|p ps IH]; intros k var; [reflexivity |].
  cbn [fold_left]. unfold addhalo_step at 2. cbn [fst snd]. rewrite IH.
  apply view2_set_lengths.
Qed.

Lemma addhalo_loop_frame rank (ps : list (nat * nat)) (k : nat) var q :
  q ∉ ps ->
  view2 (snd (fold_left (addhalo_step rank) ps (k, var))) (fst q) (snd q)
  = view2 var (fst q) (snd q).
Proof.
  revert k var. induction ps as [|p ps IH]; intros k var Hq; [reflexivity |].
  apply not_elem_of_cons in Hq as [Hne Hq].
  cbn [fold_left]. unfold addhalo_step at 2. cbn [fst snd]. rewrite IH by done.
  apply view2_set_other. destruct p, q. cbn [fst snd]. congruence.
Qed.

Lemma addhalo_loop_hit rank (ps : list (nat * nat)) :
  NoDup ps ->
  forall (k : nat) var,
    (forall p, p ∈ ps -> exists n, row_lengths var !! fst p = Some n /\ snd p < n) ->
    forall (i : nat) p,
      ps !! i = Some p ->
      view2 (snd (fold_left (addhalo_step rank) ps (k, var))) (fst p) (snd p)
      = default s_zero (rank !! (k + i)).
Proof.
  induction 1 as [|p0 ps Hnotin Hnodup IH]; intros k var Hvalid i p Hi; [done |].
  cbn [fold_left]. unfold addhalo_step at 2. cbn [fst snd].
  destruct i as [|i].
  - injection Hi as <-. rewrite addhalo_loop_frame by done. rewrite Nat.add_0_r.
    destruct (Hvalid p0) as (n & Hn & Hlt); [by left |]. by apply (view2_set_same _ _ _ _ n).
  - cbn [lookup list_lookup] in Hi. replace (k + S i) with (S k + i) by lia.
    apply IH; [| exact Hi].
    intros p' Hp'. unfold row_lengths. rewrite view2_set_lengths.
    apply Hvalid. by right.
Qed.

Lemma addhalo_spec rank var :
  gsi_covariance_mod.addhalo_ rank var
  = let mylat2 := length var in
    let mylon2 := gsi_covariance_mod.size2 var in
    let ndim := ((Z.of_nat mylat2 - 2) * (Z.of_nat mylon2 - 2))%Z in
    let fill := s_div (fold_left s_add (take (Z.to_nat ndim) rank) s_zero)
                      (gsi_covariance_mod.real_of ndim) in
    snd (fold_left (addhalo_step rank) (interior mylat2 mylon2)
                   (0, map (map (fun _ => fill)) var)).
Proof. unfold gsi_covariance_mod.addhalo_. cbv zeta. by rewrite interior_loop_flat. Qed.

Lemma row_lengths_fill (f : T -> T) var : row_lengths (map (map f) var) = row_lengths var.
Proof.
  induction var as [|row var IH]; [reflexivity |].
  cbn [map]. unfold row_lengths in *. cbn [fmap list_fmap]. by rewrite length_map, IH.
Qed.

Lemma addhalo_row_lengths rank var :
  row_lengths (gsi_covariance_mod.addhalo_ rank var) = row_lengths var.
Proof.
  rewrite addhalo_spec. cbv zeta. rewrite addhalo_loop_lengths. apply row_lengths_fill.
Qed.

Lemma row_lengths_size var var' :
  row_lengths var' = row_lengths var ->
  length var' = length var /\ gsi_covariance_mod.size2 var' = gsi_covariance_mod.size2 var.
Proof.
  intros Heq. split.
  - apply (f_equal length) in Heq. unfold row_lengths in Heq. by rewrite !length_fmap in Heq.
  - rewrite !size2_row_lengths. by rewrite Heq.
Qed.

Lemma interior_valid var p :
  Forall (fun row => length row = gsi_covariance_mod.size2 var) var ->
  p ∈ interior (length var) (gsi_covariance_mod.size2 var) ->
  exists n, row_lengths var !! fst p = Some n /\ snd p < n.
Proof.
  intros Hrect Hp. destruct p as [jj ii]. apply elem_of_interior in Hp as [Hjj Hii].
  cbn [fst snd]. destruct (lookup_lt_is_Some_2 var jj) as [row Hrow]; [lia |].
  exists (length row). unfold row_lengths. rewrite list_lookup_fmap, Hrow. split; [done |].
  rewrite (proj1 (Forall_lookup _ _) Hrect jj row Hrow). lia.
Qed.

(** The interior of what [addhalo_] returns, read in loop order, is [rank]. *)
Lemma addhalo_interior rank var :
  Forall (fun row => length row = gsi_covariance_mod.size2 var) var ->
  length rank = (length var - 2) * (gsi_covariance_mod.size2 var - 2) ->
  (fun p => view2 (gsi_covariance_mod.addhalo_ rank var) (fst p) (snd p))
    <$> interior (length var) (gsi_covariance_mod.size2 var)
  = rank.
Proof.
  intros Hrect Hlen. rewrite addhalo_spec. cbv zeta.
  set (filled := map (map _) var).
  assert (Hshape : row_lengths filled = row_lengths var).
  { apply row_lengths_fill. }
  apply list_eq. intros i. rewrite list_lookup_fmap.
  destruct (interior (length var) (gsi_covariance_mod.size2 var) !! i) as [p|] eqn:Hp.
  - cbn [fmap option_fmap option_map].
    rewrite (addhalo_loop_hit rank _ (NoDup_interior _ _) 0 filled) with (i := i); [| | exact Hp].
    + cbn [plus]. apply lookup_lt_Some in Hp. rewrite length_interior in Hp.
      destruct (lookup_lt_is_Some_2 rank i) as [x Hx]; [lia |]. by rewrite Hx.
    + intros p' Hp'. rewrite Hshape. by apply interior_valid.
  - cbn [fmap option_fmap option_map]. symmetry. apply lookup_ge_None_2.
    apply lookup_ge_None_1 in Hp. rewrite length_interior in Hp. lia.
Qed.

Lemma remhalo_addhalo_back rank var old :
  Forall (fun row => length row = gsi_covariance_mod.size2 var) var ->
  length rank = (length var - 2) * (gsi_covariance_mod.size2 var - 2) ->
  length old = length rank ->
  gsi_covariance_mod.remhalo_ (gsi_covariance_mod.addhalo_ rank var) old = rank.
Proof.
  intros Hrect Hlen Hold.
  destruct (row_lengths_size var _ (addhalo_row_lengths rank var)) as [Hlat Hlon].
  rewrite remhalo_spec; rewrite Hlat, Hlon.
  - by apply addhalo_interior.
  - rewrite length_interior. lia.
Qed.

(** X12. [remhalo_] undoes [addhalo_]: for a rectangular array [var] and a
    vector [rank] with one entry per interior point, removing the halo of
    the array that [addhalo_] fills from [rank] gives [rank] back, whatever
    [var] and the output vector held before. *)
Theorem remhalo_addhalo_round_trip rank var old :
  Forall (fun row => length row = gsi_covariance_mod.size2 var) var ->
  length rank = (length var - 2) * (gsi_covariance_mod.size2 var - 2) ->
  length old = length rank ->
  gsi_covariance_mod.remhalo_ (gsi_covariance_mod.addhalo_ rank var) old = rank.
Proof.
  intros Hrect Hlen Hold.
  destruct (row_lengths_size var _ (addhalo_row_lengths rank var)) as [Hlat Hlon].
  rewrite remhalo_spec; rewrite Hlat, Hlon.
  - by apply addhalo_interior.
  - rewrite length_interior. lia.
Qed.

End HaloLoops.

Lemma remhalo_addhalo_round_trip_witness :
  gsi_covariance_mod.remhalo_ (gsi_covariance_mod.addhalo_ halo_rank halo_array)
    (replicate 6 0%float)
  = halo_rank.
Proof.
  apply (remhalo_addhalo_round_trip halo_rank halo_array (replicate 6 0%float)).
  - repeat constructor.
  - reflexivity.
  - reflexivity.
Defined.

Section HaloLevels.
Context {T : Type} {ST : Scalar T}.
Implicit Types (var aux : list (list T)) (rank : list T).

(** On a rectangular array with a halo, the fill value of [addhalo_] is
    the sum of [rank] over its size. *)
Lemma addhalo_halo rank var (jj ii : nat) :
  (jj, ii) ∉ interior (length var) (gsi_covariance_mod.size2 var) ->
  jj < length var -> ii < gsi_covariance_mod.size2 var ->
  Forall (fun row => length row = gsi_covariance_mod.size2 var) var ->
  view2 (gsi_covariance_mod.addhalo_ rank var) jj ii
  = let ndim := ((Z.of_nat (length var) - 2)
                 * (Z.of_nat (gsi_covariance_mod.size2 var) - 2))%Z in
    s_div (fold_left s_add (take (Z.to_nat ndim) rank) s_zero)
          (gsi_covariance_mod.real_of ndim).
Proof.
  intros Hnot Hjj Hii Hrect. rewrite addhalo_spec. cbv zeta.
  rewrite (addhalo_loop_frame rank _ 0 _ (jj, ii)) by exact Hnot. cbn [fst snd].
  unfold view2. rewrite map_fmap, list_lookup_fmap.
  destruct (lookup_lt_is_Some_2 var jj Hjj) as [row Hrow]. rewrite Hrow.
  cbn [fmap option_fmap option_map]. rewrite map_fmap, list_lookup_fmap.
  destruct (lookup_lt_is_Some_2 row ii) as [x Hx].
  { rewrite (proj1 (Forall_lookup _ _) Hrect jj row Hrow). exact Hii. }
  by rewrite Hx.
Qed.

(** X13. On a rectangular array with at least two rows and two columns,
    [addhalo_] keeps the shape of the array and writes the same value to
    every point of the halo (first and last row, first and last column):
    the sum of [rank] divided by its size, when [rank] has one entry per
    interior point. *)
Theorem addhalo_fills_the_halo_with_the_mean rank var (jj ii : nat) :
  Forall (fun row => length row = gsi_covariance_mod.size2 var) var ->
  2 <= length var -> 2 <= gsi_covariance_mod.size2 var ->
  length rank = (length var - 2) * (gsi_covariance_mod.size2 var - 2) ->
  jj < length var -> ii < gsi_covariance_mod.size2 var ->
  jj = 0 \/ jj = length var - 1 \/ ii = 0 \/ ii = gsi_covariance_mod.size2 var - 1 ->
  row_lengths (gsi_covariance_mod.addhalo_ rank var) = row_lengths var
  /\ view2 (gsi_covariance_mod.addhalo_ rank var) jj ii
     = s_div (fold_left s_add rank s_zero) (s_of_nat (length rank)).
Proof.
  intros Hrect Hlat Hlon Hlen Hjj Hii Hhalo. split; [apply addhalo_row_lengths |].
  rewrite addhalo_halo; [| | done | done | done].
  - cbv zeta.
    replace ((Z.of_nat (length var) - 2) * (Z.of_nat (gsi_covariance_mod.size2 var) - 2))%Z
      with (Z.of_nat (length rank))
      by (rewrite Hlen, Nat2Z.inj_mul, !Nat2Z.inj_sub by lia; reflexivity).
    unfold gsi_covariance_mod.real_of.
    destruct (Z.ltb_spec (Z.of_nat (length rank)) 0) as [Hneg | _]; [lia |].
    rewrite Nat2Z.id. by rewrite firstn_all.
  - rewrite elem_of_interior. lia.
Qed.

(** [addhalo_] reads the shape of [var] only. *)
Lemma addhalo_shape_only rank var var' :
  row_lengths var' = row_lengths var ->
  gsi_covariance_mod.addhalo_ rank var' = gsi_covariance_mod.addhalo_ rank var.
Proof.
  intros Hshape. destruct (row_lengths_size var var' Hshape) as [Hlat Hlon].
  rewrite !addhalo_spec. cbv zeta. rewrite Hlat, Hlon. do 3 f_equal.
  set (fill := s_div _ _). clearbody fill. clear Hlat Hlon.
  revert var Hshape. induction var' as [|row' var' IH]; intros [|row var] Hshape;
    try discriminate; [reflexivity |].
  unfold row_lengths in Hshape. cbn [fmap list_fmap] in Hshape.
  injection Hshape as Hrow Hrest. cbn [map]. f_equal; [| by apply IH].
  clear -Hrow. revert row Hrow. induction row' as [|x row' IH]; intros [|y row] Hrow;
    try discriminate; [reflexivity |].
  cbn [map]. f_equal. apply IH. by injection Hrow.
Qed.

(** A loop that reuses a work array whose content does not matter. *)
Lemma work_array_loop {A : Type} (P : A -> Prop) (h : nat -> A -> A) (H : nat -> A)
    (pos : nat -> nat) (ks : list nat) :
  (forall k a, P a -> P (h k a) /\ h k a = H k) ->
  forall (a : A) (g : list A),
    P a ->
    snd (fold_left (fun (st : A * list A) k =>
                      let a := h k (fst st) in (a, <[pos k := a]> (snd st))) ks (a, g))
    = fold_left (fun g k => <[pos k := H k]> g) ks g.
Proof.
  intros Hh. induction ks as [|k ks IH]; intros a g Ha; [reflexivity |].
  cbn [fold_left fst snd]. destruct (Hh k a Ha) as [HP Heq]. rewrite IH by exact HP.
  by rewrite Heq.
Qed.

Lemma length_inserts {A : Type} (H : nat -> A) (pos : nat -> nat) (ks : list nat)
    (g : list A) :
  length (fold_left (fun g k => <[pos k := H k]> g) ks g) = length g.
Proof.
  revert g. induction ks as [|k ks IH]; intros g; [reflexivity |].
  cbn [fold_left]. by rewrite IH, length_insert.
Qed.

Lemma lookup_inserts {A : Type} (H : nat -> A) (pos : nat -> nat) (ks : list nat) :
  NoDup (pos <$> ks) ->
  forall (g : list A) (k : nat),
    k ∈ ks -> pos k < length g ->
    fold_left (fun g k => <[pos k := H k]> g) ks g !! pos k = Some (H k).
Proof.
  induction ks as [|k0 ks IH] using rev_ind; intros Hnodup g k Hk Hlt;
    [by apply elem_of_nil in Hk |].
  rewrite fold_left_app. cbn [fold_left].
  rewrite fmap_app in Hnodup. apply NoDup_app in Hnodup as (Hnodup & Hnotin & _).
  apply elem_of_app in Hk as [Hk | Hk].
  - rewrite list_lookup_insert_ne.
    + by apply IH.
    + intros Heq. apply (Hnotin (pos k)).
      * by apply list_elem_of_fmap_2.
      * rewrite <- Heq. cbn [fmap list_fmap]. by left.
  - apply list_elem_of_singleton in Hk as ->.
    apply list_lookup_insert_eq. by rewrite length_inserts.
Qed.

(** The level map is its own inverse on [1 .. npz]. *)
Lemma gsi_level_involutive (vflip : bool) (npz k : nat) :
  1 <= k <= npz ->
  1 <= gsi_covariance_mod.gsi_level vflip npz k <= npz
  /\ gsi_covariance_mod.gsi_level vflip npz (gsi_covariance_mod.gsi_level vflip npz k) = k.
Proof. unfold gsi_covariance_mod.gsi_level. destruct vflip; lia. Qed.

Lemma NoDup_gsi_levels (vflip : bool) (npz : nat) :
  NoDup ((fun k => gsi_covariance_mod.gsi_level vflip npz k - 1) <$> seq 1 npz).
Proof.
  apply NoDup_fmap_2_strong; [| apply NoDup_seq].
  intros k1 k2 H1 H2 Heq. apply elem_of_seq in H1, H2.
  unfold gsi_covariance_mod.gsi_level in Heq. destruct vflip; lia.
Qed.

Lemma to_gsivar3d_lookup (vflip : bool) (npz : nat)
    (rank2 : list (list T)) (gsivar3d : list (list (list T))) aux (k : nat) :
  length gsivar3d = npz -> 1 <= k <= npz ->
  gsi_covariance_mod.to_gsivar3d vflip npz rank2 gsivar3d aux
    !! (gsi_covariance_mod.gsi_level vflip npz k - 1)
  = Some (gsi_covariance_mod.addhalo_ (default [] (rank2 !! (k - 1))) aux).
Proof.
  intros Hg Hk. unfold gsi_covariance_mod.to_gsivar3d.
  rewrite (work_array_loop (fun a => row_lengths a = row_lengths aux)
             (fun k a => gsi_covariance_mod.addhalo_ (default [] (rank2 !! (k - 1))) a)
             (fun k => gsi_covariance_mod.addhalo_ (default [] (rank2 !! (k - 1))) aux)
             (fun k => gsi_covariance_mod.gsi_level vflip npz k - 1)); [| | reflexivity].
  - apply (lookup_inserts
             (fun k => gsi_covariance_mod.addhalo_ (default [] (rank2 !! (k - 1))) aux)
             (fun k => gsi_covariance_mod.gsi_level vflip npz k - 1)).
    + apply NoDup_gsi_levels.
    + apply elem_of_seq. lia.
    + destruct (gsi_level_involutive vflip npz k Hk) as [Hrange _]. lia.
  - intros k' a Ha. split.
    + by rewrite addhalo_row_lengths.
    + by apply addhalo_shape_only.
Qed.

Lemma length_to_gsivar3d (vflip : bool) (npz : nat)
    (rank2 : list (list T)) (gsivar3d : list (list (list T))) aux :
  length (gsi_covariance_mod.to_gsivar3d vflip npz rank2 gsivar3d aux) = length gsivar3d.
Proof.
  unfold gsi_covariance_mod.to_gsivar3d.
  rewrite (work_array_loop (fun a => row_lengths a = row_lengths aux)
             (fun k a => gsi_covariance_mod.addhalo_ (default [] (rank2 !! (k - 1))) a)
             (fun k => gsi_covariance_mod.addhalo_ (default [] (rank2 !! (k - 1))) aux)
             (fun k => gsi_covariance_mod.gsi_level vflip npz k - 1)); [| | reflexivity].
  - apply length_inserts.
  - intros k' a Ha. split.
    + by rewrite addhalo_row_lengths.
    + by apply addhalo_shape_only.
Qed.

(** X14. Converting the levels of a field to a GSI variable and back gives
    the field again, with the vertical flip and without it: level [k] goes
    to level [npz-k+1] (or [k]) with a halo, and comes back from it without
    the halo, whatever the GSI variable, the output and the two work arrays
    held before. *)
Theorem from_gsivar3d_to_gsivar3d_round_trip (vflip : bool) (npz : nat)
    (rank2 : list (list T)) (gsivar3d : list (list (list T))) aux
    (rank2_out : list (list T)) (aux1 : list T) :
  Forall (fun row => length row = gsi_covariance_mod.size2 aux) aux ->
  length rank2 = npz ->
  Forall (fun rank => length rank = (length aux - 2) * (gsi_covariance_mod.size2 aux - 2))
         rank2 ->
  length gsivar3d = npz ->
  length rank2_out = npz ->
  length aux1 = (length aux - 2) * (gsi_covariance_mod.size2 aux - 2) ->
  gsi_covariance_mod.from_gsivar3d vflip npz
    (gsi_covariance_mod.to_gsivar3d vflip npz rank2 gsivar3d aux) rank2_out aux1
  = rank2.
Proof.
  intros Hrect Hrank2 Hranks Hg Hout Haux1.
  set (g' := gsi_covariance_mod.to_gsivar3d vflip npz rank2 gsivar3d aux).
  set (n := (length aux - 2) * (gsi_covariance_mod.size2 aux - 2)) in *.
  set (pos := fun k => gsi_covariance_mod.gsi_level vflip npz k - 1).
  (* what comes back at the level that [k] is written to *)
  assert (Hlevel : forall k, 1 <= k <= npz ->
             exists rank, rank2 !! pos k = Some rank
                          /\ g' !! (k - 1) = Some (gsi_covariance_mod.addhalo_ rank aux)).
  { intros k Hk. destruct (gsi_level_involutive vflip npz k Hk) as [Hrange Hinv].
    destruct (lookup_lt_is_Some_2 rank2 (pos k)) as [rank Hr]; [subst pos; cbn; lia |].
    exists rank. split; [exact Hr |].
    pose proof (to_gsivar3d_lookup vflip npz rank2 gsivar3d aux
                  (gsi_covariance_mod.gsi_level vflip npz k) Hg Hrange) as Hlook.
    rewrite Hinv in Hlook. fold g' in Hlook. rewrite Hlook. subst pos. cbn in Hr.
    by rewrite Hr. }
  unfold gsi_covariance_mod.from_gsivar3d.
  assert (Hloop : forall ks a1 out,
             (forall k, k ∈ ks -> 1 <= k <= npz) -> length a1 = n ->
             snd (fold_left
                    (fun (st : list T * list (list T)) k =>
                       let aux1 := gsi_covariance_mod.remhalo_ (default [] (g' !! (k - 1)))
                                     (fst st) in
                       (aux1, <[pos k := aux1]> (snd st))) ks (a1, out))
             = fold_left (fun out k => <[pos k := default [] (rank2 !! pos k)]> out) ks out).
  { induction ks as [|k ks IH]; intros a1 out Hks Ha1; [reflexivity |].
    cbn [fold_left fst snd].
    destruct (Hlevel k) as (rank & Hr & Hgk); [apply Hks; by left |].
    assert (Hrank : length rank = n).
    { exact (proj1 (Forall_lookup _ _) Hranks _ _ Hr). }
    rewrite Hgk, Hr. cbn [default]. change (Datatypes.id ?x) with x.
    rewrite remhalo_addhalo_back by (done || lia).
    apply IH; [| exact Hrank]. intros k' Hk'. apply Hks. by right. }
  rewrite Hloop; [| intros k Hk; apply elem_of_seq in Hk; lia | exact Haux1].
  apply list_eq. intros j.
  destruct (decide (j < npz)) as [Hj | Hj].
  - destruct (gsi_level_involutive vflip npz (S j)) as [Hrange Hinv]; [lia |].
    assert (Hpos : pos (gsi_covariance_mod.gsi_level vflip npz (S j)) = j).
    { subst pos. cbn beta. rewrite Hinv. lia. }
    rewrite <- Hpos at 1.
    rewrite (lookup_inserts (fun k => default [] (rank2 !! pos k)) pos).
    + rewrite Hpos. destruct (lookup_lt_is_Some_2 rank2 j) as [rank Hr]; [lia |].
      by rewrite Hr.
    + apply NoDup_gsi_levels.
    + apply elem_of_seq. lia.
    + rewrite Hpos. lia.
  - rewrite !lookup_ge_None_2; [reflexivity | lia |].
    rewrite (length_inserts (fun k => default [] (rank2 !! pos k)) pos). lia.
Qed.

End HaloLevels.

Lemma addhalo_fills_the_halo_with_the_mean_witness :
  row_lengths (gsi_covariance_mod.addhalo_ halo_rank halo_array) = [5; 5; 5; 5]
  /\ view2 (gsi_covariance_mod.addhalo_ halo_rank halo_array) 3 2 = 3.5%float.
Proof.
  refine (addhalo_fills_the_halo_with_the_mean halo_rank halo_array 3 2 _ _ _ _ _ _ _).
  - repeat constructor.
  - vm_compute. lia.
  - vm_compute. lia.
  - reflexivity.
  - vm_compute. lia.
  - vm_compute. lia.
  - right. left. reflexivity.
Defined.

Lemma from_gsivar3d_to_gsivar3d_round_trip_witness :
  gsi_covariance_mod.from_gsivar3d true 3
    (gsi_covariance_mod.to_gsivar3d true 3 halo_levels (replicate 3 []) halo_array)
    (replicate 3 []) (replicate 6 0%float)
  = halo_levels.
Proof.
  apply (from_gsivar3d_to_gsivar3d_round_trip true 3 halo_levels (replicate 3 [])
           halo_array (replicate 3 []) (replicate 6 0%float)).
  - repeat constructor.
  - reflexivity.
  - repeat constructor.
  - reflexivity.
  - reflexivity.
  - reflexivity.
Defined.

(** ** gsi_covariance_mod: the list of variables to be done *)

Lemma not_filled_marked (e : string) :
  gsi_covariance_mod.not_filled
    (fortran.assign gsi_covariance_mod.tbdlen ("filled-" ++ e)) = false.
Proof. reflexivity. Qed.

Lemma trim_nonblank (c : ascii) (r : string) :
  Ascii.eqb c fortran.blank = false -> exists r', fortran.trim (String c r) = String c r'.
Proof.
  intros Hc. cbn [fortran.trim]. destruct (fortran.trim r) as [|c' r'].
  - rewrite Hc. by eexists.
  - by eexists.
Qed.

(** A marked entry is none of the names the fix-ups look for. *)
Lemma marked_not_eq (e name : string) :
  name ∈ ["tv"; "ts"; "prse"] ->
  fortran.eq (fortran.assign gsi_covariance_mod.tbdlen ("filled-" ++ e)) name = false.
Proof.
  intros Hname. unfold fortran.eq.
  assert (Hf : exists r, fortran.assign gsi_covariance_mod.tbdlen ("filled-" ++ e)
                         = String "f" r) by (eexists; reflexivity).
  destruct Hf as [r ->].
  destruct (trim_nonblank "f" r eq_refl) as [r' ->].
  repeat (apply elem_of_cons in Hname as [-> | Hname]; [reflexivity |]).
  by apply elem_of_nil in Hname.
Qed.


(** When no entry is one the fix-ups are entered for, they leave the list
    as it is and read neither [rank2] nor [npz]. *)
Lemma fix_not_entered (self : gsi_covariance_mod.gsi_covariance)
    (jedicv : list (gset string)) (need : list string) (ntimes : nat) (which : string) :
  Forall (fun name => gsi_covariance_mod.any_eq name need = false) ["tv"; "ts"; "prse"] ->
  gsi_covariance_mod.fix_ self jedicv need ntimes which = Some need.
Proof.
  intros Hnone.
  apply Forall_cons in Hnone as [Htv Hnone].
  apply Forall_cons in Hnone as [Hts Hnone].
  apply Forall_cons in Hnone as [Hprse _].
  unfold gsi_covariance_mod.fix_, gsi_covariance_mod.cvfix_, gsi_covariance_mod.svfix_.
  destruct (gsi_covariance_mod.cv self); destruct (length need <? 1)%nat; try reflexivity.
  - cbv zeta. by rewrite Htv, Hts.
  - cbv zeta. by rewrite Hprse, Htv.
Qed.

(** A list of marked entries has no entry the fix-ups are entered for. *)
Lemma marked_not_entered (need : list string) :
  Forall (fun e => exists x, e = fortran.assign gsi_covariance_mod.tbdlen ("filled-" ++ x))
         need ->
  Forall (fun name => gsi_covariance_mod.any_eq name need = false) ["tv"; "ts"; "prse"].
Proof.
  intros Hmarked. apply Forall_forall. intros name Hname.
  unfold gsi_covariance_mod.any_eq. induction Hmarked as [|e need [x ->] _ IH];
    [reflexivity |].
  cbn [existsb]. by rewrite marked_not_eq, IH.
Qed.

(** The two calls of the fix-up in [multiply] end alike: whether [rank2]
    and [npz] are read does not depend on 'adm' or 'tlm', and the two
    branches mark the same entries. *)
Lemma fix_tlm_adm (self : gsi_covariance_mod.gsi_covariance)
    (jedicv : list (gset string)) (need : list string) (ntimes : nat) :
  gsi_covariance_mod.fix_ self jedicv need ntimes "tlm"
  = gsi_covariance_mod.fix_ self jedicv need ntimes "adm".
Proof. reflexivity. Qed.




Lemma length_tbdvars_of (gvars : list string) (slots : list gsi_covariance_mod.Slot) :
  length (gsi_covariance_mod.tbdvars_of gvars slots) = length gvars.
Proof.
  unfold gsi_covariance_mod.tbdvars_of.
  apply (fold_left_invariant (fun tbdvars => length tbdvars = length gvars)).
  - intros tbdvars slot Hlen. rewrite length_zip_with. lia.
  - apply length_map.
Qed.

(** When the bundle of a slot holds all variables, the slot rewrites the
    whole list. *)
Lemma tbdvars_of_full_slot (gvars : list string) (slot : gsi_covariance_mod.Slot) :
  Forall (fun gvar => fortran.trim gvar ∈ gsi_covariance_mod.bundle slot) gvars ->
  forall tbdvars tbdvars' : list string,
    length tbdvars = length gvars -> length tbdvars' = length gvars ->
    zip_with (gsi_covariance_mod.to_bundle slot) tbdvars gvars
    = zip_with (gsi_covariance_mod.to_bundle slot) tbdvars' gvars.
Proof.
  induction 1 as [|gvar gvars Hin _ IH]; intros [|e l] [|e' l'] Hl Hl';
    try discriminate; [reflexivity |].
  cbn [zip_with]. f_equal.
  - unfold gsi_covariance_mod.to_bundle. by rewrite bool_decide_eq_true_2.
  - apply IH; [by injection Hl | by injection Hl'].
Qed.

Lemma tbdvars_of_last_slot (gvars : list string)
    (slots : list gsi_covariance_mod.Slot) (last : gsi_covariance_mod.Slot) :
  Forall (fun gvar => fortran.trim gvar ∈ gsi_covariance_mod.bundle last) gvars ->
  gsi_covariance_mod.tbdvars_of gvars (slots ++ [last])
  = gsi_covariance_mod.tbdvars_of gvars [last].
Proof.
  intros Hfull. unfold gsi_covariance_mod.tbdvars_of at 1. rewrite fold_left_app.
  cbn [fold_left]. unfold gsi_covariance_mod.tbdvars_of. cbn [fold_left].
  apply tbdvars_of_full_slot; [exact Hfull | | apply length_map].
  apply (length_tbdvars_of gvars slots).
Qed.

(** [multiply] when the fix-up called before the B-error operator leaves
    the list [needvrs]. *)
Lemma multiply_after_fix (self : gsi_covariance_mod.gsi_covariance)
    (gvars2d gvars3d : list string) (slots : list gsi_covariance_mod.Slot)
    (needvrs : list string) :
  gsi_covariance_mod.noGSI self = false ->
  gsi_covariance_mod.fix_ self (map gsi_covariance_mod.fields slots)
    (gsi_covariance_mod.tbdvars_of (gvars2d ++ gvars3d) slots) (length slots) "adm"
  = Some needvrs ->
  gsi_covariance_mod.multiply self gvars2d gvars3d slots
  = if existsb gsi_covariance_mod.not_filled needvrs
    then (adm_lines needvrs,
          gsi_covariance_mod.abor1_ftn
            "gsi_covariance_mod*multiply: missing fields in cv(adm) ")
    else ([], gsi_covariance_mod.Returns).
Proof.
  intros HnoGSI Hfix. unfold gsi_covariance_mod.multiply. rewrite HnoGSI. cbv zeta.
  rewrite fix_tlm_adm, Hfix. unfold gsi_covariance_mod.check_available.
  by destruct (existsb gsi_covariance_mod.not_filled needvrs) eqn:Hany.
Qed.


(** X16. Only the last time slot counts for the check: when its bundle
    holds every variable and the list it leaves has no entry that the
    fix-ups are entered for ("tv", "ts", "prse"), the time slots before it
    do not change what [multiply] prints nor whether it aborts, even when
    their fields are missing. *)
Theorem multiply_checks_the_last_time_slot_only
    (self : gsi_covariance_mod.gsi_covariance) (gvars2d gvars3d : list string)
    (slots : list gsi_covariance_mod.Slot) (last : gsi_covariance_mod.Slot) :
  Forall (fun gvar => fortran.trim gvar ∈ gsi_covariance_mod.bundle last)
         (gvars2d ++ gvars3d) ->
  Forall (fun name =>
            gsi_covariance_mod.any_eq name
              (gsi_covariance_mod.tbdvars_of (gvars2d ++ gvars3d) [last]) = false)
         ["tv"; "ts"; "prse"] ->
  gsi_covariance_mod.multiply self gvars2d gvars3d (slots ++ [last])
  = gsi_covariance_mod.multiply self gvars2d gvars3d [last].
Proof.
  intros Hfull Hnone. unfold gsi_covariance_mod.multiply.
  rewrite (tbdvars_of_last_slot _ slots last Hfull).
  by rewrite !(fix_not_entered self _ _ _ _ Hnone).
Qed.

(** X17. When the bundle of the last time slot holds every variable and
    [get_rank2_] finds the field of each of them there, [multiply] returns
    and prints nothing. *)
Theorem multiply_returns_when_all_fields_are_found
    (self : gsi_covariance_mod.gsi_covariance) (gvars2d gvars3d : list string)
    (slots : list gsi_covariance_mod.Slot) (last : gsi_covariance_mod.Slot) :
  Forall (fun gvar =>
            fortran.trim gvar ∈ gsi_covariance_mod.bundle last
            /\ gsi_covariance_mod.get_rank2_ (gsi_covariance_mod.fields last)
                 (fortran.trim gvar) = 0%Z)
         (gvars2d ++ gvars3d) ->
  gsi_covariance_mod.multiply self gvars2d gvars3d (slots ++ [last])
  = ([], gsi_covariance_mod.Returns).
Proof.
  intros Hfound.
  destruct (gsi_covariance_mod.noGSI self) eqn:HnoGSI.
  { unfold gsi_covariance_mod.multiply. by rewrite HnoGSI. }
  assert (Hmarked :
            Forall (fun e => exists x,
                        e = fortran.assign gsi_covariance_mod.tbdlen ("filled-" ++ x))
                   (gsi_covariance_mod.tbdvars_of (gvars2d ++ gvars3d) (slots ++ [last]))).
  { unfold gsi_covariance_mod.tbdvars_of. rewrite fold_left_app. cbn [fold_left].
    pose proof (length_tbdvars_of (gvars2d ++ gvars3d) slots) as Hlen.
    unfold gsi_covariance_mod.tbdvars_of in Hlen. revert Hlen.
    generalize (fold_left
                  (fun tbdvars slot =>
                     zip_with (gsi_covariance_mod.to_bundle slot) tbdvars (gvars2d ++ gvars3d))
                  slots
                  (map (fun gvar => fortran.assign gsi_covariance_mod.tbdlen
                                      ("unfilled-" ++ fortran.trim gvar))
                       (gvars2d ++ gvars3d))) as tbdvars.
    induction Hfound as [|gvar gvars [Hin Hier] _ IH]; intros [|e tbdvars] Hlen;
      try discriminate; [constructor |].
    cbn [zip_with]. constructor; [| apply IH; by injection Hlen].
    unfold gsi_covariance_mod.to_bundle.
    rewrite bool_decide_eq_true_2 by done. rewrite Hier. by eexists. }
  rewrite (multiply_after_fix self gvars2d gvars3d (slots ++ [last]) _ HnoGSI
             (fix_not_entered self _ _ _ _ (marked_not_entered _ Hmarked))).
  assert (Hnone : existsb gsi_covariance_mod.not_filled
                    (gsi_covariance_mod.tbdvars_of (gvars2d ++ gvars3d) (slots ++ [last]))
                  = false).
  { induction Hmarked as [|e need [x ->] _ IH]; [reflexivity |].
    cbn [existsb]. by rewrite not_filled_marked, IH. }
  by rewrite Hnone.
Qed.

(** X26. When the fix-up called before the B-error operator leaves a list
    (it reads no variable without a value) and two or more entries of that
    list are unfilled, [multiply] prints one line for every entry of the
    list, so one for each unfilled variable, and then aborts once; [create]
    does the same with the list that the guess initialisation leaves. *)
Theorem missing_fields_reported_together
    (self : gsi_covariance_mod.gsi_covariance) (gvars2d gvars3d : list string)
    (slots : list gsi_covariance_mod.Slot) (needvrs : list string)
    (gsiguess_bkgcov_init : list string -> list string)
    (allocated : list string) (vars : list (string * string))
    (firstguess : list (gset string)) :
  let tbdvars :=
    gsiguess_bkgcov_init (gsi_covariance_mod.guess_tbdvars allocated vars firstguess) in
  gsi_covariance_mod.noGSI self = false ->
  gsi_covariance_mod.fix_ self (map gsi_covariance_mod.fields slots)
    (gsi_covariance_mod.tbdvars_of (gvars2d ++ gvars3d) slots) (length slots) "adm"
  = Some needvrs ->
  2 <= length (missing needvrs) ->
  2 <= length (missing tbdvars) ->
  (gsi_covariance_mod.multiply self gvars2d gvars3d slots
   = (adm_lines needvrs,
      gsi_covariance_mod.abor1_ftn "gsi_covariance_mod*multiply: missing fields in cv(adm) ")
   /\ forall e, e ∈ missing needvrs ->
        ["gsi_covariance_mod*multiply"; "*adm:: "; fortran.trim e] ∈ adm_lines needvrs)
  /\
  (gsi_covariance_mod.create_guess gsiguess_bkgcov_init allocated vars firstguess
   = (create_lines tbdvars,
      gsi_covariance_mod.abor1_ftn "gsi_covariance_mod*create: missing fields in fg ")
   /\ forall e, e ∈ missing tbdvars ->
        ["gsi_covariance_mod*create"; " "; fortran.trim e] ∈ create_lines tbdvars).
Proof.
  intros tbdvars HnoGSI Hfix Hneed Htbd. split; split.
  - rewrite (multiply_after_fix self gvars2d gvars3d slots needvrs HnoGSI Hfix).
    by rewrite existsb_missing by lia.
  - apply missing_printed_adm.
  - unfold gsi_covariance_mod.create_guess. fold tbdvars.
    rewrite existsb_missing by lia.
    assert (Hlen : (0 <? length tbdvars)%nat = true).
    { apply Nat.ltb_lt. unfold missing in Htbd.
      pose proof (length_filter (fun e => gsi_covariance_mod.not_filled e = true) tbdvars).
      lia. }
    rewrite Hlen. reflexivity.
  - apply missing_printed_create.
Qed.

Lemma missing_fields_reported_together_witness :
  gsi_covariance_mod.multiply (gsi_covariance_mod.mk false true false)
    ["ps"] ["u"; "v"; "t"; "q"] [two_fields_slot]
  = ([ ["gsi_covariance_mod*multiply"; "*adm:: "; "filled-ps"];
       ["gsi_covariance_mod*multiply"; "*adm:: "; "filled-u"];
       ["gsi_covariance_mod*multiply"; "*adm:: "; "v"];
       ["gsi_covariance_mod*multiply"; "*adm:: "; "t"];
       ["gsi_covariance_mod*multiply"; "*adm:: "; "q"] ],
     gsi_covariance_mod.abor1_ftn "gsi_covariance_mod*multiply: missing fields in cv(adm) ")
  /\ gsi_covariance_mod.create_guess (fun tbdvars => tbdvars)
       ["null"; "null"; "null"] [("ps", "ps"); ("u", "ua"); ("v", "va")]
       [{[ "air_pressure_at_surface" ]}]
     = ([ ["gsi_covariance_mod*create"; " "; "filled-ps"];
          ["gsi_covariance_mod*create"; " "; "u"];
          ["gsi_covariance_mod*create"; " "; "v"] ],
        gsi_covariance_mod.abor1_ftn "gsi_covariance_mod*create: missing fields in fg ").
Proof.
  pose proof (missing_fields_reported_together
                (gsi_covariance_mod.mk false true false) ["ps"] ["u"; "v"; "t"; "q"]
                [two_fields_slot]
                (gsi_covariance_mod.tbdvars_of (["ps"] ++ ["u"; "v"; "t"; "q"])
                   [two_fields_slot])
                (fun tbdvars => tbdvars)
                ["null"; "null"; "null"] [("ps", "ps"); ("u", "ua"); ("v", "va")]
                [{[ "air_pressure_at_surface" ]}]) as H.
  cbv zeta in H.
  destruct H as [[Hmul _] [Hcreate _]].
  - reflexivity.
  - reflexivity.
  - vm_compute. lia.
  - vm_compute. lia.
  - rewrite Hmul, Hcreate. vm_compute. split; reflexivity.
Defined.

Lemma multiply_checks_the_last_time_slot_only_witness :
  gsi_covariance_mod.multiply (gsi_covariance_mod.mk false true false) ["ps"] ["u"; "v"]
    ([wind_slot_incomplete] ++ [wind_slot_complete])
  = gsi_covariance_mod.multiply (gsi_covariance_mod.mk false true false) ["ps"] ["u"; "v"]
      [wind_slot_complete].
Proof.
  apply (multiply_checks_the_last_time_slot_only (gsi_covariance_mod.mk false true false)
           ["ps"] ["u"; "v"] [wind_slot_incomplete] wind_slot_complete).
  - repeat constructor; vm_compute; set_solver.
  - repeat constructor.
Defined.

Lemma multiply_returns_when_all_fields_are_found_witness :
  gsi_covariance_mod.multiply (gsi_covariance_mod.mk false true false) ["ps"] ["u"; "v"]
    ([wind_slot_incomplete] ++ [wind_slot_complete])
  = ([], gsi_covariance_mod.Returns).
Proof.
  apply (multiply_returns_when_all_fields_are_found (gsi_covariance_mod.mk false true false)
           ["ps"] ["u"; "v"] [wind_slot_incomplete] wind_slot_complete).
  repeat constructor; vm_compute; set_solver.
Defined.

(** ** ErrorCovarianceTraining: the randomized ensemble *)

Lemma randomization_loop {T : Type} {ST : Scalar T} (incrs : list (list T)) :
  forall (ens : list (list T)) (mean : list T),
    fold_left (fun st incr => (fst st ++ [incr], zip_with s_add (snd st) incr))
              incrs (ens, mean)
    = (ens ++ incrs, sum_of_increments mean incrs).
Proof.
  induction incrs as [|incr incrs IH]; intros ens mean; cbn [fold_left fst snd].
  - by rewrite app_nil_r.
  - rewrite IH. by rewrite <- app_assoc.
Qed.

Lemma sum_of_increments_length (n : nat) (members : list (list R)) (zero : list R) :
  Forall (fun member => length member = n) members -> length zero = n ->
  length (sum_of_increments zero members) = n.
Proof.
  unfold sum_of_increments. intros Hlen. revert zero.
  induction Hlen as [|m ms Hm _ IH]; intros zero Hzero; [exact Hzero |].
  cbn [fold_left]. apply IH. cbn. rewrite length_zip_with. lia.
Qed.

Lemma sum_of_increments_lookup (n i : nat) (members : list (list R)) :
  Forall (fun member => length member = n) members ->
  forall (zero : list R) (x : R),
    length zero = n -> zero !! i = Some x ->
    sum_of_increments zero members !! i
    = Some (fold_left Rplus (components_at i members) x).
Proof.
  unfold sum_of_increments.
  induction 1 as [|m ms Hm _ IH]; intros zero x Hzero Hx; [exact Hx |].
  cbn [fold_left components_at map].
  destruct (lookup_lt_is_Some_2 m i) as [y Hy].
  { apply lookup_lt_Some in Hx. lia. }
  rewrite Hy. cbn [default]. change (Datatypes.id y) with y.
  apply IH.
  - cbn. rewrite length_zip_with. lia.
  - cbn. by rewrite lookup_zip_with, Hx, Hy.
Qed.

Lemma sum_shifted (c : R) (vs : list R) :
  forall a : R,
    fold_left Rplus (map (fun v => (v - c)%R) vs) a
    = (fold_left Rplus vs a - INR (length vs) * c)%R.
Proof.
  induction vs as [|v vs IH]; intros a.
  - cbn. ring.
  - cbn [map fold_left length]. rewrite IH, S_INR.
    assert (Hshift : forall b d : R,
               fold_left Rplus vs (b + d)%R = (fold_left Rplus vs b + d)%R).
    { clear. induction vs as [|v vs IH]; intros b d; cbn [fold_left]; [reflexivity |].
      replace (b + d + v)%R with (b + v + d)%R by ring. apply IH. }
    replace (a + (v - c))%R with (a + v + - c)%R by ring. rewrite Hshift. ring.
Qed.

(** X18. In exact arithmetic the randomized ensemble is centred: whatever
    increments the covariance draws (all of one size), the members that
    remain after the mean is removed sum to the zero increment. *)
Theorem randomized_ensemble_is_centred (n : nat) (incrs : list (list R)) :
  Forall (fun incr => length incr = n) incrs ->
  sum_of_increments (replicate n 0%R)
    (ErrorCovarianceTraining.randomized_ensemble (replicate n 0%R) incrs)
  = replicate n 0%R.
Proof.
  intros Hlen. unfold ErrorCovarianceTraining.randomized_ensemble. cbv zeta.
  rewrite randomization_loop. cbn [fst snd app].
  set (zero := replicate n 0%R).
  set (total := sum_of_increments zero incrs).
  set (rr := s_div s_one (s_of_nat (length incrs))).
  set (mean := map (fun v => s_mul v rr) total).
  assert (Hzero : length zero = n) by apply length_replicate.
  assert (Htotal : length total = n) by by apply sum_of_increments_length.
  assert (Hmean : length mean = n) by (subst mean; by rewrite length_map).
  assert (Hmembers : Forall (fun member => length member = n)
                       (map (fun member => zip_with s_sub member mean) incrs)).
  { rewrite map_fmap. apply Forall_fmap. eapply Forall_impl; [exact Hlen |].
    intros m Hm. unfold compose. cbv beta in *. rewrite length_zip_with. lia. }
  apply list_eq. intros i. destruct (decide (i < n)) as [Hi | Hi].
  - assert (H0 : zero !! i = Some 0%R) by by apply lookup_replicate_2.
    rewrite (sum_of_increments_lookup n i _ Hmembers zero 0%R Hzero H0), H0. f_equal.
    pose proof (sum_of_increments_lookup n i _ Hlen zero 0%R Hzero H0) as Htot.
    fold total in Htot.
    assert (Hm : mean !! i
                 = Some (fold_left Rplus (components_at i incrs) 0 * rr)%R).
    { subst mean. rewrite map_fmap, list_lookup_fmap, Htot. reflexivity. }
    assert (Hcomp : components_at i (map (fun member => zip_with s_sub member mean) incrs)
                    = map (fun v => (v - fold_left Rplus (components_at i incrs) 0 * rr)%R)
                          (components_at i incrs)).
    { unfold components_at at 1 3. rewrite !map_map.
      generalize dependent (fold_left Rplus (components_at i incrs) 0 * rr)%R.
      intros c Hm. clear Htot Hmembers Htotal. clearbody mean. clear total rr.
      induction Hlen as [|m ms Hml _ IH]; [reflexivity |].
      cbn [map]. f_equal; [| exact IH].
      destruct (lookup_lt_is_Some_2 m i) as [y Hy]; [lia |].
      rewrite lookup_zip_with, Hy, Hm. reflexivity. }
    rewrite Hcomp, sum_shifted. unfold components_at at 2. rewrite length_map.
    destruct incrs as [|incr incrs]; [cbn; ring |].
    subst rr. cbn [s_div s_one s_of_nat R_scalar].
    assert (Hne : INR (length (incr :: incrs)) <> 0%R).
    { apply not_0_INR. discriminate. }
    field. exact Hne.
  - rewrite !lookup_ge_None_2; [reflexivity | lia |].
    rewrite (sum_of_increments_length n) by done. lia.
Qed.

Lemma randomized_ensemble_is_centred_witness :
  sum_of_increments (replicate 2 0%R)
    (ErrorCovarianceTraining.randomized_ensemble (replicate 2 0%R)
       [[1; 2]; [3; 6]; [5; 1]]%R)
  = replicate 2 0%R.
Proof.
  apply (randomized_ensemble_is_centred 2 [[1; 2]; [3; 6]; [5; 1]]%R).
  repeat constructor.
Defined.

(** ** SaberCentralBlockBase::adjointTest: tolerances and zero products *)

Lemma SFdiv_abs_no_sign_bit (x y : SpecFloat.spec_float) :
  no_sign_bit (FloatAxioms.SF64div (SpecFloat.SFabs x) (SpecFloat.SFabs y)) = true.
Proof.
  unfold FloatAxioms.SF64div.
  destruct x as [sx|sx| |sx mx ex], y as [sy|sy| |sy my ey]; try reflexivity.
  cbn [SpecFloat.SFabs SpecFloat.SFdiv xorb].
  destruct (SpecFloat.SFdiv_core_binary _ _ _ _ _ _) as [[mz ez] lz].
  unfold SpecFloat.binary_round_aux.
  destruct (SpecFloat.shr_fexp _ _ mz ez lz) as [mrs' e'].
  destruct (SpecFloat.shr_fexp _ _ _ e' _) as [mrs'' e''].
  destruct (SpecFloat.shr_m mrs''); [reflexivity | | reflexivity].
  destruct (_ <=? _)%Z; reflexivity.
Qed.

Lemma SFltb_no_sign_bit (r t : SpecFloat.spec_float) :
  no_sign_bit r = true ->
  SpecFloat.SFleb t (SpecFloat.S754_zero false) = true ->
  SpecFloat.SFltb r t = false.
Proof.
  destruct r as [[]|[]| |[] m e], t as [[]|[]| |[] m' e']; cbn;
    intros; try reflexivity; discriminate.
Qed.

(** On doubles the ratio of the test is never below a tolerance that is
    not above zero. *)
Lemma relative_difference_not_below (dp1 dp2 adjointTolerance : float) :
  PrimFloat.leb adjointTolerance 0 = true ->
  s_ltb (SaberCentralBlockBase.relative_difference dp1 dp2) adjointTolerance = false.
Proof.
  intros Htol. unfold SaberCentralBlockBase.relative_difference.
  cbn [s_ltb s_div s_abs float_scalar].
  rewrite FloatAxioms.ltb_spec, FloatAxioms.div_spec, !FloatAxioms.abs_spec.
  apply SFltb_no_sign_bit; [apply SFdiv_abs_no_sign_bit |].
  rewrite FloatAxioms.leb_spec in Htol. exact Htol.
Qed.

(** A double that compares equal to zero is one of the two zeros. *)
Lemma eqb_zero (x : float) :
  PrimFloat.eqb x 0 = true -> x = 0%float \/ x = (-0)%float.
Proof.
  rewrite FloatAxioms.eqb_spec. intros Hx.
  rewrite <- (FloatAxioms.SF2Prim_Prim2SF x).
  destruct (FloatOps.Prim2SF x) as [[]|[]| |[] m e]; try discriminate Hx.
  - right. reflexivity.
  - left. reflexivity.
Qed.

Lemma nan_not_below (adjointTolerance : float) :
  PrimFloat.ltb nan adjointTolerance = false.
Proof. rewrite FloatAxioms.ltb_spec. reflexivity. Qed.

Section AdjointTestEdges.
Context {Vars Rng : Type}.
Variable createRandomFieldSet : Rng -> Vars -> FieldSet float * Rng.
Variable dotProductFieldSets : FieldSet float -> FieldSet float -> Vars -> float.

Let adjointTest := SaberCentralBlockBase.adjointTest createRandomFieldSet dotProductFieldSets.

(** X19. On doubles the adjoint test never passes with a tolerance that is
    zero or negative, whatever the block and the draws: the comparison is
    strict and the ratio is a quotient of two absolute values. *)
Theorem adjointTest_fails_for_a_tolerance_not_above_zero
    (self : SaberCentralBlockBase.t float) (vars : Vars) (adjointTolerance : float)
    (rng : Rng) :
  PrimFloat.leb adjointTolerance 0 = true ->
  snd (adjointTest self vars adjointTolerance rng)
  = Throw (Exception_ ("Adjoint test failure for block "
                       ++ SaberCentralBlockBase.blockName self)).
Proof.
  intros Htol. subst adjointTest. unfold SaberCentralBlockBase.adjointTest.
  destruct (createRandomFieldSet rng vars) as [fset1 rng1].
  destruct (createRandomFieldSet rng1 vars) as [fset2 rng2].
  by rewrite relative_difference_not_below.
Qed.

(** X20. On doubles the adjoint test fails for every tolerance when both
    dot products are zero (as for a block that returns zero fields): the
    ratio is 0/0, a NaN, and no comparison with a NaN holds. *)
Theorem adjointTest_fails_when_both_products_are_zero
    (self : SaberCentralBlockBase.t float) (vars : Vars) (adjointTolerance : float)
    (rng : Rng) :
  let x := fst (createRandomFieldSet rng vars) in
  let y := fst (createRandomFieldSet (snd (createRandomFieldSet rng vars)) vars) in
  let A := SaberCentralBlockBase.multiply self in
  PrimFloat.eqb (dotProductFieldSets (A x) y vars) 0 = true ->
  PrimFloat.eqb (dotProductFieldSets (A y) x vars) 0 = true ->
  snd (adjointTest self vars adjointTolerance rng)
  = Throw (Exception_ ("Adjoint test failure for block "
                       ++ SaberCentralBlockBase.blockName self)).
Proof.
  intros x y A H1 H2. subst x y A adjointTest. unfold SaberCentralBlockBase.adjointTest.
  destruct (createRandomFieldSet rng vars) as [fset1 rng1].
  cbn [fst snd] in H1, H2.
  destruct (createRandomFieldSet rng1 vars) as [fset2 rng2].
  cbn [fst snd] in H1, H2.
  assert (Hnan : SaberCentralBlockBase.relative_difference
                   (dotProductFieldSets (SaberCentralBlockBase.multiply self fset1) fset2 vars)
                   (dotProductFieldSets (SaberCentralBlockBase.multiply self fset2) fset1 vars)
                 = nan).
  { destruct (eqb_zero _ H1) as [-> | ->], (eqb_zero _ H2) as [-> | ->]; reflexivity. }
  rewrite Hnan. cbn [s_ltb float_scalar]. by rewrite nan_not_below.
Qed.

End AdjointTestEdges.

Section AdjointTestExact.
Context {Vars Rng : Type}.
Variable createRandomFieldSet : Rng -> Vars -> FieldSet R * Rng.
Variable dotProductFieldSets : FieldSet R -> FieldSet R -> Vars -> R.

Let adjointTest := SaberCentralBlockBase.adjointTest createRandomFieldSet dotProductFieldSets.

(** X21. In exact arithmetic, when the two dot products are equal and not
    zero for the two field sets drawn, the adjoint test passes with every
    tolerance above zero, and logs that it passed. *)
Theorem adjointTest_passes_when_the_products_agree
    (self : SaberCentralBlockBase.t R) (vars : Vars) (adjointTolerance : R) (rng : Rng) :
  let x := fst (createRandomFieldSet rng vars) in
  let y := fst (createRandomFieldSet (snd (createRandomFieldSet rng vars)) vars) in
  let A := SaberCentralBlockBase.multiply self in
  dotProductFieldSets (A x) y vars = dotProductFieldSets (A y) x vars ->
  dotProductFieldSets (A x) y vars <> 0%R ->
  (0 < adjointTolerance)%R ->
  snd (adjointTest self vars adjointTolerance rng) = Ok tt
  /\ snd (fst (adjointTest self vars adjointTolerance rng))
     = [LogTest ("Adjoint test for block " ++ SaberCentralBlockBase.blockName self
                 ++ " passed")].
Proof.
  intros x y A Heq Hne Htol. subst x y A adjointTest.
  unfold SaberCentralBlockBase.adjointTest.
  destruct (createRandomFieldSet rng vars) as [fset1 rng1].
  cbn [fst snd] in Heq, Hne.
  destruct (createRandomFieldSet rng1 vars) as [fset2 rng2].
  cbn [fst snd] in Heq, Hne.
  rewrite <- Heq. set (dp := dotProductFieldSets _ _ _) in *.
  assert (Hlt : s_ltb (SaberCentralBlockBase.relative_difference dp dp) adjointTolerance
                = true).
  { unfold SaberCentralBlockBase.relative_difference.
    cbn [s_ltb s_div s_abs s_sub s_mul s_add s_half R_scalar].
    unfold Rltb. destruct (Rlt_dec _ _) as [_ | Hnot]; [reflexivity |].
    exfalso. apply Hnot.
    replace (dp - dp)%R with 0%R by ring. rewrite Rabs_R0.
    unfold Rdiv. rewrite Rmult_0_l. exact Htol. }
  rewrite Hlt. split; reflexivity.
Qed.

End AdjointTestExact.

Lemma adjointTest_fails_for_a_tolerance_not_above_zero_witness :
  snd (SaberCentralBlockBase.adjointTest counting_draw constant_product ID_block tt 0%float 0)
  = Throw (Exception_ "Adjoint test failure for block ID").
Proof.
  apply (adjointTest_fails_for_a_tolerance_not_above_zero counting_draw constant_product
           ID_block tt 0%float 0).
  reflexivity.
Defined.

Lemma adjointTest_fails_when_both_products_are_zero_witness :
  snd (SaberCentralBlockBase.adjointTest counting_draw chi_product zeroing_block tt
         0x1p-1%float 0)
  = Throw (Exception_ "Adjoint test failure for block zero").
Proof.
  apply (adjointTest_fails_when_both_products_are_zero counting_draw chi_product
           zeroing_block tt 0x1p-1%float 0).
  - vm_compute. reflexivity.
  - vm_compute. reflexivity.
Defined.

Lemma adjointTest_passes_when_the_products_agree_witness :
  snd (SaberCentralBlockBase.adjointTest counting_draw chi_product
         (SaberCentralBlockBase.mk (fun fset : FieldSet R => fset) "ID") tt (/ 2)%R 0)
  = Ok tt.
Proof.
  refine (proj1 (adjointTest_passes_when_the_products_agree counting_draw chi_product
                   (SaberCentralBlockBase.mk (fun fset : FieldSet R => fset) "ID")
                   tt (/ 2)%R 0 eq_refl _ _)).
  - cbv zeta. unfold chi_product, counting_draw. cbn [fst snd SaberCentralBlockBase.multiply].
    replace (view2 (values_of (two_level_fields (T := R)) "chi") 0 0) with 1%R by reflexivity.
    cbn [s_mul R_scalar]. lra.
  - lra.
Defined.

(** ** gsi_covariance_mod: get_rank2_ and the order of the levels *)

Lemma get_rank2_blocks_found (has : string -> bool) (vname : string)
    (bs : list gsi_covariance_mod.Block) :
  gsi_covariance_mod.get_rank2_blocks has vname bs 0 = 0%Z.
Proof.
  induction bs as [|[vnames field|] bs IH]; cbn [gsi_covariance_mod.get_rank2_blocks];
    [reflexivity | |].
  - destruct (existsb _ vnames); [destruct (negb (has field)) |]; done.
  - destruct (fortran.eq _ "phis"); [| done].
    destruct (negb (has "geopotential_height_times_gravity_at_surface")); [| done].
    by destruct (has "geopotential_height_at_surface").
Qed.

Lemma get_rank2_blocks_first (fields : gset string) (vname : string)
    (bs : list gsi_covariance_mod.Block) :
  gsi_covariance_mod.get_rank2_blocks (fun name => bool_decide (name ∈ fields)) vname bs (-1)
  = match find (block_entered vname) bs with
    | Some b => if block_finds fields b then 0%Z else (-1)%Z
    | None => (-1)%Z
    end.
Proof.
  induction bs as [|[vnames field|] bs IH];
    cbn [gsi_covariance_mod.get_rank2_blocks find block_entered]; [reflexivity | |].
  - destruct (existsb _ vnames); [| exact IH]. cbn [block_finds].
    destruct (bool_decide (field ∈ fields)); cbn [negb]; [| reflexivity].
    apply get_rank2_blocks_found.
  - destruct (fortran.eq _ "phis"); [| exact IH]. cbn [block_finds].
    destruct (bool_decide ("geopotential_height_times_gravity_at_surface" ∈ fields));
      cbn [negb orb]; [apply get_rank2_blocks_found |].
    destruct (bool_decide ("geopotential_height_at_surface" ∈ fields));
      [apply get_rank2_blocks_found | reflexivity].
Qed.

(** X22. [get_rank2_] returns 0 or -1: 0 when the first block that is
    entered for the name (read without its trailing blanks) finds its field
    in the field set (for [phis], one of its two fields), and -1 when that
    field is missing or no block is entered; with no field at all it
    returns -1. *)
Theorem get_rank2_status (fields : gset string) (vname : string) :
  gsi_covariance_mod.get_rank2_ fields vname
  = match find (block_entered vname) gsi_covariance_mod.blocks with
    | Some b => if block_finds fields b then 0%Z else (-1)%Z
    | None => (-1)%Z
    end
  /\ (gsi_covariance_mod.get_rank2_ fields vname = 0%Z
      \/ gsi_covariance_mod.get_rank2_ fields vname = (-1)%Z)
  /\ gsi_covariance_mod.get_rank2_ ∅ vname = (-1)%Z.
Proof.
  unfold gsi_covariance_mod.get_rank2_. rewrite !get_rank2_blocks_first.
  split; [reflexivity |]. split.
  - destruct (find _ _) as [b|]; [destruct (block_finds fields b) |]; auto.
  - destruct (find _ _) as [[vnames field|]|]; reflexivity.
Qed.

Section LevelOrder.
Context {T : Type} {ST : Scalar T}.

(** X23. With the vertical flip the levels of the GSI variable are those
    without the flip in reverse order. *)
Theorem to_gsivar3d_flip_reverses_the_levels (npz : nat) (rank2 : list (list T))
    (gsivar3d : list (list (list T))) (aux : list (list T)) :
  length gsivar3d = npz ->
  gsi_covariance_mod.to_gsivar3d true npz rank2 gsivar3d aux
  = reverse (gsi_covariance_mod.to_gsivar3d false npz rank2 gsivar3d aux).
Proof.
  intros Hg. apply list_eq. intros j.
  destruct (decide (j < npz)) as [Hj | Hj].
  - rewrite reverse_lookup by (rewrite length_to_gsivar3d; lia).
    rewrite length_to_gsivar3d, Hg.
    pose proof (to_gsivar3d_lookup true npz rank2 gsivar3d aux (npz - j) Hg) as Htrue.
    pose proof (to_gsivar3d_lookup false npz rank2 gsivar3d aux (npz - j) Hg) as Hfalse.
    cbn [gsi_covariance_mod.gsi_level] in Htrue, Hfalse.
    replace (npz - (npz - j) + 1 - 1) with j in Htrue by lia.
    replace (npz - j - 1) with (npz - S j) in Hfalse, Htrue by lia.
    rewrite Htrue, Hfalse by lia. reflexivity.
  - rewrite !lookup_ge_None_2; [reflexivity | |].
    + rewrite length_reverse, length_to_gsivar3d. lia.
    + rewrite length_to_gsivar3d. lia.
Qed.

End LevelOrder.

Lemma to_gsivar3d_flip_reverses_the_levels_witness :
  gsi_covariance_mod.to_gsivar3d true 3 halo_levels (replicate 3 []) halo_array
  = reverse (gsi_covariance_mod.to_gsivar3d false 3 halo_levels (replicate 3 []) halo_array).
Proof.
  apply (to_gsivar3d_flip_reverses_the_levels 3 halo_levels (replicate 3 []) halo_array).
  reflexivity.
Defined.

(** ** SpectralCorrelation::multiply is additive in exact arithmetic *)

Lemma zip_with_map_seq {A : Type} (F : A -> A -> A) (u v : nat -> A) (ks : list nat) :
  zip_with F (map u ks) (map v ks) = map (fun k => F (u k) (v k)) ks.
Proof. induction ks as [|k ks IH]; [reflexivity |]. cbn. by rewrite IH. Qed.

Lemma convolution_sum (M : list (list R)) (nrm : R) (a b : list R) (r : nat) (cs : list nat) :
  Forall (fun c => c < length a) cs -> length b = length a ->
  forall x y : R,
    fold_left (fun acc c =>
                 s_add acc (s_div (s_mul (view2 M r c)
                                         (default s_zero (zip_with Rplus a b !! c))) nrm))
              cs (x + y)%R
    = (fold_left (fun acc c =>
                    s_add acc (s_div (s_mul (view2 M r c) (default s_zero (a !! c))) nrm))
                 cs x
       + fold_left (fun acc c =>
                      s_add acc (s_div (s_mul (view2 M r c) (default s_zero (b !! c))) nrm))
                   cs y)%R.
Proof.
  intros Hcs Hlen. induction Hcs as [|c cs Hc _ IH]; intros x y; cbn [fold_left];
    [reflexivity |].
  destruct (lookup_lt_is_Some_2 a c Hc) as [ac Ha].
  destruct (lookup_lt_is_Some_2 b c) as [bc Hb]; [lia |].
  rewrite lookup_zip_with, Ha, Hb. cbn [mbind option_bind default].
  change (Datatypes.id ?z) with z. cbn [s_add s_div s_mul R_scalar].
  rewrite <- IH. f_equal. unfold Rdiv. ring.
Qed.

Lemma normalized_convolution_add (M : list (list R)) (nrm : R) (a b : list R) :
  length b = length a ->
  normalized_convolution M nrm (zip_with Rplus a b)
  = zip_with Rplus (normalized_convolution M nrm a) (normalized_convolution M nrm b).
Proof.
  intros Hlen. unfold normalized_convolution.
  rewrite length_zip_with, Hlen, Nat.min_id, zip_with_map_seq.
  apply map_ext. intros r.
  rewrite <- (convolution_sum M nrm a b r (seq 0 (length a))); [| | exact Hlen].
  - cbn [s_zero R_scalar]. by rewrite Rplus_0_l.
  - apply Forall_forall. intros c Hc. apply elem_of_seq in Hc. lia.
Qed.

Lemma multiply_field_add (self : SpectralCorrelation.t R) (vertCov : Array3 R)
    (f g : Field R) :
  well_shaped f -> well_shaped g -> levels g = levels f ->
  SpectralCorrelation.multiply_field self vertCov (add_fields f g)
  = add_fields (SpectralCorrelation.multiply_field self vertCov f)
               (SpectralCorrelation.multiply_field self vertCov g).
Proof.
  intros Hf Hg Hlev.
  assert (Hfg : well_shaped (add_fields f g)).
  { unfold well_shaped, add_fields in *. cbn [levels values].
    apply Forall_forall. intros row Hrow.
    apply list_elem_of_lookup in Hrow as [j Hj].
    rewrite lookup_zip_with in Hj.
    destruct (values f !! j) as [r1|] eqn:H1; [| discriminate].
    destruct (values g !! j) as [r2|] eqn:H2; [| discriminate].
    cbn in Hj. injection Hj as <-. rewrite length_zip_with.
    rewrite (proj1 (Forall_lookup _ _) Hf j r1 H1),
            (proj1 (Forall_lookup _ _) Hg j r2 H2). lia. }
  assert (Hvalues : values (SpectralCorrelation.multiply_field self vertCov (add_fields f g))
                    = zip_with (zip_with Rplus)
                        (values (SpectralCorrelation.multiply_field self vertCov f))
                        (values (SpectralCorrelation.multiply_field self vertCov g))).
  { apply list_eq. intros j.
    rewrite lookup_zip_with, !multiply_field_lookup by done.
    unfold add_fields at 1 2. cbn [values]. rewrite lookup_zip_with.
    destruct (wavenumbers _ _ !! j) as [n1|]; [| reflexivity].
    destruct (values f !! j) as [r1|] eqn:H1; [| reflexivity].
    destruct (values g !! j) as [r2|] eqn:H2; [| reflexivity].
    cbn. f_equal. unfold convolved. apply normalized_convolution_add.
    rewrite (proj1 (Forall_lookup _ _) Hf j r1 H1),
            (proj1 (Forall_lookup _ _) Hg j r2 H2). exact Hlev. }
  unfold add_fields at 2. rewrite <- Hvalues. reflexivity.
Qed.

(** X24. In exact arithmetic [multiply] is additive on an active variable:
    for two field sets that hold the active variables, with fields of one
    shape for the variable, multiplying their sum gives the sum of their
    products. *)
Theorem multiply_is_additive (self : SpectralCorrelation.t R)
    (fieldSet1 fieldSet2 : FieldSet R) (var : string) (f g : Field R) :
  NoDup (SpectralCorrelation.activeVars_ self) ->
  (forall v, v ∈ SpectralCorrelation.activeVars_ self ->
     is_Some (fieldSet1 !! v) /\ is_Some (fieldSet2 !! v)
     /\ is_Some (SpectralCorrelation.spectralVerticalCorrelations_ self !! v)) ->
  var ∈ SpectralCorrelation.activeVars_ self ->
  fieldSet1 !! var = Some f -> fieldSet2 !! var = Some g ->
  well_shaped f -> well_shaped g -> levels g = levels f ->
  exists f' g',
    fst (SpectralCorrelation.multiply self fieldSet1) !! var = Some f'
    /\ fst (SpectralCorrelation.multiply self fieldSet2) !! var = Some g'
    /\ fst (SpectralCorrelation.multiply self (add_field_sets fieldSet1 fieldSet2)) !! var
       = Some (add_fields f' g').
Proof.
  intros Hnodup Hpresent Hvar Hf Hg Hwf Hwg Hlev.
  destruct (Hpresent var Hvar) as (_ & _ & [vertCov Hc]).
  assert (H1 : forall v, v ∈ SpectralCorrelation.activeVars_ self ->
             is_Some (fieldSet1 !! v)
             /\ is_Some (SpectralCorrelation.spectralVerticalCorrelations_ self !! v)).
  { intros v Hv. destruct (Hpresent v Hv) as (? & ? & ?). by split. }
  assert (H2 : forall v, v ∈ SpectralCorrelation.activeVars_ self ->
             is_Some (fieldSet2 !! v)
             /\ is_Some (SpectralCorrelation.spectralVerticalCorrelations_ self !! v)).
  { intros v Hv. destruct (Hpresent v Hv) as (? & ? & ?). by split. }
  assert (H12 : forall v, v ∈ SpectralCorrelation.activeVars_ self ->
              is_Some (add_field_sets fieldSet1 fieldSet2 !! v)
              /\ is_Some (SpectralCorrelation.spectralVerticalCorrelations_ self !! v)).
  { intros v Hv. destruct (Hpresent v Hv) as ([f1 Hf1] & [f2 Hf2] & ?). split; [| done].
    unfold add_field_sets. rewrite lookup_union_with, Hf1, Hf2. by eexists. }
  assert (Hsum : add_field_sets fieldSet1 fieldSet2 !! var = Some (add_fields f g)).
  { unfold add_field_sets. by rewrite lookup_union_with, Hf, Hg. }
  exists (SpectralCorrelation.multiply_field self vertCov f),
         (SpectralCorrelation.multiply_field self vertCov g).
  unfold SpectralCorrelation.multiply.
  rewrite (proj2 (multiply_vars_lookup self _ fieldSet1 Hnodup H1) var f vertCov Hvar Hf Hc).
  rewrite (proj2 (multiply_vars_lookup self _ fieldSet2 Hnodup H2) var g vertCov Hvar Hg Hc).
  rewrite (proj2 (multiply_vars_lookup self _ _ Hnodup H12) var _ vertCov Hvar Hsum Hc).
  by rewrite multiply_field_add.
Qed.

Lemma multiply_is_additive_witness :
  exists f' g',
    fst (SpectralCorrelation.multiply (T := R) identity_correlation two_level_psi) !! "psi"
    = Some f'
    /\ fst (SpectralCorrelation.multiply identity_correlation two_level_psi_bis) !! "psi"
       = Some g'
    /\ fst (SpectralCorrelation.multiply identity_correlation
              (add_field_sets two_level_psi two_level_psi_bis)) !! "psi"
       = Some (add_fields f' g').
Proof.
  apply (multiply_is_additive identity_correlation two_level_psi two_level_psi_bis "psi"
           (mkField 2 (replicate 6 [s_one; s_add s_one s_one]))
           (mkField 2 (replicate 6 [3; 5]%R))).
  - apply NoDup_singleton.
  - intros v Hv. apply list_elem_of_singleton in Hv as ->.
    repeat split; eexists; reflexivity.
  - apply list_elem_of_singleton. reflexivity.
  - reflexivity.
  - reflexivity.
  - apply Forall_replicate. reflexivity.
  - apply Forall_replicate. reflexivity.
  - reflexivity.
Defined.

Lemma convolution_scaled (M : list (list R)) (nrm a : R) (col : list R) (r : nat)
    (cs : list nat) :
  forall x : R,
    fold_left (fun acc c =>
                 s_add acc (s_div (s_mul (view2 M r c)
                                         (default s_zero (map (Rmult a) col !! c))) nrm))
              cs (a * x)%R
    = (a * fold_left (fun acc c =>
                        s_add acc (s_div (s_mul (view2 M r c) (default s_zero (col !! c))) nrm))
                     cs x)%R.
Proof.
  induction cs as [|c cs IH]; intros x; cbn [fold_left]; [reflexivity |].
  rewrite <- IH. f_equal. rewrite map_fmap, list_lookup_fmap.
  cbn [s_add s_div s_mul s_zero R_scalar].
  destruct (col !! c) as [v|]; cbn; unfold Rdiv; ring.
Qed.

Lemma normalized_convolution_scaled (M : list (list R)) (nrm a : R) (col : list R) :
  normalized_convolution M nrm (map (Rmult a) col)
  = map (Rmult a) (normalized_convolution M nrm col).
Proof.
  unfold normalized_convolution. rewrite length_map, map_map.
  apply map_ext. intros r. rewrite <- convolution_scaled.
  cbn [s_zero R_scalar]. by rewrite Rmult_0_r.
Qed.

Lemma multiply_field_scaled (self : SpectralCorrelation.t R) (vertCov : Array3 R)
    (a : R) (f : Field R) :
  well_shaped f ->
  SpectralCorrelation.multiply_field self vertCov (scale_field a f)
  = scale_field a (SpectralCorrelation.multiply_field self vertCov f).
Proof.
  intros Hf.
  assert (Haf : well_shaped (scale_field a f)).
  { unfold well_shaped, scale_field in *. cbn [levels values].
    rewrite map_fmap. apply Forall_fmap. eapply Forall_impl; [exact Hf |].
    intros row Hrow. unfold compose. by rewrite length_map. }
  assert (Hvalues : values (SpectralCorrelation.multiply_field self vertCov (scale_field a f))
                    = map (map (Rmult a))
                          (values (SpectralCorrelation.multiply_field self vertCov f))).
  { apply list_eq. intros j.
    rewrite (map_fmap (map (Rmult a))), list_lookup_fmap, !multiply_field_lookup by done.
    unfold scale_field at 1 2. cbn [values].
    rewrite (map_fmap (map (Rmult a))), list_lookup_fmap.
    destruct (wavenumbers _ _ !! j) as [n1|]; [| reflexivity].
    destruct (values f !! j) as [row|]; [| reflexivity].
    cbn. f_equal. apply normalized_convolution_scaled. }
  unfold scale_field at 2. rewrite <- Hvalues. reflexivity.
Qed.

(** X25. In exact arithmetic [multiply] is homogeneous on an active
    variable: multiplying a field set scaled by a number gives the product
    scaled by that number. *)
Theorem multiply_is_homogeneous (self : SpectralCorrelation.t R)
    (fieldSet : FieldSet R) (a : R) (var : string) (f : Field R) :
  NoDup (SpectralCorrelation.activeVars_ self) ->
  (forall v, v ∈ SpectralCorrelation.activeVars_ self ->
     is_Some (fieldSet !! v)
     /\ is_Some (SpectralCorrelation.spectralVerticalCorrelations_ self !! v)) ->
  var ∈ SpectralCorrelation.activeVars_ self ->
  fieldSet !! var = Some f ->
  well_shaped f ->
  exists f',
    fst (SpectralCorrelation.multiply self fieldSet) !! var = Some f'
    /\ fst (SpectralCorrelation.multiply self (scale_field_set a fieldSet)) !! var
       = Some (scale_field a f').
Proof.
  intros Hnodup Hpresent Hvar Hf Hwf.
  destruct (Hpresent var Hvar) as (_ & [vertCov Hc]).
  assert (Hscaled : forall v, v ∈ SpectralCorrelation.activeVars_ self ->
              is_Some (scale_field_set a fieldSet !! v)
              /\ is_Some (SpectralCorrelation.spectralVerticalCorrelations_ self !! v)).
  { intros v Hv. destruct (Hpresent v Hv) as ([fv Hfv] & ?). split; [| done].
    unfold scale_field_set. rewrite lookup_fmap, Hfv. by eexists. }
  assert (Haf : scale_field_set a fieldSet !! var = Some (scale_field a f)).
  { unfold scale_field_set. by rewrite lookup_fmap, Hf. }
  exists (SpectralCorrelation.multiply_field self vertCov f).
  unfold SpectralCorrelation.multiply.
  rewrite (proj2 (multiply_vars_lookup self _ fieldSet Hnodup Hpresent) var f vertCov
             Hvar Hf Hc).
  rewrite (proj2 (multiply_vars_lookup self _ _ Hnodup Hscaled) var _ vertCov Hvar Haf Hc).
  by rewrite multiply_field_scaled.
Qed.

Lemma multiply_is_homogeneous_witness :
  exists f',
    fst (SpectralCorrelation.multiply (T := R) identity_correlation two_level_psi) !! "psi"
    = Some f'
    /\ fst (SpectralCorrelation.multiply identity_correlation
              (scale_field_set 3 two_level_psi)) !! "psi"
       = Some (scale_field 3 f').
Proof.
  apply (multiply_is_homogeneous identity_correlation two_level_psi 3 "psi"
           (mkField 2 (replicate 6 [s_one; s_add s_one s_one]))).
  - apply NoDup_singleton.
  - intros v Hv. apply list_elem_of_singleton in Hv as ->.
    repeat split; eexists; reflexivity.
  - apply list_elem_of_singleton. reflexivity.
  - reflexivity.
  - apply Forall_replicate. reflexivity.
Defined.
